(** * cstruct: binary pack / unpack driven by a format string

    A shallow embedding of [src/cstruct/cstruct.c] (the engine behind the
    [CStruct] class of the Arduino library) and the properties of it that
    the specification states.

    Conventions of the embedding.
    - A buffer is a [list byte]; a pointer into it is the offset (a [Z]) from
      its first byte, so the pointer [dst] the caller passes is offset [0].
    - [size_t] values are [Z]s in [0 .. SIZE_MAX]; every [size_t] operation
      the code performs is reduced with [size_t], i.e. modulo [SIZE_MAX + 1].
    - An access outside the object a pointer points into has no defined
      behaviour in C: such a run yields [None] ([undefined]); it is kept
      apart from the [NULL] the functions return on failure.
    - The host byte order ([CSTRUCT_IS_BIG_ENDIAN]) and [SIZE_MAX] are fixed
      by the compiler: they are the two fields of [Platform].
    - [int] is taken to have at least 32 bits and [double] to be the 8-byte
      binary64, as on the 32-bit boards and on a desktop host.  Two places
      of the code depend on it: [0xFF << 23] in [cstruct_half_to_float],
      and the 8-byte copies from and to a [double] in the [d] primitives
      (on the 8-bit AVR boards, where [int] has 16 bits and [double] 4
      bytes, both are outside the embedding). *)

From Stdlib Require Import ZArith List String Ascii Bool Lia.
From stdpp Require Import list.
From coqutil Require Import Byte Word.LittleEndianList Z.bitblast.
Import ListNotations.
Local Open Scope Z_scope.

(* ================================================================== *)
(** * The platform *)

(** [CSTRUCT_IS_BIG_ENDIAN] is the macro of cstruct.c, [SIZE_MAX] the
    constant of <stdint.h>; C guarantees that [SIZE_MAX] is at least
    65535. *)
Class Platform := {
  CSTRUCT_IS_BIG_ENDIAN : bool;
  SIZE_MAX : Z;
  SIZE_MAX_lower : 65535 <= SIZE_MAX
}.

(** A little-endian platform with the smallest [size_t] C allows, 16 bits
    (the [size_t] of the 8-bit AVR boards). *)
Definition size16 : Platform :=
  {| CSTRUCT_IS_BIG_ENDIAN := false; SIZE_MAX := 65535;
     SIZE_MAX_lower := Z.le_refl 65535 |}.

(** The 32-bit boards (ARM Cortex-M, ESP32): little-endian. *)
Definition arm32 : Platform :=
  {| CSTRUCT_IS_BIG_ENDIAN := false; SIZE_MAX := 4294967295;
     SIZE_MAX_lower := fun H : (65535 ?= 4294967295) = Gt =>
       eq_ind Lt (fun c => match c with Gt => False | _ => True end) I Gt H |}.

(** A 64-bit little-endian host. *)
Definition host64 : Platform :=
  {| CSTRUCT_IS_BIG_ENDIAN := false; SIZE_MAX := 18446744073709551615;
     SIZE_MAX_lower := fun H : (65535 ?= 18446744073709551615) = Gt =>
       eq_ind Lt (fun c => match c with Gt => False | _ => True end) I Gt H |}.

(** A 32-bit big-endian host. *)
Definition be32 : Platform :=
  {| CSTRUCT_IS_BIG_ENDIAN := true; SIZE_MAX := 4294967295;
     SIZE_MAX_lower := fun H : (65535 ?= 4294967295) = Gt =>
       eq_ind Lt (fun c => match c with Gt => False | _ => True end) I Gt H |}.

(** Conversion to [size_t], and the result of [size_t] arithmetic. *)
Definition size_t `{Platform} (x : Z) : Z := x mod (SIZE_MAX + 1).

(** [static const size_t CSTRUCT_DIV10_THRESHOLD = SIZE_MAX / 10;] *)
Definition CSTRUCT_DIV10_THRESHOLD `{Platform} : Z := SIZE_MAX / 10.

(** [static const size_t CSTRUCT_DIV10_MAX_LAST_DIGIT = SIZE_MAX % 10;] *)
Definition CSTRUCT_DIV10_MAX_LAST_DIGIT `{Platform} : Z := SIZE_MAX mod 10.

(* ================================================================== *)
(** * Memory *)

Abbreviation mem := (list byte).

(** A computation that writes the buffer: [None] is undefined behaviour. *)
Definition M (A : Type) : Type := mem -> option (A * mem).

Definition ret {A} (a : A) : M A := fun m => Some (a, m).

Definition bind {A B} (c : M A) (k : A -> M B) : M B :=
  fun m => match c m with
           | Some (a, m') => k a m'
           | None => None
           end.

Definition undefined {A} : M A := fun _ => None.

Declare Scope cstruct_scope.
Delimit Scope cstruct_scope with cstruct.
Notation "x <- c ;; k" := (bind c (fun x => k))
  (at level 100, c at next level, right associativity) : cstruct_scope.
Local Open Scope cstruct_scope.

(** [p[0] = b], for a pointer [p] into the buffer. *)
Definition poke (p : Z) (b : byte) : M unit :=
  fun m => if (0 <=? p) && (p <? Z.of_nat (length m))
           then Some (tt, <[Z.to_nat p := b]> m)
           else None.

(** [s[i]], for a pointer [s] to the first byte of the object [obj]. *)
Definition peek (obj : list byte) (i : Z) : option byte :=
  if 0 <=? i then obj !! Z.to_nat i else None.

(** [for (size_t i = start; i < start + n; ++i) body(i);] *)
Fixpoint for_loop (n : nat) (i : Z) (body : Z -> M unit) : M unit :=
  match n with
  | O => ret tt
  | S n' => _ <- body i ;; for_loop n' (i + 1) body
  end.

(** The object [d] of [n] bytes filled by
    [for (size_t i = start; i < start + n; ++i) d[i] = rd(i);] *)
Fixpoint gather (n : nat) (i : Z) (rd : Z -> option byte) : option (list byte) :=
  match n with
  | O => Some []
  | S n' => match rd i with
            | Some b => option_map (cons b) (gather n' (i + 1) rd)
            | None => None
            end
  end.

(** [memcpy(dst, src, n)] from a caller object into the buffer. *)
Definition memcpy (dst : Z) (src : list byte) (n : Z) : M unit :=
  for_loop (Z.to_nat n) 0
    (fun i => match peek src i with
              | Some b => poke (dst + i) b
              | None => undefined
              end).

(** [memset(dst, c, n)]. *)
Definition memset (dst : Z) (c : Z) (n : Z) : M unit :=
  for_loop (Z.to_nat n) 0 (fun i => poke (dst + i) (byte.of_Z c)).

(** [strlen(s)]: the index of the first NUL of the object [s] points to
    ([None] when the object holds none: the scan leaves the object). *)
Fixpoint strlen (s : list byte) : option Z :=
  match s with
  | [] => None
  | b :: s' => if byte.unsigned b =? 0 then Some 0
               else option_map Z.succ (strlen s')
  end.

(* ================================================================== *)
(** * Objects in host memory *)

(** The [n] bytes, in host order, of an integer object that holds [v]
    (two's complement), i.e. what [&value] points to. *)
Definition object `{Platform} (n : nat) (v : Z) : list byte :=
  if CSTRUCT_IS_BIG_ENDIAN then rev (le_split n v) else le_split n v.

(** The unsigned value an object holds. *)
Definition object_value `{Platform} (obj : list byte) : Z :=
  le_combine (if CSTRUCT_IS_BIG_ENDIAN then rev obj else obj).

(** Conversion to a signed / unsigned integer type of [w] bits. *)
Definition to_unsigned (w : Z) (v : Z) : Z := v mod 2 ^ w.

Definition to_signed (w : Z) (v : Z) : Z :=
  (v + 2 ^ (w - 1)) mod 2 ^ w - 2 ^ (w - 1).

(* ================================================================== *)
(** * Endian codec *)

(** [for (size_t i = 0; i < size; ++i) dst[i] = s[i];] *)
Definition cstruct_store_fw (dst : Z) (src : list byte) (size : Z) : M unit :=
  for_loop (Z.to_nat size) 0
    (fun i => match peek src i with
              | Some b => poke (dst + i) b
              | None => undefined
              end).

(** [for (size_t i = 0; i < size; ++i) dst[i] = s[size - 1 - i];] *)
Definition cstruct_store_rev (dst : Z) (src : list byte) (size : Z) : M unit :=
  for_loop (Z.to_nat size) 0
    (fun i => match peek src (size - 1 - i) with
              | Some b => poke (dst + i) b
              | None => undefined
              end).

Definition cstruct_store_le `{Platform} (dst : Z) (src : list byte) (size : Z) : M unit :=
  if CSTRUCT_IS_BIG_ENDIAN
  then cstruct_store_rev dst src size
  else cstruct_store_fw dst src size.

Definition cstruct_store_be `{Platform} (dst : Z) (src : list byte) (size : Z) : M unit :=
  if CSTRUCT_IS_BIG_ENDIAN
  then cstruct_store_fw dst src size
  else cstruct_store_rev dst src size.

(** [for (size_t i = 0; i < size; ++i) d[i] = src[i];] where [src] is the
    pointer at offset [p] of the source buffer; the result is the object
    [d]. *)
Definition cstruct_load_fw (buf : mem) (p : Z) (size : Z) : option (list byte) :=
  gather (Z.to_nat size) 0 (fun i => peek buf (p + i)).

(** [for (size_t i = 0; i < size; ++i) d[i] = src[size - 1 - i];] *)
Definition cstruct_load_rev (buf : mem) (p : Z) (size : Z) : option (list byte) :=
  gather (Z.to_nat size) 0 (fun i => peek buf (p + (size - 1 - i))).

Definition cstruct_load_le `{Platform} (buf : mem) (p : Z) (size : Z) : option (list byte) :=
  if CSTRUCT_IS_BIG_ENDIAN
  then cstruct_load_rev buf p size
  else cstruct_load_fw buf p size.

Definition cstruct_load_be `{Platform} (buf : mem) (p : Z) (size : Z) : option (list byte) :=
  if CSTRUCT_IS_BIG_ENDIAN
  then cstruct_load_fw buf p size
  else cstruct_load_rev buf p size.

(* ================================================================== *)
(** * Half-float converter *)

(** [((x & 0xFF) << 24) | ((x & 0xFF00) << 8) | ((x & 0xFF0000) >> 8) |
     ((x & 0xFF000000) >> 24)] *)
Definition swap32 (x : Z) : Z :=
  Z.lor (Z.lor (Z.lor (Z.shiftl (Z.land x 0xFF) 24)
                      (Z.shiftl (Z.land x 0xFF00) 8))
               (Z.shiftr (Z.land x 0xFF0000) 8))
        (Z.shiftr (Z.land x 0xFF000000) 24).

Definition uint16 (x : Z) : Z := x mod 2 ^ 16.

Definition uint32 (x : Z) : Z := x mod 2 ^ 32.

(** [static uint16_t cstruct_float_to_half(float f)]; [f] is given by its
    binary32 bit pattern, which is what [in.u] reads from the union. *)
Definition cstruct_float_to_half `{Platform} (f : Z) : Z :=
  let bits := if CSTRUCT_IS_BIG_ENDIAN then swap32 f else f in
  let sign := Z.land (Z.shiftr bits 16) 0x8000 in
  let expo := Z.land (Z.shiftr bits 23) 0xFF - 127 + 15 in
  let frac := Z.land (Z.shiftr bits 13) 0x3FF in
  if expo <=? 0 then
    if expo <? -10 then uint16 sign
    else
      let frac := Z.lor (Z.land bits 0x7FFFFF) 0x800000 in
      let frac := Z.shiftr frac (1 - expo) in
      let frac := Z.shiftr (frac + 0x1000) 13 in
      uint16 (Z.lor sign frac)
  else if expo >=? 0x1F then
    if negb (Z.land bits 0x7FFFFF =? 0)
    then uint16 (Z.lor (Z.lor sign 0x7C00) (Z.land (Z.shiftr bits 13) 0x3FF))
    else uint16 (Z.lor sign 0x7C00)
  else uint16 (Z.lor (Z.lor sign (Z.shiftl expo 10)) frac).

(** [while ((frac & 0x00000400) == 0) { frac <<= 1; expo -= 1; }] on
    [uint32_t] variables.  The loop is entered with [0 < frac < 0x400] and
    leaves within ten rounds ([half_normalize_exits]); [fuel] bounds it. *)
Fixpoint half_normalize (fuel : nat) (frac expo : Z) : Z * Z :=
  match fuel with
  | O => (frac, expo)
  | S fuel' =>
      if Z.land frac 0x400 =? 0
      then half_normalize fuel' (uint32 (Z.shiftl frac 1)) (uint32 (expo - 1))
      else (frac, expo)
  end.

(** [static float cstruct_half_to_float(uint16_t h)]; the result is the
    binary32 bit pattern of the float returned. *)
Definition cstruct_half_to_float `{Platform} (h : Z) : Z :=
  let sign := Z.land (Z.shiftr h 15) 0x00000001 in
  let expo := Z.land (Z.shiftr h 10) 0x0000001F in
  let frac := Z.land h 0x000003FF in
  let f :=
    if expo =? 0 then
      if frac =? 0 then uint32 (Z.shiftl sign 31)
      else
        let '(frac, expo) := half_normalize 10 frac expo in
        let expo := uint32 (expo + 1) in
        let frac := Z.land frac 0x000003FF in
        Z.lor (Z.lor (uint32 (Z.shiftl sign 31))
                     (uint32 (Z.shiftl (uint32 (expo + (127 - 15))) 23)))
              (uint32 (Z.shiftl frac 13))
    else if expo =? 0x1F then
      Z.lor (Z.lor (uint32 (Z.shiftl sign 31)) (Z.shiftl 0xFF 23))
            (uint32 (Z.shiftl frac 13))
    else
      Z.lor (Z.lor (uint32 (Z.shiftl sign 31))
                   (uint32 (Z.shiftl (uint32 (expo + (127 - 15))) 23)))
            (uint32 (Z.shiftl frac 13)) in
  if CSTRUCT_IS_BIG_ENDIAN then swap32 f else f.

(* ================================================================== *)
(** * Format token parser *)

Inductive cstruct_type_t :=
| CSTRUCT_TYPE_INT8
| CSTRUCT_TYPE_UINT8
| CSTRUCT_TYPE_INT16
| CSTRUCT_TYPE_UINT16
| CSTRUCT_TYPE_INT32
| CSTRUCT_TYPE_UINT32
| CSTRUCT_TYPE_INT64
| CSTRUCT_TYPE_UINT64
| CSTRUCT_TYPE_INT128
| CSTRUCT_TYPE_UINT128
| CSTRUCT_TYPE_FLOAT16
| CSTRUCT_TYPE_FLOAT32
| CSTRUCT_TYPE_FLOAT64
| CSTRUCT_TYPE_PADDING
| CSTRUCT_TYPE_STRING.

Inductive cstruct_endian_t :=
| CSTRUCT_ENDIAN_LITTLE
| CSTRUCT_ENDIAN_BIG.

Record cstruct_token_t := {
  type : cstruct_type_t;
  endian : cstruct_endian_t;
  size : Z;
  count : Z
}.

(** [isdigit((unsigned char)c)] *)
Definition isdigit (c : ascii) : bool :=
  (48 <=? Z.of_N (N_of_ascii c)) && (Z.of_N (N_of_ascii c) <=? 57).

(** The inner loop of [parse_token]:
    [while (isdigit(p[0])) { ...; count = count * 10 + digit; p++; }],
    with [return NULL] ([None]) when the next digit would overflow. *)
Fixpoint parse_count `{Platform} (p : string) (count : Z) : option (Z * string) :=
  match p with
  | EmptyString => Some (count, p)
  | String c p' =>
      if isdigit c then
        let digit := Z.of_N (N_of_ascii c) - 48 in
        if (count >? CSTRUCT_DIV10_THRESHOLD)
           || ((count =? CSTRUCT_DIV10_THRESHOLD)
               && (digit >? CSTRUCT_DIV10_MAX_LAST_DIGIT))
        then None
        else parse_count p' (count * 10 + digit)
      else Some (count, p)
  end.

(** The [switch] of [parse_token]: the type and the element size of a
    type letter, and whether the count is the size ([s] and [x]). *)
Definition type_letter (c : ascii) : option (cstruct_type_t * Z * bool) :=
  match c with
  | "b"%char => Some (CSTRUCT_TYPE_INT8, 1, false)
  | "B"%char => Some (CSTRUCT_TYPE_UINT8, 1, false)
  | "h"%char => Some (CSTRUCT_TYPE_INT16, 2, false)
  | "H"%char => Some (CSTRUCT_TYPE_UINT16, 2, false)
  | "i"%char => Some (CSTRUCT_TYPE_INT32, 4, false)
  | "I"%char => Some (CSTRUCT_TYPE_UINT32, 4, false)
  | "q"%char => Some (CSTRUCT_TYPE_INT64, 8, false)
  | "Q"%char => Some (CSTRUCT_TYPE_UINT64, 8, false)
  | "t"%char => Some (CSTRUCT_TYPE_INT128, 16, false)
  | "T"%char => Some (CSTRUCT_TYPE_UINT128, 16, false)
  | "e"%char => Some (CSTRUCT_TYPE_FLOAT16, 2, false)
  | "f"%char => Some (CSTRUCT_TYPE_FLOAT32, 4, false)
  | "d"%char => Some (CSTRUCT_TYPE_FLOAT64, 8, false)
  | "s"%char => Some (CSTRUCT_TYPE_STRING, 0, true)
  | "x"%char => Some (CSTRUCT_TYPE_PADDING, 0, true)
  | _ => None
  end.

(** The repeat count of [parse_token]: [tok_out->count = 1], replaced by
    the decimal number at [p] when there is one, [0] counting as [1]. *)
Definition parse_repeat `{Platform} (p : string) : option (Z * string) :=
  match p with
  | EmptyString => Some (1, p)
  | String c _ =>
      if isdigit c then
        match parse_count p 0 with
        | Some (count, q) => Some ((if count =? 0 then 1 else count), q)
        | None => None
        end
      else Some (1, p)
  end.

(** The [switch] of [parse_token] on the type letter at [p], which closes
    the token; the end of the string and any other character give
    [NULL]. *)
Definition parse_type (p : string) (tok_count : Z) (current_endian : cstruct_endian_t)
  : option (string * cstruct_token_t * cstruct_endian_t) :=
  match p with
  | EmptyString => None
  | String t p' =>
      match type_letter t with
      | Some (ty, sz, false) =>
          Some (p', {| type := ty; endian := current_endian;
                       size := sz; count := tok_count |},
                current_endian)
      | Some (ty, _, true) =>
          Some (p', {| type := ty; endian := current_endian;
                       size := tok_count; count := 1 |},
                current_endian)
      | None => None
      end
  end.

(** [static const char *parse_token(const char *fmt_in, cstruct_token_t
    *tok_out, cstruct_endian_t *current_endian)].  The format is the
    characters before the terminating NUL.  The result is [None] for
    [NULL], else the position after the token, the token, and the running
    endianness.  The outer [while] skips the endianness markers; it is
    left, with [NULL], at the end of the string. *)
Fixpoint parse_token `{Platform} (p : string) (current_endian : cstruct_endian_t)
  : option (string * cstruct_token_t * cstruct_endian_t) :=
  match p with
  | EmptyString => None
  | String c p' =>
      if Ascii.eqb c "<" then parse_token p' CSTRUCT_ENDIAN_LITTLE
      else if Ascii.eqb c ">" then parse_token p' CSTRUCT_ENDIAN_BIG
      else
        match parse_repeat p with
        | Some (tok_count, q) => parse_type q tok_count current_endian
        | None => None
        end
  end.

(* ================================================================== *)
(** * Per-type pack primitives

    Each takes the position [dst] in the buffer and returns the position
    after the bytes it wrote.  A value passed by value is an integer, or
    the bit pattern of a floating-point number. *)

Definition cstruct_pack_padding (dst : Z) (size : Z) : Z := dst + size.

Definition cstruct_pack_int8 (dst : Z) (value : Z) : M Z :=
  _ <- poke dst (byte.of_Z (to_unsigned 8 value)) ;; ret (dst + 1).

Definition cstruct_pack_uint8 (dst : Z) (value : Z) : M Z :=
  _ <- poke dst (byte.of_Z value) ;; ret (dst + 1).

Definition cstruct_pack_int16_le `{Platform} (dst : Z) (value : Z) : M Z :=
  _ <- cstruct_store_le dst (object 2 value) 2 ;; ret (dst + 2).

Definition cstruct_pack_int16_be `{Platform} (dst : Z) (value : Z) : M Z :=
  _ <- cstruct_store_be dst (object 2 value) 2 ;; ret (dst + 2).

Definition cstruct_pack_uint16_le `{Platform} (dst : Z) (value : Z) : M Z :=
  _ <- cstruct_store_le dst (object 2 value) 2 ;; ret (dst + 2).

Definition cstruct_pack_uint16_be `{Platform} (dst : Z) (value : Z) : M Z :=
  _ <- cstruct_store_be dst (object 2 value) 2 ;; ret (dst + 2).

Definition cstruct_pack_int32_le `{Platform} (dst : Z) (value : Z) : M Z :=
  _ <- cstruct_store_le dst (object 4 value) 4 ;; ret (dst + 4).

Definition cstruct_pack_int32_be `{Platform} (dst : Z) (value : Z) : M Z :=
  _ <- cstruct_store_be dst (object 4 value) 4 ;; ret (dst + 4).

Definition cstruct_pack_uint32_le `{Platform} (dst : Z) (value : Z) : M Z :=
  _ <- cstruct_store_le dst (object 4 value) 4 ;; ret (dst + 4).

Definition cstruct_pack_uint32_be `{Platform} (dst : Z) (value : Z) : M Z :=
  _ <- cstruct_store_be dst (object 4 value) 4 ;; ret (dst + 4).

Definition cstruct_pack_int64_le `{Platform} (dst : Z) (value : Z) : M Z :=
  _ <- cstruct_store_le dst (object 8 value) 8 ;; ret (dst + 8).

Definition cstruct_pack_int64_be `{Platform} (dst : Z) (value : Z) : M Z :=
  _ <- cstruct_store_be dst (object 8 value) 8 ;; ret (dst + 8).

Definition cstruct_pack_uint64_le `{Platform} (dst : Z) (value : Z) : M Z :=
  _ <- cstruct_store_le dst (object 8 value) 8 ;; ret (dst + 8).

Definition cstruct_pack_uint64_be `{Platform} (dst : Z) (value : Z) : M Z :=
  _ <- cstruct_store_be dst (object 8 value) 8 ;; ret (dst + 8).

(** The 128-bit primitives take a pointer [value] to the 16 bytes. *)

Definition cstruct_pack_int128_le `{Platform} (dst : Z) (value : list byte) : M Z :=
  _ <- cstruct_store_le dst value 16 ;; ret (dst + 16).

Definition cstruct_pack_int128_be `{Platform} (dst : Z) (value : list byte) : M Z :=
  _ <- cstruct_store_be dst value 16 ;; ret (dst + 16).

Definition cstruct_pack_uint128_le `{Platform} (dst : Z) (value : list byte) : M Z :=
  _ <- cstruct_store_le dst value 16 ;; ret (dst + 16).

Definition cstruct_pack_uint128_be `{Platform} (dst : Z) (value : list byte) : M Z :=
  _ <- cstruct_store_be dst value 16 ;; ret (dst + 16).

Definition cstruct_pack_float16_le `{Platform} (dst : Z) (value : Z) : M Z :=
  let half := cstruct_float_to_half value in
  _ <- cstruct_store_le dst (object 2 half) 2 ;; ret (dst + 2).

Definition cstruct_pack_float16_be `{Platform} (dst : Z) (value : Z) : M Z :=
  let half := cstruct_float_to_half value in
  _ <- cstruct_store_be dst (object 2 half) 2 ;; ret (dst + 2).

Definition cstruct_pack_float32_le `{Platform} (dst : Z) (value : Z) : M Z :=
  _ <- cstruct_store_le dst (object 4 value) 4 ;; ret (dst + 4).

Definition cstruct_pack_float32_be `{Platform} (dst : Z) (value : Z) : M Z :=
  _ <- cstruct_store_be dst (object 4 value) 4 ;; ret (dst + 4).

Definition cstruct_pack_float64_le `{Platform} (dst : Z) (value : Z) : M Z :=
  _ <- cstruct_store_le dst (object 8 value) 8 ;; ret (dst + 8).

Definition cstruct_pack_float64_be `{Platform} (dst : Z) (value : Z) : M Z :=
  _ <- cstruct_store_be dst (object 8 value) 8 ;; ret (dst + 8).

(** [void *cstruct_pack_string(void *dst, const char *value, size_t size)] *)
Definition cstruct_pack_string (dst : Z) (value : list byte) (size : Z) : M Z :=
  match strlen value with
  | None => undefined
  | Some len =>
      let copy_len := if len <? size then len else size in
      _ <- memcpy dst value copy_len ;;
      _ <- (if copy_len <? size
            then memset (dst + copy_len) 0 (size - copy_len)
            else ret tt) ;;
      ret (dst + size)
  end.

(* ================================================================== *)
(** * Per-type unpack primitives

    Each reads the source buffer [buf] at position [src] and returns the
    object it stored through the pointer [value], with the position after
    the bytes it read; [None] when it reads outside the buffer. *)

Definition cstruct_unpack_int8 (buf : mem) (src : Z) : option (list byte * Z) :=
  match peek buf src with
  | Some b => Some ([b], src + 1)
  | None => None
  end.

Definition cstruct_unpack_uint8 (buf : mem) (src : Z) : option (list byte * Z) :=
  match peek buf src with
  | Some b => Some ([b], src + 1)
  | None => None
  end.

Definition cstruct_unpack_int16_le `{Platform} (buf : mem) (src : Z) : option (list byte * Z) :=
  match cstruct_load_le buf src 2 with
  | Some value => Some (value, src + 2)
  | None => None
  end.

Definition cstruct_unpack_int16_be `{Platform} (buf : mem) (src : Z) : option (list byte * Z) :=
  match cstruct_load_be buf src 2 with
  | Some value => Some (value, src + 2)
  | None => None
  end.

Definition cstruct_unpack_uint16_le `{Platform} (buf : mem) (src : Z) : option (list byte * Z) :=
  match cstruct_load_le buf src 2 with
  | Some value => Some (value, src + 2)
  | None => None
  end.

Definition cstruct_unpack_uint16_be `{Platform} (buf : mem) (src : Z) : option (list byte * Z) :=
  match cstruct_load_be buf src 2 with
  | Some value => Some (value, src + 2)
  | None => None
  end.

Definition cstruct_unpack_int32_le `{Platform} (buf : mem) (src : Z) : option (list byte * Z) :=
  match cstruct_load_le buf src 4 with
  | Some value => Some (value, src + 4)
  | None => None
  end.

Definition cstruct_unpack_int32_be `{Platform} (buf : mem) (src : Z) : option (list byte * Z) :=
  match cstruct_load_be buf src 4 with
  | Some value => Some (value, src + 4)
  | None => None
  end.

Definition cstruct_unpack_uint32_le `{Platform} (buf : mem) (src : Z) : option (list byte * Z) :=
  match cstruct_load_le buf src 4 with
  | Some value => Some (value, src + 4)
  | None => None
  end.

Definition cstruct_unpack_uint32_be `{Platform} (buf : mem) (src : Z) : option (list byte * Z) :=
  match cstruct_load_be buf src 4 with
  | Some value => Some (value, src + 4)
  | None => None
  end.

Definition cstruct_unpack_int64_le `{Platform} (buf : mem) (src : Z) : option (list byte * Z) :=
  match cstruct_load_le buf src 8 with
  | Some value => Some (value, src + 8)
  | None => None
  end.

Definition cstruct_unpack_int64_be `{Platform} (buf : mem) (src : Z) : option (list byte * Z) :=
  match cstruct_load_be buf src 8 with
  | Some value => Some (value, src + 8)
  | None => None
  end.

Definition cstruct_unpack_uint64_le `{Platform} (buf : mem) (src : Z) : option (list byte * Z) :=
  match cstruct_load_le buf src 8 with
  | Some value => Some (value, src + 8)
  | None => None
  end.

Definition cstruct_unpack_uint64_be `{Platform} (buf : mem) (src : Z) : option (list byte * Z) :=
  match cstruct_load_be buf src 8 with
  | Some value => Some (value, src + 8)
  | None => None
  end.

Definition cstruct_unpack_int128_le `{Platform} (buf : mem) (src : Z) : option (list byte * Z) :=
  match cstruct_load_le buf src 16 with
  | Some value => Some (value, src + 16)
  | None => None
  end.

Definition cstruct_unpack_int128_be `{Platform} (buf : mem) (src : Z) : option (list byte * Z) :=
  match cstruct_load_be buf src 16 with
  | Some value => Some (value, src + 16)
  | None => None
  end.

Definition cstruct_unpack_uint128_le `{Platform} (buf : mem) (src : Z) : option (list byte * Z) :=
  cstruct_unpack_int128_le buf src.

Definition cstruct_unpack_uint128_be `{Platform} (buf : mem) (src : Z) : option (list byte * Z) :=
  cstruct_unpack_int128_be buf src.

Definition cstruct_unpack_float16_le `{Platform} (buf : mem) (src : Z) : option (list byte * Z) :=
  match cstruct_load_le buf src 2 with
  | Some half => Some (object 4 (cstruct_half_to_float (object_value half)), src + 2)
  | None => None
  end.

Definition cstruct_unpack_float16_be `{Platform} (buf : mem) (src : Z) : option (list byte * Z) :=
  match cstruct_load_be buf src 2 with
  | Some half => Some (object 4 (cstruct_half_to_float (object_value half)), src + 2)
  | None => None
  end.

Definition cstruct_unpack_float32_le `{Platform} (buf : mem) (src : Z) : option (list byte * Z) :=
  match cstruct_load_le buf src 4 with
  | Some value => Some (value, src + 4)
  | None => None
  end.

Definition cstruct_unpack_float32_be `{Platform} (buf : mem) (src : Z) : option (list byte * Z) :=
  match cstruct_load_be buf src 4 with
  | Some value => Some (value, src + 4)
  | None => None
  end.

Definition cstruct_unpack_float64_le `{Platform} (buf : mem) (src : Z) : option (list byte * Z) :=
  match cstruct_load_le buf src 8 with
  | Some value => Some (value, src + 8)
  | None => None
  end.

Definition cstruct_unpack_float64_be `{Platform} (buf : mem) (src : Z) : option (list byte * Z) :=
  match cstruct_load_be buf src 8 with
  | Some value => Some (value, src + 8)
  | None => None
  end.

(** [const void *cstruct_unpack_string(const void *src, char *value, size_t
    size)]: [memcpy(value, in, size); value[size] = 0]. *)
Definition cstruct_unpack_string (buf : mem) (src : Z) (size : Z) : option (list byte * Z) :=
  match gather (Z.to_nat size) 0 (fun i => peek buf (src + i)) with
  | Some value => Some (value ++ [Byte.x00], src + size)
  | None => None
  end.

(* ================================================================== *)
(** * Pack engine *)

(** One slot of the variable argument list. *)
Inductive arg :=
| arg_int (v : Z)             (* an integer, passed by value *)
| arg_fp (bits : Z)           (* a floating-point number, passed by value:
                                 the bit pattern of the [float] that
                                 [(float)va_arg(args, double)] yields for
                                 [e] and [f], of the [double] for [d] *)
| arg_ptr (obj : list byte).  (* a pointer to the first byte of [obj] *)

Definition int_arg (a : arg) : option Z :=
  match a with arg_int v => Some v | _ => None end.

Definition fp_arg (a : arg) : option Z :=
  match a with arg_fp bits => Some bits | _ => None end.

(** [arr[i]] for an array of elements of [esize] bytes: the value is read
    unsigned, the primitives use its object representation only. *)
Definition element `{Platform} (arr : list byte) (esize : nat) (i : Z) : option Z :=
  let obj := take esize (drop (Z.to_nat i * esize) arr) in
  if (0 <=? i) && (length obj =? esize)%nat then Some (object_value obj) else None.

(** [(const uint8_t * )arr + (i * 16)] *)
Definition block (arr : list byte) (i : Z) : option (list byte) :=
  if 0 <=? i then Some (drop (Z.to_nat (i * 16)) arr) else None.

(** [for (size_t i = 0; i < tok.count; i++) out = pack1(out, arr[i]);] *)
Fixpoint pack_array {A} (n : nat) (i : Z) (elem : Z -> option A)
    (pack1 : Z -> A -> M Z) (out : Z) : M Z :=
  match n with
  | O => ret out
  | S n' =>
      match elem i with
      | Some v => out' <- pack1 out v ;; pack_array n' (i + 1) elem pack1 out'
      | None => undefined
      end
  end.

(** The body the [switch] of [cstruct_pack_v] has for every numeric and
    floating-point type: an array through a pointer when [tok.count > 1],
    else one value, converted to the type with [cast]; [le] and [be] are
    the two primitives of the type. *)
Definition pack_scalar `{Platform} (tok : cstruct_token_t) (esize : nat)
    (by_value : arg -> option Z) (cast : Z -> Z) (le be : Z -> Z -> M Z)
    (out : Z) (args : list arg) : M (Z * list arg) :=
  let pack1 := match endian tok with
               | CSTRUCT_ENDIAN_LITTLE => le
               | CSTRUCT_ENDIAN_BIG => be
               end in
  if count tok >? 1 then
    match args with
    | arg_ptr arr :: args' =>
        out' <- pack_array (Z.to_nat (count tok)) 0 (element arr esize) pack1 out ;;
        ret (out', args')
    | _ => undefined
    end
  else
    match args with
    | a :: args' =>
        match by_value a with
        | Some v => out' <- pack1 out (cast v) ;; ret (out', args')
        | None => undefined
        end
    | [] => undefined
    end.

(** The same for the 128-bit types, always passed through a pointer. *)
Definition pack_block `{Platform} (tok : cstruct_token_t)
    (le be : Z -> list byte -> M Z) (out : Z) (args : list arg) : M (Z * list arg) :=
  let pack1 := match endian tok with
               | CSTRUCT_ENDIAN_LITTLE => le
               | CSTRUCT_ENDIAN_BIG => be
               end in
  match args with
  | arg_ptr arr :: args' =>
      if count tok >? 1 then
        out' <- pack_array (Z.to_nat (count tok)) 0 (block arr) pack1 out ;;
        ret (out', args')
      else
        out' <- pack1 out arr ;; ret (out', args')
  | _ => undefined
  end.

(** The [switch (tok.type)] of [cstruct_pack_v]: the new position and the
    arguments left. *)
Definition pack_token `{Platform} (tok : cstruct_token_t) (out : Z) (args : list arg)
  : M (Z * list arg) :=
  match type tok with
  | CSTRUCT_TYPE_PADDING =>
      ret (cstruct_pack_padding out (size_t (size tok * count tok)), args)
  | CSTRUCT_TYPE_STRING =>
      match args with
      | arg_ptr str :: args' =>
          out' <- cstruct_pack_string out str (size tok) ;; ret (out', args')
      | _ => undefined
      end
  | CSTRUCT_TYPE_FLOAT32 =>
      pack_scalar tok 4 fp_arg id cstruct_pack_float32_le cstruct_pack_float32_be out args
  | CSTRUCT_TYPE_FLOAT64 =>
      pack_scalar tok 8 fp_arg id cstruct_pack_float64_le cstruct_pack_float64_be out args
  | CSTRUCT_TYPE_FLOAT16 =>
      pack_scalar tok 4 fp_arg id cstruct_pack_float16_le cstruct_pack_float16_be out args
  | CSTRUCT_TYPE_INT8 =>
      pack_scalar tok 1 int_arg (to_signed 8) cstruct_pack_int8 cstruct_pack_int8 out args
  | CSTRUCT_TYPE_UINT8 =>
      pack_scalar tok 1 int_arg (to_unsigned 8) cstruct_pack_uint8 cstruct_pack_uint8 out args
  | CSTRUCT_TYPE_INT16 =>
      pack_scalar tok 2 int_arg (to_signed 16) cstruct_pack_int16_le cstruct_pack_int16_be out args
  | CSTRUCT_TYPE_UINT16 =>
      pack_scalar tok 2 int_arg (to_unsigned 16) cstruct_pack_uint16_le cstruct_pack_uint16_be out args
  | CSTRUCT_TYPE_INT32 =>
      pack_scalar tok 4 int_arg id cstruct_pack_int32_le cstruct_pack_int32_be out args
  | CSTRUCT_TYPE_UINT32 =>
      pack_scalar tok 4 int_arg id cstruct_pack_uint32_le cstruct_pack_uint32_be out args
  | CSTRUCT_TYPE_INT64 =>
      pack_scalar tok 8 int_arg id cstruct_pack_int64_le cstruct_pack_int64_be out args
  | CSTRUCT_TYPE_UINT64 =>
      pack_scalar tok 8 int_arg id cstruct_pack_uint64_le cstruct_pack_uint64_be out args
  | CSTRUCT_TYPE_INT128 =>
      pack_block tok cstruct_pack_int128_le cstruct_pack_int128_be out args
  | CSTRUCT_TYPE_UINT128 =>
      pack_block tok cstruct_pack_uint128_le cstruct_pack_uint128_be out args
  end.

(** The [while] loop of [cstruct_pack_v]; [end - out] is [dstlen - out]
    since [dst] is position [0].  Every round consumes a character of the
    format, so [fuel] is never used up when it starts at the length of the
    format ([pack_loop_fuel]).  The result is [None] for [NULL], else the
    position reached. *)
Fixpoint pack_loop `{Platform} (fuel : nat) (dstlen : Z) (out : Z)
    (current_endian : cstruct_endian_t) (next_fmt : string) (args : list arg)
  : M (option Z) :=
  match next_fmt with
  | EmptyString => ret (Some out)
  | String _ _ =>
      match fuel with
      | O => undefined
      | S fuel' =>
          match parse_token next_fmt current_endian with
          | None => ret None
          | Some (next_fmt', tok, current_endian') =>
              if size_t (dstlen - out) <? size_t (size tok * count tok)
              then ret None
              else
                r <- pack_token tok out args ;;
                pack_loop fuel' dstlen (fst r) current_endian' next_fmt' (snd r)
          end
      end
  end.

(** [void *cstruct_pack_v(void *dst, size_t dstlen, const char *fmt,
    va_list args)], run on the memory [dst] points to. *)
Definition cstruct_pack_v `{Platform} (dstlen : Z) (fmt : string) (args : list arg)
  : M (option Z) :=
  pack_loop (String.length fmt) dstlen 0 CSTRUCT_ENDIAN_LITTLE fmt args.

(** [void *cstruct_pack(void *dst, size_t dstlen, const char *fmt, ...)] *)
Definition cstruct_pack `{Platform} (dstlen : Z) (fmt : string) (args : list arg)
  : M (option Z) :=
  cstruct_pack_v dstlen fmt args.

(* ================================================================== *)
(** * Unpack engine

    Every argument of unpack is a pointer the engine writes through; the
    embedding returns, in the order of the arguments, the objects written
    (the destination's capacity is the caller's business). *)

(** [for (size_t i = 0; i < tok.count; i++) in = unpack1(in, &arr[i]);] *)
Fixpoint unpack_array (n : nat) (unpack1 : Z -> option (list byte * Z)) (in_ : Z)
  : option (list byte * Z) :=
  match n with
  | O => Some ([], in_)
  | S n' =>
      match unpack1 in_ with
      | Some (d, in') =>
          match unpack_array n' unpack1 in' with
          | Some (ds, in'') => Some (d ++ ds, in'')
          | None => None
          end
      | None => None
      end
  end.

(** The body the [switch] of [cstruct_unpack_v] has for every numeric and
    floating-point type. *)
Definition unpack_scalar (tok : cstruct_token_t)
    (le be : mem -> Z -> option (list byte * Z)) (buf : mem) (in_ : Z)
  : option (Z * list (list byte)) :=
  let unpack1 := match endian tok with
                 | CSTRUCT_ENDIAN_LITTLE => le buf
                 | CSTRUCT_ENDIAN_BIG => be buf
                 end in
  match (if count tok >? 1
         then unpack_array (Z.to_nat (count tok)) unpack1 in_
         else unpack1 in_) with
  | Some (d, in') => Some (in', [d])
  | None => None
  end.

(** The [switch (tok.type)] of [cstruct_unpack_v]: the new position and
    the object written, if any. *)
Definition unpack_token `{Platform} (tok : cstruct_token_t) (buf : mem) (in_ : Z)
  : option (Z * list (list byte)) :=
  match type tok with
  | CSTRUCT_TYPE_PADDING => Some (in_ + size_t (size tok * count tok), [])
  | CSTRUCT_TYPE_STRING =>
      match cstruct_unpack_string buf in_ (size tok) with
      | Some (str, in') => Some (in', [str])
      | None => None
      end
  | CSTRUCT_TYPE_FLOAT32 =>
      unpack_scalar tok cstruct_unpack_float32_le cstruct_unpack_float32_be buf in_
  | CSTRUCT_TYPE_FLOAT64 =>
      unpack_scalar tok cstruct_unpack_float64_le cstruct_unpack_float64_be buf in_
  | CSTRUCT_TYPE_FLOAT16 =>
      unpack_scalar tok cstruct_unpack_float16_le cstruct_unpack_float16_be buf in_
  | CSTRUCT_TYPE_INT8 =>
      unpack_scalar tok cstruct_unpack_int8 cstruct_unpack_int8 buf in_
  | CSTRUCT_TYPE_UINT8 =>
      unpack_scalar tok cstruct_unpack_uint8 cstruct_unpack_uint8 buf in_
  | CSTRUCT_TYPE_INT16 =>
      unpack_scalar tok cstruct_unpack_int16_le cstruct_unpack_int16_be buf in_
  | CSTRUCT_TYPE_UINT16 =>
      unpack_scalar tok cstruct_unpack_uint16_le cstruct_unpack_uint16_be buf in_
  | CSTRUCT_TYPE_INT32 =>
      unpack_scalar tok cstruct_unpack_int32_le cstruct_unpack_int32_be buf in_
  | CSTRUCT_TYPE_UINT32 =>
      unpack_scalar tok cstruct_unpack_uint32_le cstruct_unpack_uint32_be buf in_
  | CSTRUCT_TYPE_INT64 =>
      unpack_scalar tok cstruct_unpack_int64_le cstruct_unpack_int64_be buf in_
  | CSTRUCT_TYPE_UINT64 =>
      unpack_scalar tok cstruct_unpack_uint64_le cstruct_unpack_uint64_be buf in_
  | CSTRUCT_TYPE_INT128 =>
      unpack_scalar tok cstruct_unpack_int128_le cstruct_unpack_int128_be buf in_
  | CSTRUCT_TYPE_UINT128 =>
      unpack_scalar tok cstruct_unpack_uint128_le cstruct_unpack_uint128_be buf in_
  end.

(** The [while] loop of [cstruct_unpack_v]; [written] collects the objects
    written so far, which stay written when the call fails.  The outer
    [None] is undefined behaviour, the inner one [NULL]. *)
Fixpoint unpack_loop `{Platform} (fuel : nat) (buf : mem) (srclen : Z) (in_ : Z)
    (current_endian : cstruct_endian_t) (next_fmt : string)
    (written : list (list byte)) : option (option Z * list (list byte)) :=
  match next_fmt with
  | EmptyString => Some (Some in_, written)
  | String _ _ =>
      match fuel with
      | O => None
      | S fuel' =>
          match parse_token next_fmt current_endian with
          | None => Some (None, written)
          | Some (next_fmt', tok, current_endian') =>
              if size_t (srclen - in_) <? size_t (size tok * count tok)
              then Some (None, written)
              else
                match unpack_token tok buf in_ with
                | Some (in', ds) =>
                    unpack_loop fuel' buf srclen in' current_endian' next_fmt'
                                (written ++ ds)
                | None => None
                end
          end
      end
  end.

(** [const void *cstruct_unpack_v(const void *src, size_t srclen, const
    char *fmt, va_list args)] on the source buffer [src]. *)
Definition cstruct_unpack_v `{Platform} (src : mem) (srclen : Z) (fmt : string)
  : option (option Z * list (list byte)) :=
  unpack_loop (String.length fmt) src srclen 0 CSTRUCT_ENDIAN_LITTLE fmt [].

(** [const void *cstruct_unpack(const void *src, size_t srclen, const char
    *fmt, ...)] *)
Definition cstruct_unpack `{Platform} (src : mem) (srclen : Z) (fmt : string)
  : option (option Z * list (list byte)) :=
  cstruct_unpack_v src srclen fmt.

(* ================================================================== *)
(** * Field locator *)

(** The [while] loop of [cstruct_get_ptr]. *)
Fixpoint get_ptr_loop `{Platform} (fuel : nat) (srclen : Z) (in_ : Z)
    (current_endian : cstruct_endian_t) (next_fmt : string)
    (index current_index : Z) : option Z :=
  match next_fmt with
  | EmptyString => None
  | String _ _ =>
      match fuel with
      | O => None
      | S fuel' =>
          match parse_token next_fmt current_endian with
          | None => None
          | Some (next_fmt', tok, current_endian') =>
              if size_t (srclen - in_) <? size tok then None
              else if current_index =? index then Some in_
              else get_ptr_loop fuel' srclen (in_ + size tok) current_endian'
                                next_fmt' index (size_t (current_index + 1))
          end
      end
  end.

(** [const void *cstruct_get_ptr(const void *src, size_t srclen, const char
    *fmt, size_t index)]: the buffer is not read, the result is the
    position of the field, [None] for [NULL]. *)
Definition cstruct_get_ptr `{Platform} (srclen : Z) (fmt : string) (index : Z)
  : option Z :=
  get_ptr_loop (String.length fmt) srclen 0 CSTRUCT_ENDIAN_LITTLE fmt index 0.

(* ================================================================== *)
(** * The token stream of a format *)

(** The tokens [parse_token] yields when it is driven over the whole
    format the way the three loops above drive it; [None] when one of the
    calls returns [NULL]. *)
Fixpoint tokens_loop `{Platform} (fuel : nat) (current_endian : cstruct_endian_t)
    (next_fmt : string) : option (list cstruct_token_t) :=
  match next_fmt with
  | EmptyString => Some []
  | String _ _ =>
      match fuel with
      | O => None
      | S fuel' =>
          match parse_token next_fmt current_endian with
          | None => None
          | Some (next_fmt', tok, current_endian') =>
              option_map (cons tok) (tokens_loop fuel' current_endian' next_fmt')
          end
      end
  end.

Definition tokens `{Platform} (fmt : string) : option (list cstruct_token_t) :=
  tokens_loop (String.length fmt) CSTRUCT_ENDIAN_LITTLE fmt.

(** The bytes a token stands for: [element_size * repeat_count]. *)
Definition token_bytes (tok : cstruct_token_t) : Z := size tok * count tok.

Definition total_bytes (toks : list cstruct_token_t) : Z :=
  fold_right (fun tok acc => token_bytes tok + acc) 0 toks.

(* ================================================================== *)
(** * Vocabulary of the statements *)

(** The buffer [m] with the bytes [bs] written at position [p]. *)
Definition splice (p : Z) (bs : list byte) (m : mem) : mem :=
  take (Z.to_nat p) m ++ bs ++ drop (Z.to_nat p + length bs) m.

(** The [n] bytes of the buffer [m] at position [p]. *)
Definition slice (p : Z) (n : nat) (m : mem) : list byte :=
  take n (drop (Z.to_nat p) m).

(** The bytes of [v] on the wire: [n] bytes in the order of the token. *)
Definition wire (e : cstruct_endian_t) (n : nat) (v : Z) : list byte :=
  match e with
  | CSTRUCT_ENDIAN_LITTLE => le_split n v
  | CSTRUCT_ENDIAN_BIG => rev (le_split n v)
  end.

(** [f i; f (i + 1); ...; f (i + n - 1)] *)
Fixpoint tabulate {A} (n : nat) (i : Z) (f : Z -> A) : list A :=
  match n with
  | O => []
  | S n' => f i :: tabulate n' (i + 1) f
  end.

(** The format of one token: an endianness marker and a type letter. *)
Definition marker (e : cstruct_endian_t) : ascii :=
  match e with
  | CSTRUCT_ENDIAN_LITTLE => "<"%char
  | CSTRUCT_ENDIAN_BIG => ">"%char
  end.

Definition letter (t : cstruct_type_t) : ascii :=
  match t with
  | CSTRUCT_TYPE_INT8 => "b"
  | CSTRUCT_TYPE_UINT8 => "B"
  | CSTRUCT_TYPE_INT16 => "h"
  | CSTRUCT_TYPE_UINT16 => "H"
  | CSTRUCT_TYPE_INT32 => "i"
  | CSTRUCT_TYPE_UINT32 => "I"
  | CSTRUCT_TYPE_INT64 => "q"
  | CSTRUCT_TYPE_UINT64 => "Q"
  | CSTRUCT_TYPE_INT128 => "t"
  | CSTRUCT_TYPE_UINT128 => "T"
  | CSTRUCT_TYPE_FLOAT16 => "e"
  | CSTRUCT_TYPE_FLOAT32 => "f"
  | CSTRUCT_TYPE_FLOAT64 => "d"
  | CSTRUCT_TYPE_PADDING => "x"
  | CSTRUCT_TYPE_STRING => "s"
  end%char.

Definition single_token (e : cstruct_endian_t) (t : cstruct_type_t) : string :=
  String (marker e) (String (letter t) EmptyString).


(** The element size of a type letter (0 for [s] and [x], whose size is
    the count). *)
Definition elem_size (t : cstruct_type_t) : nat :=
  match t with
  | CSTRUCT_TYPE_INT8 | CSTRUCT_TYPE_UINT8 => 1
  | CSTRUCT_TYPE_INT16 | CSTRUCT_TYPE_UINT16 | CSTRUCT_TYPE_FLOAT16 => 2
  | CSTRUCT_TYPE_INT32 | CSTRUCT_TYPE_UINT32 | CSTRUCT_TYPE_FLOAT32 => 4
  | CSTRUCT_TYPE_INT64 | CSTRUCT_TYPE_UINT64 | CSTRUCT_TYPE_FLOAT64 => 8
  | CSTRUCT_TYPE_INT128 | CSTRUCT_TYPE_UINT128 => 16
  | CSTRUCT_TYPE_PADDING | CSTRUCT_TYPE_STRING => 0
  end.

(** The size of the variable that holds one element in the caller's
    memory: a [float] for [e]. *)
Definition var_size (t : cstruct_type_t) : nat :=
  match t with
  | CSTRUCT_TYPE_FLOAT16 => 4
  | _ => elem_size t
  end.

(** The token of [single_token e t]. *)
Definition token_of (e : cstruct_endian_t) (t : cstruct_type_t) : cstruct_token_t :=
  {| type := t; endian := e; size := Z.of_nat (elem_size t); count := 1 |}.

(** An object in host order, put in / taken from the order of the token. *)
Definition host_to_wire `{Platform} (e : cstruct_endian_t) (obj : list byte) : list byte :=
  match e with
  | CSTRUCT_ENDIAN_LITTLE => if CSTRUCT_IS_BIG_ENDIAN then rev obj else obj
  | CSTRUCT_ENDIAN_BIG => if CSTRUCT_IS_BIG_ENDIAN then obj else rev obj
  end.

(** The types passed by value as an integer, as a floating-point number,
    and the types passed through a pointer to 16 bytes. *)
Definition is_integer (t : cstruct_type_t) : bool :=
  match t with
  | CSTRUCT_TYPE_INT8 | CSTRUCT_TYPE_UINT8 | CSTRUCT_TYPE_INT16
  | CSTRUCT_TYPE_UINT16 | CSTRUCT_TYPE_INT32 | CSTRUCT_TYPE_UINT32
  | CSTRUCT_TYPE_INT64 | CSTRUCT_TYPE_UINT64 => true
  | _ => false
  end.

Definition is_float (t : cstruct_type_t) : bool :=
  match t with
  | CSTRUCT_TYPE_FLOAT16 | CSTRUCT_TYPE_FLOAT32 | CSTRUCT_TYPE_FLOAT64 => true
  | _ => false
  end.

Definition is_block (t : cstruct_type_t) : bool :=
  match t with
  | CSTRUCT_TYPE_INT128 | CSTRUCT_TYPE_UINT128 => true
  | _ => false
  end.

Definition is_signed (t : cstruct_type_t) : bool :=
  match t with
  | CSTRUCT_TYPE_INT8 | CSTRUCT_TYPE_INT16 | CSTRUCT_TYPE_INT32
  | CSTRUCT_TYPE_INT64 | CSTRUCT_TYPE_INT128 => true
  | _ => false
  end.

(** The primitive the [switch] of [cstruct_pack_v] calls for a type passed
    by value and an endianness. *)
Definition pack_prim `{Platform} (t : cstruct_type_t) (e : cstruct_endian_t)
  : Z -> Z -> M Z :=
  match t, e with
  | CSTRUCT_TYPE_INT8, _ => cstruct_pack_int8
  | CSTRUCT_TYPE_UINT8, _ => cstruct_pack_uint8
  | CSTRUCT_TYPE_INT16, CSTRUCT_ENDIAN_LITTLE => cstruct_pack_int16_le
  | CSTRUCT_TYPE_INT16, CSTRUCT_ENDIAN_BIG => cstruct_pack_int16_be
  | CSTRUCT_TYPE_UINT16, CSTRUCT_ENDIAN_LITTLE => cstruct_pack_uint16_le
  | CSTRUCT_TYPE_UINT16, CSTRUCT_ENDIAN_BIG => cstruct_pack_uint16_be
  | CSTRUCT_TYPE_INT32, CSTRUCT_ENDIAN_LITTLE => cstruct_pack_int32_le
  | CSTRUCT_TYPE_INT32, CSTRUCT_ENDIAN_BIG => cstruct_pack_int32_be
  | CSTRUCT_TYPE_UINT32, CSTRUCT_ENDIAN_LITTLE => cstruct_pack_uint32_le
  | CSTRUCT_TYPE_UINT32, CSTRUCT_ENDIAN_BIG => cstruct_pack_uint32_be
  | CSTRUCT_TYPE_INT64, CSTRUCT_ENDIAN_LITTLE => cstruct_pack_int64_le
  | CSTRUCT_TYPE_INT64, CSTRUCT_ENDIAN_BIG => cstruct_pack_int64_be
  | CSTRUCT_TYPE_UINT64, CSTRUCT_ENDIAN_LITTLE => cstruct_pack_uint64_le
  | CSTRUCT_TYPE_UINT64, CSTRUCT_ENDIAN_BIG => cstruct_pack_uint64_be
  | CSTRUCT_TYPE_FLOAT16, CSTRUCT_ENDIAN_LITTLE => cstruct_pack_float16_le
  | CSTRUCT_TYPE_FLOAT16, CSTRUCT_ENDIAN_BIG => cstruct_pack_float16_be
  | CSTRUCT_TYPE_FLOAT32, CSTRUCT_ENDIAN_LITTLE => cstruct_pack_float32_le
  | CSTRUCT_TYPE_FLOAT32, CSTRUCT_ENDIAN_BIG => cstruct_pack_float32_be
  | CSTRUCT_TYPE_FLOAT64, CSTRUCT_ENDIAN_LITTLE => cstruct_pack_float64_le
  | CSTRUCT_TYPE_FLOAT64, CSTRUCT_ENDIAN_BIG => cstruct_pack_float64_be
  | _, _ => fun dst _ => ret dst
  end.

(** The same for the 128-bit types. *)
Definition pack_block_prim `{Platform} (t : cstruct_type_t) (e : cstruct_endian_t)
  : Z -> list byte -> M Z :=
  match t, e with
  | CSTRUCT_TYPE_INT128, CSTRUCT_ENDIAN_LITTLE => cstruct_pack_int128_le
  | CSTRUCT_TYPE_INT128, CSTRUCT_ENDIAN_BIG => cstruct_pack_int128_be
  | CSTRUCT_TYPE_UINT128, CSTRUCT_ENDIAN_LITTLE => cstruct_pack_uint128_le
  | CSTRUCT_TYPE_UINT128, CSTRUCT_ENDIAN_BIG => cstruct_pack_uint128_be
  | _, _ => fun dst _ => ret dst
  end.

(** The primitive the [switch] of [cstruct_unpack_v] calls. *)
Definition unpack_prim `{Platform} (t : cstruct_type_t) (e : cstruct_endian_t)
  : mem -> Z -> option (list byte * Z) :=
  match t, e with
  | CSTRUCT_TYPE_INT8, _ => cstruct_unpack_int8
  | CSTRUCT_TYPE_UINT8, _ => cstruct_unpack_uint8
  | CSTRUCT_TYPE_INT16, CSTRUCT_ENDIAN_LITTLE => cstruct_unpack_int16_le
  | CSTRUCT_TYPE_INT16, CSTRUCT_ENDIAN_BIG => cstruct_unpack_int16_be
  | CSTRUCT_TYPE_UINT16, CSTRUCT_ENDIAN_LITTLE => cstruct_unpack_uint16_le
  | CSTRUCT_TYPE_UINT16, CSTRUCT_ENDIAN_BIG => cstruct_unpack_uint16_be
  | CSTRUCT_TYPE_INT32, CSTRUCT_ENDIAN_LITTLE => cstruct_unpack_int32_le
  | CSTRUCT_TYPE_INT32, CSTRUCT_ENDIAN_BIG => cstruct_unpack_int32_be
  | CSTRUCT_TYPE_UINT32, CSTRUCT_ENDIAN_LITTLE => cstruct_unpack_uint32_le
  | CSTRUCT_TYPE_UINT32, CSTRUCT_ENDIAN_BIG => cstruct_unpack_uint32_be
  | CSTRUCT_TYPE_INT64, CSTRUCT_ENDIAN_LITTLE => cstruct_unpack_int64_le
  | CSTRUCT_TYPE_INT64, CSTRUCT_ENDIAN_BIG => cstruct_unpack_int64_be
  | CSTRUCT_TYPE_UINT64, CSTRUCT_ENDIAN_LITTLE => cstruct_unpack_uint64_le
  | CSTRUCT_TYPE_UINT64, CSTRUCT_ENDIAN_BIG => cstruct_unpack_uint64_be
  | CSTRUCT_TYPE_INT128, CSTRUCT_ENDIAN_LITTLE => cstruct_unpack_int128_le
  | CSTRUCT_TYPE_INT128, CSTRUCT_ENDIAN_BIG => cstruct_unpack_int128_be
  | CSTRUCT_TYPE_UINT128, CSTRUCT_ENDIAN_LITTLE => cstruct_unpack_uint128_le
  | CSTRUCT_TYPE_UINT128, CSTRUCT_ENDIAN_BIG => cstruct_unpack_uint128_be
  | CSTRUCT_TYPE_FLOAT16, CSTRUCT_ENDIAN_LITTLE => cstruct_unpack_float16_le
  | CSTRUCT_TYPE_FLOAT16, CSTRUCT_ENDIAN_BIG => cstruct_unpack_float16_be
  | CSTRUCT_TYPE_FLOAT32, CSTRUCT_ENDIAN_LITTLE => cstruct_unpack_float32_le
  | CSTRUCT_TYPE_FLOAT32, CSTRUCT_ENDIAN_BIG => cstruct_unpack_float32_be
  | CSTRUCT_TYPE_FLOAT64, CSTRUCT_ENDIAN_LITTLE => cstruct_unpack_float64_le
  | CSTRUCT_TYPE_FLOAT64, CSTRUCT_ENDIAN_BIG => cstruct_unpack_float64_be
  | _, _ => fun _ src => Some ([], src)
  end.

(** The conversion the engine applies to an argument passed by value. *)
Definition cast (t : cstruct_type_t) : Z -> Z :=
  match t with
  | CSTRUCT_TYPE_INT8 => to_signed 8
  | CSTRUCT_TYPE_UINT8 => to_unsigned 8
  | CSTRUCT_TYPE_INT16 => to_signed 16
  | CSTRUCT_TYPE_UINT16 => to_unsigned 16
  | _ => id
  end.

(** The bytes a pack primitive writes for the value [v]. *)
Definition encode `{Platform} (t : cstruct_type_t) (e : cstruct_endian_t) (v : Z)
  : list byte :=
  match t with
  | CSTRUCT_TYPE_FLOAT16 => wire e 2 (cstruct_float_to_half v)
  | _ => wire e (elem_size t) v
  end.

(** The object an unpack primitive stores for the bytes [bs] it read. *)
Definition decode `{Platform} (t : cstruct_type_t) (e : cstruct_endian_t)
    (bs : list byte) : list byte :=
  match t with
  | CSTRUCT_TYPE_FLOAT16 =>
      object 4 (cstruct_half_to_float (object_value (host_to_wire e bs)))
  | _ => host_to_wire e bs
  end.

(** A token of the parser: its sizes fit [size_t], the count is at least
    one, and [s] and [x] have count one. *)
Definition token_ok `{Platform} (tok : cstruct_token_t) : Prop :=
  1 <= count tok <= SIZE_MAX /\
  match type tok with
  | CSTRUCT_TYPE_PADDING | CSTRUCT_TYPE_STRING =>
      count tok = 1 /\ 1 <= size tok <= SIZE_MAX
  | t => size tok = Z.of_nat (elem_size t)
  end.

(** The loops of the three entry points, started in the middle of a
    format with enough fuel for what is left of it. *)
Definition pack_from `{Platform} (dstlen out : Z) (e : cstruct_endian_t)
    (fmt : string) (args : list arg) : M (option Z) :=
  pack_loop (String.length fmt) dstlen out e fmt args.

Definition unpack_from `{Platform} (buf : mem) (srclen in_ : Z) (e : cstruct_endian_t)
    (fmt : string) (written : list (list byte))
  : option (option Z * list (list byte)) :=
  unpack_loop (String.length fmt) buf srclen in_ e fmt written.

Definition get_ptr_from `{Platform} (srclen in_ : Z) (e : cstruct_endian_t)
    (fmt : string) (index current_index : Z) : option Z :=
  get_ptr_loop (String.length fmt) srclen in_ e fmt index current_index.

Definition tokens_from `{Platform} (e : cstruct_endian_t) (fmt : string)
  : option (list cstruct_token_t) :=
  tokens_loop (String.length fmt) e fmt.

(** The argument kind of a type passed by value. *)
Definition by_value (t : cstruct_type_t) : arg -> option Z :=
  if is_integer t then int_arg else fp_arg.

(** The binary32 pattern of the number (infinity, NaN) whose binary16
    pattern is [h]: the widening is exact, every binary16 number is a
    binary32 number.  A subnormal [frac * 2^-24] with leading bit [k] is
    the normal [2^(k-24) * (1 + (frac - 2^k) / 2^k)]. *)
Definition half_as_float (h : Z) : Z :=
  let sign := h / 2 ^ 15 in
  let expo := (h / 2 ^ 10) mod 2 ^ 5 in
  let frac := h mod 2 ^ 10 in
  sign * 2 ^ 31 +
  (if expo =? 31 then 255 * 2 ^ 23 + frac * 2 ^ 13
   else if expo =? 0 then
     if frac =? 0 then 0
     else (Z.log2 frac + 103) * 2 ^ 23 + (frac - 2 ^ Z.log2 frac) * 2 ^ (23 - Z.log2 frac)
   else (expo + 112) * 2 ^ 23 + frac * 2 ^ 13).

(** The range of an integer type. *)
Definition int_min (t : cstruct_type_t) : Z :=
  if is_signed t then - 2 ^ (8 * Z.of_nat (elem_size t) - 1) else 0.

Definition int_max (t : cstruct_type_t) : Z :=
  if is_signed t then 2 ^ (8 * Z.of_nat (elem_size t) - 1) - 1
  else 2 ^ (8 * Z.of_nat (elem_size t)) - 1.

(** [passes t a]: the argument [a] passes a value of the type [t] to
    pack: an integer of the range of [t]; any binary32 / binary64 pattern
    for [f] / [d]; a binary32 pattern that is exactly a binary16 number for
    [e]; a pointer to 16 bytes for [t] / [T]. *)
Definition passes (t : cstruct_type_t) (a : arg) : Prop :=
  match a with
  | arg_int v => is_integer t = true /\ int_min t <= v <= int_max t
  | arg_fp bits =>
      match t with
      | CSTRUCT_TYPE_FLOAT16 => exists h, 0 <= h < 2 ^ 16 /\ bits = half_as_float h
      | CSTRUCT_TYPE_FLOAT32 => 0 <= bits < 2 ^ 32
      | CSTRUCT_TYPE_FLOAT64 => 0 <= bits < 2 ^ 64
      | _ => False
      end
  | arg_ptr blk => is_block t = true /\ length blk = 16%nat
  end.

(** The value of the type [t] that the variable [obj] holds, as the
    argument that passes it. *)
Definition read_back `{Platform} (t : cstruct_type_t) (obj : list byte) : arg :=
  if is_block t then arg_ptr obj
  else if is_float t then arg_fp (object_value obj)
  else if is_signed t
       then arg_int (to_signed (8 * Z.of_nat (elem_size t)) (object_value obj))
       else arg_int (object_value obj).

(** [P] holds of all the patterns of [k] more bits after [prefix]. *)
Fixpoint all_bits (k : nat) (P : Z -> bool) (prefix : Z) : bool :=
  match k with
  | O => P prefix
  | S k' => all_bits k' P (2 * prefix) && all_bits k' P (2 * prefix + 1)
  end.

(** [P] holds of the 65536 binary16 patterns. *)
Definition all_halves (P : Z -> bool) : bool := all_bits 16 P 0.

(** A string of endianness markers only. *)
Fixpoint markers (s : string) : bool :=
  match s with
  | EmptyString => true
  | String c s' => (Ascii.eqb c "<" || Ascii.eqb c ">") && markers s'
  end.

(** The fields of a binary16 and of a binary32 pattern. *)
Definition half_sign (h : Z) : Z := Z.land (Z.shiftr h 15) 1.
Definition half_expo (h : Z) : Z := Z.land (Z.shiftr h 10) 0x1F.
Definition half_frac (h : Z) : Z := Z.land h 0x3FF.

Definition float_sign (f : Z) : Z := Z.land (Z.shiftr f 31) 1.
Definition float_expo (f : Z) : Z := Z.land (Z.shiftr f 23) 0xFF.
Definition float_frac (f : Z) : Z := Z.land f 0x7FFFFF.

(** NaN: the exponent field all ones and a fraction that is not zero;
    infinity: the exponent field all ones and the fraction zero. *)
Definition half_is_nan (h : Z) : Prop := half_expo h = 0x1F /\ half_frac h <> 0.
Definition half_is_inf (h : Z) : Prop := half_expo h = 0x1F /\ half_frac h = 0.
Definition float_is_nan (f : Z) : Prop := float_expo f = 0xFF /\ float_frac f <> 0.

(** Where [cstruct_get_ptr] puts field [k] of the tokens [toks]: after the
    sizes of the tokens before it, their counts not looked at. *)
Fixpoint field_offset (k : nat) (toks : list cstruct_token_t) : Z :=
  match k, toks with
  | S k', tok :: toks' => size tok + field_offset k' toks'
  | _, _ => 0
  end.

(** The tokens up to field [k] exist and, each put after the sizes of the
    ones before it, end within [srclen] bytes. *)
Fixpoint fields_fit (srclen in_ : Z) (k : nat) (toks : list cstruct_token_t) : Prop :=
  match toks with
  | [] => False
  | tok :: toks' =>
      in_ + size tok <= srclen /\
      match k with
      | O => True
      | S k' => fields_fit srclen (in_ + size tok) k' toks'
      end
  end.

(* ================================================================== *)
(** * Vocabulary of the format grammar *)

(** A string of decimal digits only. *)
Fixpoint digits (s : string) : bool :=
  match s with
  | EmptyString => true
  | String c s' => isdigit c && digits s'
  end.

(** The number the digits [s] denote after the digits that gave [acc]. *)
Fixpoint decimal (s : string) (acc : Z) : Z :=
  match s with
  | EmptyString => acc
  | String c s' => decimal s' (acc * 10 + (Z.of_N (N_of_ascii c) - 48))
  end.

(** The running endianness after the markers [mk]. *)
Fixpoint after_markers (mk : string) (e : cstruct_endian_t) : cstruct_endian_t :=
  match mk with
  | EmptyString => e
  | String c mk' =>
      after_markers mk' (if Ascii.eqb c ">" then CSTRUCT_ENDIAN_BIG
                         else CSTRUCT_ENDIAN_LITTLE)
  end.

(** The repeat count the digits [ds] give a token: none, or zero, is one. *)
Definition repeat_of (ds : string) : Z :=
  if decimal ds 0 =? 0 then 1 else decimal ds 0.

(** No endianness marker in the format. *)
Fixpoint no_marker (s : string) : bool :=
  match s with
  | EmptyString => true
  | String c s' => negb (Ascii.eqb c "<" || Ascii.eqb c ">") && no_marker s'
  end.

(* ================================================================== *)
(** * The numbers the patterns denote *)

(** The number a binary16 pattern with an exponent field below 31
    denotes, as a multiple of 2^-24: a subnormal is [frac * 2^-24], a
    normal number [(1 + frac / 2^10) * 2^(expo - 15)]. *)
Definition half_scaled (h : Z) : Z :=
  (if half_sign h =? 1 then -1 else 1)
  * (if half_expo h =? 0 then half_frac h
     else (2 ^ 10 + half_frac h) * 2 ^ (half_expo h - 1)).

(** The number a binary32 pattern with an exponent field below 255
    denotes, as a multiple of 2^-149: a subnormal is [frac * 2^-149], a
    normal number [(1 + frac / 2^23) * 2^(expo - 127)]. *)
Definition float_scaled (f : Z) : Z :=
  (if float_sign f =? 1 then -1 else 1)
  * (if float_expo f =? 0 then float_frac f
     else (2 ^ 23 + float_frac f) * 2 ^ (float_expo f - 1)).

(* ================================================================== *)
(** * Vocabulary of whole formats *)

(** The [n] elements of [esize] bytes of the array [arr]: element [i] is
    at [arr + i * esize]. *)
Definition chunks (esize n : nat) (arr : list byte) : list (list byte) :=
  map (fun i => take esize (drop (i * esize) arr)) (seq 0 n).

(** The [size] bytes of a string field: the characters of [s] before its
    NUL, cut after [size] of them, then zeros. *)
Definition string_field (size : Z) (s : list byte) : list byte :=
  match strlen s with
  | Some len => take (Z.to_nat (Z.min len size)) s
                ++ repeat Byte.x00 (Z.to_nat (size - Z.min len size))
  | None => []
  end.

(** The numeric tokens whose argument is a pointer: the 128-bit types,
    and every type with a repeat count above one. *)
Definition takes_pointer (tok : cstruct_token_t) : bool :=
  is_block (type tok) || (count tok >? 1).

(** [arg_ok tok a]: the argument [a] is one pack can use for [tok]: a
    terminated string for [s]; a pointer to an array of [count] elements
    (of 16 bytes, or of the size of the variable type) for a token that
    takes a pointer; else a value of the kind of the type. *)
Definition arg_ok (tok : cstruct_token_t) (a : arg) : bool :=
  match type tok with
  | CSTRUCT_TYPE_PADDING => false
  | CSTRUCT_TYPE_STRING =>
      match a with
      | arg_ptr s => match strlen s with Some _ => true | None => false end
      | _ => false
      end
  | t =>
      if takes_pointer tok then
        match a with
        | arg_ptr arr => (length arr =? Z.to_nat (count tok) * var_size t)%nat
        | _ => false
        end
      else match by_value t a with Some _ => true | None => false end
  end.

(** The arguments of a call, one for every token but the padding. *)
Fixpoint args_ok (toks : list cstruct_token_t) (args : list arg) : bool :=
  match toks with
  | [] => true
  | tok :: toks' =>
      match type tok, args with
      | CSTRUCT_TYPE_PADDING, _ => args_ok toks' args
      | _, a :: args' => arg_ok tok a && args_ok toks' args'
      | _, [] => false
      end
  end.

(** The wire bytes of an element given by its object in the caller's
    memory: the object in the order of the token; for [e], the binary16
    pattern of the [float]. *)
Definition encode_object `{Platform} (t : cstruct_type_t) (e : cstruct_endian_t)
    (obj : list byte) : list byte :=
  match t with
  | CSTRUCT_TYPE_FLOAT16 => wire e 2 (cstruct_float_to_half (object_value obj))
  | _ => host_to_wire e obj
  end.

(** The bytes pack writes for the token [tok] and the argument [a]. *)
Definition token_image `{Platform} (tok : cstruct_token_t) (a : arg) : list byte :=
  match type tok, a with
  | CSTRUCT_TYPE_PADDING, _ => []
  | CSTRUCT_TYPE_STRING, arg_ptr s => string_field (size tok) s
  | CSTRUCT_TYPE_STRING, _ => []
  | t, arg_ptr arr =>
      concat (map (encode_object t (endian tok))
                  (chunks (var_size t) (Z.to_nat (count tok)) arr))
  | t, arg_int v => encode t (endian tok) v
  | t, arg_fp v => encode t (endian tok) v
  end.

(** The buffer after pack wrote the tokens [toks] from position [pos]
    on: every token at the position after the tokens before it, the bytes
    of a padding token left as they are. *)
Fixpoint image `{Platform} (toks : list cstruct_token_t) (args : list arg)
    (pos : Z) (m : mem) : mem :=
  match toks with
  | [] => m
  | tok :: toks' =>
      match type tok, args with
      | CSTRUCT_TYPE_PADDING, _ => image toks' args (pos + token_bytes tok) m
      | _, a :: args' =>
          image toks' args' (pos + token_bytes tok) (splice pos (token_image tok a) m)
      | _, [] => m
      end
  end.

(** The object unpack stores for the token [tok] read at [pos]: the
    bytes and a NUL for a string, else the elements decoded one after the
    other. *)
Definition token_object `{Platform} (tok : cstruct_token_t) (buf : mem) (pos : Z)
  : list byte :=
  match type tok with
  | CSTRUCT_TYPE_STRING => slice pos (Z.to_nat (size tok)) buf ++ [Byte.x00]
  | t => concat (map (decode t (endian tok))
                     (chunks (elem_size t) (Z.to_nat (count tok))
                             (drop (Z.to_nat pos) buf)))
  end.

(** The objects unpack stores for the tokens [toks] read from [pos] on,
    in the order of the arguments. *)
Fixpoint objects `{Platform} (toks : list cstruct_token_t) (buf : mem) (pos : Z)
  : list (list byte) :=
  match toks with
  | [] => []
  | tok :: toks' =>
      match type tok with
      | CSTRUCT_TYPE_PADDING => objects toks' buf (pos + token_bytes tok)
      | _ => token_object tok buf pos :: objects toks' buf (pos + token_bytes tok)
      end
  end.

(** The number of tokens of [toks] that pack and unpack process from
    position [pos] in a buffer of [len] bytes: the tokens before the first
    one whose bytes do not fit what is left. *)
Fixpoint fitting (toks : list cstruct_token_t) (pos len : Z) : nat :=
  match toks with
  | [] => 0
  | tok :: toks' =>
      if pos + token_bytes tok <=? len
      then S (fitting toks' (pos + token_bytes tok) len)
      else 0
  end.




(** The index, among the arguments, of the argument of token [i]: the
    number of tokens before it that take one (all but the padding). *)
Fixpoint args_before (toks : list cstruct_token_t) (i : nat) : nat :=
  match i, toks with
  | S i', tok :: toks' =>
      match type tok with
      | CSTRUCT_TYPE_PADDING => args_before toks' i'
      | _ => S (args_before toks' i')
      end
  | _, _ => O
  end.

(** The running endianness after the tokens [toks], from [e]. *)
Fixpoint last_endian (e : cstruct_endian_t) (toks : list cstruct_token_t)
  : cstruct_endian_t :=
  match toks with
  | [] => e
  | tok :: toks' => last_endian (endian tok) toks'
  end.
(* ================================================================== *)
(** * Arithmetic of [size_t] *)

Lemma SIZE_MAX_pos `{Platform} : 0 < SIZE_MAX + 1.
Proof. pose proof SIZE_MAX_lower. lia. Qed.

Lemma size_t_small `{Platform} (x : Z) : 0 <= x <= SIZE_MAX -> size_t x = x.
Proof. intros Hx. unfold size_t. apply Z.mod_small. lia. Qed.

Lemma size_t_range `{Platform} (x : Z) : 0 <= size_t x <= SIZE_MAX.
Proof.
  unfold size_t. pose proof (Z.mod_pos_bound x (SIZE_MAX + 1) SIZE_MAX_pos). lia.
Qed.

(* ================================================================== *)
(** * Loops over the buffer *)

Lemma length_tabulate {A} (n : nat) (i : Z) (f : Z -> A) :
  length (tabulate n i f) = n.
Proof. revert i. induction n as [|n IH]; intros i; simpl; [reflexivity|]. now rewrite IH. Qed.

Lemma lookup_tabulate {A} (n : nat) (i : Z) (f : Z -> A) (k : nat) :
  (k < n)%nat -> tabulate n i f !! k = Some (f (i + Z.of_nat k)).
Proof.
  revert i k. induction n as [|n IH]; intros i k Hk; [lia|].
  destruct k as [|k]; simpl.
  - now rewrite Z.add_0_r.
  - rewrite IH by lia. do 2 f_equal. lia.
Qed.

Lemma tabulate_ext {A} (n : nat) (i : Z) (f g : Z -> A) :
  (forall j, i <= j < i + Z.of_nat n -> f j = g j) ->
  tabulate n i f = tabulate n i g.
Proof.
  revert i. induction n as [|n IH]; intros i Hfg; simpl; [reflexivity|].
  rewrite Hfg by lia. f_equal. apply IH. intros j Hj. apply Hfg. lia.
Qed.

Lemma length_splice (p : Z) (bs : list byte) (m : mem) :
  0 <= p -> p + Z.of_nat (length bs) <= Z.of_nat (length m) ->
  length (splice p bs m) = length m.
Proof.
  intros Hp Hlen. unfold splice.
  rewrite !length_app, length_take, length_drop. lia.
Qed.

Lemma splice_nil (p : Z) (m : mem) : splice p [] m = m.
Proof. unfold splice. simpl. rewrite Nat.add_0_r. apply take_drop. Qed.

Lemma splice_cons (p : Z) (b : byte) (bs : list byte) (m : mem) :
  0 <= p < Z.of_nat (length m) ->
  splice (p + 1) bs (<[Z.to_nat p := b]> m) = splice p (b :: bs) m.
Proof.
  intros Hp. unfold splice.
  replace (Z.to_nat (p + 1)) with (S (Z.to_nat p)) by lia.
  rewrite insert_take_drop by lia.
  assert (Hlt : (Z.to_nat p < length m)%nat) by lia.
  generalize dependent (Z.to_nat p). intros i Hlt.
  assert (Hi : length (take i m ++ [b]) = S i).
  { rewrite length_app, length_take. simpl. lia. }
  change (take i m ++ b :: drop (S i) m) with (take i m ++ [b] ++ drop (S i) m).
  rewrite (app_assoc (take i m) [b]).
  rewrite take_app_length' by (symmetry; exact Hi).
  rewrite <- Hi at 1. rewrite drop_app_add, drop_drop.
  rewrite <- app_assoc. simpl. repeat f_equal. lia.
Qed.

Lemma for_loop_poke (dst : Z) (f : Z -> byte) (body : Z -> M unit)
    (n : nat) (i : Z) (m : mem) :
  0 <= dst + i -> dst + i + Z.of_nat n <= Z.of_nat (length m) ->
  (forall j m', i <= j < i + Z.of_nat n -> body j m' = poke (dst + j) (f j) m') ->
  for_loop n i body m = Some (tt, splice (dst + i) (tabulate n i f) m).
Proof.
  revert i m. induction n as [|n IH]; intros i m Hlo Hhi Hbody; simpl.
  - now rewrite splice_nil.
  - unfold bind. rewrite Hbody by lia. unfold poke.
    replace ((0 <=? dst + i) && (dst + i <? Z.of_nat (length m))) with true
      by (symmetry; apply andb_true_iff; split; [apply Z.leb_le|apply Z.ltb_lt]; lia).
    rewrite IH.
    + f_equal. f_equal. replace (dst + (i + 1)) with (dst + i + 1) by lia.
      apply splice_cons. lia.
    + lia.
    + rewrite length_insert. lia.
    + intros j m' Hj. apply Hbody. lia.
Qed.

Lemma gather_tabulate (rd : Z -> option byte) (f : Z -> byte) (n : nat) (i : Z) :
  (forall j, i <= j < i + Z.of_nat n -> rd j = Some (f j)) ->
  gather n i rd = Some (tabulate n i f).
Proof.
  revert i. induction n as [|n IH]; intros i Hrd; simpl; [reflexivity|].
  rewrite Hrd by lia. rewrite IH; [reflexivity|].
  intros j Hj. apply Hrd. lia.
Qed.

Lemma lookup_nth (obj : list byte) (k : nat) (d : byte) :
  (k < length obj)%nat -> obj !! k = Some (nth k obj d).
Proof.
  intros Hk. destruct (nth_lookup_or_length obj k d) as [Hx|Hx]; [exact Hx|lia].
Qed.

Lemma peek_Some (obj : list byte) (i : Z) (d : byte) :
  0 <= i < Z.of_nat (length obj) ->
  peek obj i = Some (nth (Z.to_nat i) obj d).
Proof.
  intros Hi. unfold peek.
  replace (0 <=? i) with true by (symmetry; apply Z.leb_le; lia).
  apply lookup_nth. lia.
Qed.

Lemma tabulate_nth (obj : list byte) (d : byte) :
  tabulate (length obj) 0 (fun j => nth (Z.to_nat j) obj d) = obj.
Proof.
  apply list_eq. intros k.
  destruct (decide (k < length obj)%nat) as [Hk|Hk].
  - rewrite lookup_tabulate by lia. rewrite Z.add_0_l.
    rewrite Nat2Z.id. symmetry. now apply lookup_nth.
  - rewrite !lookup_ge_None_2; [reflexivity|lia|rewrite length_tabulate; lia].
Qed.

Lemma tabulate_nth_rev (obj : list byte) (d : byte) :
  tabulate (length obj) 0
    (fun j => nth (Z.to_nat (Z.of_nat (length obj) - 1 - j)) obj d) = rev obj.
Proof.
  apply list_eq. intros k.
  destruct (decide (k < length obj)%nat) as [Hk|Hk].
  - rewrite lookup_tabulate by lia. rewrite Z.add_0_l.
    replace (Z.to_nat (Z.of_nat (length obj) - 1 - Z.of_nat k))
      with (length obj - S k)%nat by lia.
    rewrite (lookup_nth (rev obj) k d) by (rewrite length_rev; lia).
    f_equal. rewrite rev_nth by lia. reflexivity.
  - rewrite !lookup_ge_None_2; [reflexivity|rewrite length_rev; lia|rewrite length_tabulate; lia].
Qed.

(* ================================================================== *)
(** * The endian codec writes and reads whole blocks *)

Lemma andb_range (p n : Z) : 0 <= p < n -> (0 <=? p) && (p <? n) = true.
Proof. intros Hp. apply andb_true_iff. split; [apply Z.leb_le|apply Z.ltb_lt]; lia. Qed.

Lemma cstruct_store_fw_spec (dst : Z) (src : list byte) (size : Z) (m : mem) :
  size = Z.of_nat (length src) ->
  0 <= dst -> dst + size <= Z.of_nat (length m) ->
  cstruct_store_fw dst src size m = Some (tt, splice dst src m).
Proof.
  intros -> Hlo Hhi. unfold cstruct_store_fw. rewrite Nat2Z.id.
  rewrite (for_loop_poke dst (fun j => nth (Z.to_nat j) src Byte.x00)).
  - rewrite Z.add_0_r, tabulate_nth. reflexivity.
  - lia.
  - lia.
  - intros j m' Hj. rewrite (peek_Some src j Byte.x00) by lia. reflexivity.
Qed.

Lemma cstruct_store_rev_spec (dst : Z) (src : list byte) (size : Z) (m : mem) :
  size = Z.of_nat (length src) ->
  0 <= dst -> dst + size <= Z.of_nat (length m) ->
  cstruct_store_rev dst src size m = Some (tt, splice dst (rev src) m).
Proof.
  intros -> Hlo Hhi. unfold cstruct_store_rev. rewrite Nat2Z.id.
  rewrite (for_loop_poke dst
             (fun j => nth (Z.to_nat (Z.of_nat (length src) - 1 - j)) src Byte.x00)).
  - rewrite Z.add_0_r, tabulate_nth_rev. reflexivity.
  - lia.
  - lia.
  - intros j m' Hj.
    rewrite (peek_Some src (Z.of_nat (length src) - 1 - j) Byte.x00) by lia.
    reflexivity.
Qed.

Lemma memcpy_spec (dst : Z) (src : list byte) (n : Z) (m : mem) :
  0 <= n <= Z.of_nat (length src) ->
  0 <= dst -> dst + n <= Z.of_nat (length m) ->
  memcpy dst src n m = Some (tt, splice dst (take (Z.to_nat n) src) m).
Proof.
  intros Hn Hlo Hhi. unfold memcpy.
  rewrite (for_loop_poke dst (fun j => nth (Z.to_nat j) src Byte.x00)).
  - rewrite Z.add_0_r. do 3 f_equal.
    apply list_eq. intros k.
    destruct (decide (k < Z.to_nat n)%nat) as [Hk|Hk].
    + rewrite lookup_tabulate, lookup_take_lt by lia.
      rewrite Z.add_0_l, Nat2Z.id. symmetry. apply lookup_nth. lia.
    + rewrite lookup_take_ge by lia.
      apply lookup_ge_None_2. rewrite length_tabulate. lia.
  - lia.
  - lia.
  - intros j m' Hj. rewrite (peek_Some src j Byte.x00) by lia. reflexivity.
Qed.

Lemma tabulate_const {A} (n : nat) (i : Z) (a : A) :
  tabulate n i (fun _ => a) = repeat a n.
Proof. revert i. induction n as [|n IH]; intros i; simpl; [reflexivity|]. now rewrite IH. Qed.

Lemma memset_spec (dst : Z) (c : Z) (n : Z) (m : mem) :
  0 <= dst -> 0 <= n -> dst + n <= Z.of_nat (length m) ->
  memset dst c n m = Some (tt, splice dst (repeat (byte.of_Z c) (Z.to_nat n)) m).
Proof.
  intros Hlo Hn Hhi. unfold memset.
  rewrite (for_loop_poke dst (fun _ => byte.of_Z c)).
  - now rewrite Z.add_0_r, tabulate_const.
  - lia.
  - lia.
  - reflexivity.
Qed.

Lemma gather_slice (buf : mem) (p : Z) (n : nat) :
  0 <= p -> p + Z.of_nat n <= Z.of_nat (length buf) ->
  gather n 0 (fun i => peek buf (p + i)) = Some (slice p n buf).
Proof.
  intros Hlo Hhi.
  rewrite (gather_tabulate _ (fun j => nth (Z.to_nat (p + j)) buf Byte.x00)).
  - f_equal. unfold slice. apply list_eq. intros k.
    destruct (decide (k < n)%nat) as [Hk|Hk].
    + rewrite lookup_tabulate, lookup_take_lt, lookup_drop by lia.
      rewrite Z.add_0_l. replace (Z.to_nat (p + Z.of_nat k)) with (Z.to_nat p + k)%nat by lia.
      symmetry. apply lookup_nth. lia.
    + rewrite lookup_take_ge by lia.
      apply lookup_ge_None_2. rewrite length_tabulate. lia.
  - intros j Hj. apply peek_Some. lia.
Qed.

Lemma length_slice (p : Z) (n : nat) (m : mem) :
  0 <= p -> p + Z.of_nat n <= Z.of_nat (length m) -> length (slice p n m) = n.
Proof. intros Hlo Hhi. unfold slice. rewrite length_take, length_drop. lia. Qed.

Lemma cstruct_load_fw_spec (buf : mem) (p : Z) (size : Z) :
  0 <= size -> 0 <= p -> p + size <= Z.of_nat (length buf) ->
  cstruct_load_fw buf p size = Some (slice p (Z.to_nat size) buf).
Proof. intros Hs Hlo Hhi. unfold cstruct_load_fw. apply gather_slice; lia. Qed.

Lemma cstruct_load_rev_spec (buf : mem) (p : Z) (size : Z) :
  0 <= size -> 0 <= p -> p + size <= Z.of_nat (length buf) ->
  cstruct_load_rev buf p size = Some (rev (slice p (Z.to_nat size) buf)).
Proof.
  intros Hs Hlo Hhi. unfold cstruct_load_rev.
  rewrite (gather_tabulate _
             (fun j => nth (Z.to_nat (Z.of_nat (length (slice p (Z.to_nat size) buf)) - 1 - j))
                           (slice p (Z.to_nat size) buf) Byte.x00)).
  - f_equal. rewrite <- (length_slice p (Z.to_nat size) buf) at 1 by lia.
    apply tabulate_nth_rev.
  - intros j Hj. rewrite length_slice by lia.
    rewrite (peek_Some buf (p + (size - 1 - j)) Byte.x00) by lia.
    f_equal. unfold slice.
    rewrite (nth_lookup (take _ _)), lookup_take_lt, lookup_drop by lia.
    rewrite <- nth_lookup. f_equal. lia.
Qed.

Lemma slice_splice (p : Z) (bs : list byte) (m : mem) :
  0 <= p -> p + Z.of_nat (length bs) <= Z.of_nat (length m) ->
  slice p (length bs) (splice p bs m) = bs.
Proof.
  intros Hlo Hhi. unfold slice, splice.
  rewrite drop_app_length' by (rewrite length_take; lia).
  now rewrite take_app_length.
Qed.

(* ================================================================== *)
(** * Objects and the order of the wire *)

Lemma length_object `{Platform} (n : nat) (v : Z) : length (object n v) = n.
Proof.
  unfold object. destruct CSTRUCT_IS_BIG_ENDIAN;
    rewrite ?length_rev; apply length_le_split.
Qed.

Lemma length_wire (e : cstruct_endian_t) (n : nat) (v : Z) : length (wire e n v) = n.
Proof. destruct e; simpl; rewrite ?length_rev; apply length_le_split. Qed.

Lemma length_host_to_wire `{Platform} (e : cstruct_endian_t) (obj : list byte) :
  length (host_to_wire e obj) = length obj.
Proof.
  unfold host_to_wire. destruct e, CSTRUCT_IS_BIG_ENDIAN;
    rewrite ?length_rev; reflexivity.
Qed.

Lemma host_to_wire_involutive `{Platform} (e : cstruct_endian_t) (obj : list byte) :
  host_to_wire e (host_to_wire e obj) = obj.
Proof.
  unfold host_to_wire. destruct e, CSTRUCT_IS_BIG_ENDIAN;
    rewrite ?rev_involutive; reflexivity.
Qed.

Lemma host_to_wire_object `{Platform} (e : cstruct_endian_t) (n : nat) (v : Z) :
  host_to_wire e (object n v) = wire e n v.
Proof.
  unfold host_to_wire, object, wire. destruct e, CSTRUCT_IS_BIG_ENDIAN;
    rewrite ?rev_involutive; reflexivity.
Qed.

Lemma host_to_wire_wire `{Platform} (e : cstruct_endian_t) (n : nat) (v : Z) :
  host_to_wire e (wire e n v) = object n v.
Proof. rewrite <- host_to_wire_object. apply host_to_wire_involutive. Qed.

Lemma host_to_wire_single `{Platform} (e : cstruct_endian_t) (b : byte) :
  host_to_wire e [b] = [b].
Proof. unfold host_to_wire. destruct e, CSTRUCT_IS_BIG_ENDIAN; reflexivity. Qed.

Lemma object_value_object `{Platform} (n : nat) (v : Z) :
  object_value (object n v) = v mod 2 ^ (Z.of_nat n * 8).
Proof.
  unfold object_value, object. destruct CSTRUCT_IS_BIG_ENDIAN;
    rewrite ?rev_involutive; apply le_combine_split.
Qed.

Lemma object_object_value `{Platform} (obj : list byte) :
  object (length obj) (object_value obj) = obj.
Proof.
  unfold object_value, object. destruct CSTRUCT_IS_BIG_ENDIAN.
  - rewrite <- (length_rev obj), split_le_combine. apply rev_involutive.
  - apply split_le_combine.
Qed.

(** The two store functions write the object in the order of the token,
    whatever the order of the host. *)
Lemma store_wire `{Platform} (e : cstruct_endian_t) (dst : Z) (obj : list byte)
    (size : Z) (m : mem) :
  size = Z.of_nat (length obj) ->
  0 <= dst -> dst + size <= Z.of_nat (length m) ->
  match e with
  | CSTRUCT_ENDIAN_LITTLE => cstruct_store_le
  | CSTRUCT_ENDIAN_BIG => cstruct_store_be
  end dst obj size m = Some (tt, splice dst (host_to_wire e obj) m).
Proof.
  intros Hs Hlo Hhi.
  unfold cstruct_store_le, cstruct_store_be, host_to_wire.
  destruct e, CSTRUCT_IS_BIG_ENDIAN;
    auto using cstruct_store_fw_spec, cstruct_store_rev_spec.
Qed.

Lemma load_wire `{Platform} (e : cstruct_endian_t) (buf : mem) (p : Z) (size : Z) :
  0 <= size -> 0 <= p -> p + size <= Z.of_nat (length buf) ->
  match e with
  | CSTRUCT_ENDIAN_LITTLE => cstruct_load_le
  | CSTRUCT_ENDIAN_BIG => cstruct_load_be
  end buf p size = Some (host_to_wire e (slice p (Z.to_nat size) buf)).
Proof.
  intros Hs Hlo Hhi.
  unfold cstruct_load_le, cstruct_load_be, host_to_wire.
  destruct e, CSTRUCT_IS_BIG_ENDIAN;
    auto using cstruct_load_fw_spec, cstruct_load_rev_spec.
Qed.

Lemma poke_splice (p : Z) (b : byte) (m : mem) :
  0 <= p < Z.of_nat (length m) ->
  poke p b m = Some (tt, splice p [b] m).
Proof.
  intros Hp. unfold poke. rewrite andb_range by lia.
  rewrite <- splice_cons, splice_nil by lia. reflexivity.
Qed.

Lemma peek_slice (buf : mem) (p : Z) :
  0 <= p < Z.of_nat (length buf) ->
  exists b, peek buf p = Some b /\ slice p 1 buf = [b].
Proof.
  intros Hp. exists (nth (Z.to_nat p) buf Byte.x00). split.
  - now apply peek_Some.
  - pose proof (gather_slice buf p 1 ltac:(lia) ltac:(lia)) as Hg.
    simpl in Hg. rewrite Z.add_0_r in Hg.
    rewrite (peek_Some buf p Byte.x00) in Hg by lia. simpl in Hg.
    now inversion Hg.
Qed.

Lemma byte_of_Z_mod (v : Z) : byte.of_Z (v mod 2 ^ 8) = byte.of_Z v.
Proof.
  apply byte.unsigned_inj. rewrite !byte.unsigned_of_Z. unfold byte.wrap.
  apply Z.mod_mod. lia.
Qed.

Lemma byte_of_Z_signed (v : Z) : byte.of_Z (to_signed 8 v) = byte.of_Z v.
Proof.
  apply byte.unsigned_inj. rewrite !byte.unsigned_of_Z. unfold byte.wrap, to_signed.
  change (2 ^ (8 - 1)) with 128. change (2 ^ 8) with 256.
  rewrite Zminus_mod, Z.mod_mod by lia. rewrite <- Zminus_mod.
  f_equal. lia.
Qed.

Lemma le_split_mod (n : nat) (v : Z) :
  le_split n (v mod 2 ^ (Z.of_nat n * 8)) = le_split n v.
Proof.
  rewrite <- le_combine_split.
  rewrite <- (length_le_split n v) at 1. apply split_le_combine.
Qed.

Lemma wire_cong (e : cstruct_endian_t) (n : nat) (v w : Z) :
  v mod 2 ^ (Z.of_nat n * 8) = w mod 2 ^ (Z.of_nat n * 8) ->
  wire e n v = wire e n w.
Proof.
  intros Hvw. unfold wire.
  rewrite <- (le_split_mod n v), <- (le_split_mod n w), Hvw. reflexivity.
Qed.

Lemma to_signed_mod (w v : Z) : 0 < w -> to_signed w v mod 2 ^ w = v mod 2 ^ w.
Proof.
  intros Hw. unfold to_signed.
  assert (H2 : 0 < 2 ^ w) by (apply Z.pow_pos_nonneg; lia).
  rewrite Zminus_mod, Z.mod_mod by lia. rewrite <- Zminus_mod.
  f_equal. lia.
Qed.

Lemma to_unsigned_mod (w v : Z) : 0 < w -> to_unsigned w v mod 2 ^ w = v mod 2 ^ w.
Proof.
  intros Hw. unfold to_unsigned. apply Z.mod_mod.
  apply Z.pow_nonzero; lia.
Qed.

(* ================================================================== *)
(** * What the primitives do *)

Lemma pack_prim_spec `{Platform} (t : cstruct_type_t) (e : cstruct_endian_t)
    (dst v : Z) (m : mem) :
  is_integer t || is_float t = true ->
  0 <= dst -> dst + Z.of_nat (elem_size t) <= Z.of_nat (length m) ->
  pack_prim t e dst (cast t v) m
  = Some (dst + Z.of_nat (elem_size t), splice dst (encode t e v) m).
Proof.
  intros Ht Hlo Hhi.
  assert (Hstore : forall n w, n = elem_size t ->
    bind (match e with
          | CSTRUCT_ENDIAN_LITTLE => cstruct_store_le
          | CSTRUCT_ENDIAN_BIG => cstruct_store_be
          end dst (object n w) (Z.of_nat n))
         (fun _ => ret (dst + Z.of_nat n)) m
    = Some (dst + Z.of_nat n, splice dst (wire e n w) m)).
  { intros n w ->. unfold bind.
    rewrite store_wire by (rewrite ?length_object; lia).
    now rewrite host_to_wire_object. }
  destruct t; try discriminate Ht; simpl elem_size in *; unfold encode; simpl elem_size.
  - (* int8 *)
    replace (pack_prim CSTRUCT_TYPE_INT8 e) with cstruct_pack_int8 by (destruct e; reflexivity).
    unfold cstruct_pack_int8, bind. rewrite poke_splice by lia.
    unfold cast, to_unsigned. rewrite byte_of_Z_mod, byte_of_Z_signed.
    destruct e; reflexivity.
  - (* uint8 *)
    replace (pack_prim CSTRUCT_TYPE_UINT8 e) with cstruct_pack_uint8 by (destruct e; reflexivity).
    unfold cstruct_pack_uint8, bind. rewrite poke_splice by lia.
    unfold cast, to_unsigned. rewrite byte_of_Z_mod.
    destruct e; reflexivity.
  - (* int16 *)
    rewrite <- (wire_cong e 2 (cast CSTRUCT_TYPE_INT16 v) v) by (apply to_signed_mod; lia).
    destruct e; apply (Hstore 2%nat); reflexivity.
  - (* uint16 *)
    rewrite <- (wire_cong e 2 (cast CSTRUCT_TYPE_UINT16 v) v) by (apply to_unsigned_mod; lia).
    destruct e; apply (Hstore 2%nat); reflexivity.
  - destruct e; apply (Hstore 4%nat); reflexivity.
  - destruct e; apply (Hstore 4%nat); reflexivity.
  - destruct e; apply (Hstore 8%nat); reflexivity.
  - destruct e; apply (Hstore 8%nat); reflexivity.
  - (* float16 *)
    destruct e; apply (Hstore 2%nat); reflexivity.
  - destruct e; apply (Hstore 4%nat); reflexivity.
  - destruct e; apply (Hstore 8%nat); reflexivity.
Qed.

Lemma pack_block_prim_spec `{Platform} (t : cstruct_type_t) (e : cstruct_endian_t)
    (dst : Z) (blk : list byte) (m : mem) :
  is_block t = true -> length blk = 16%nat ->
  0 <= dst -> dst + 16 <= Z.of_nat (length m) ->
  pack_block_prim t e dst blk m = Some (dst + 16, splice dst (host_to_wire e blk) m).
Proof.
  intros Ht Hblk Hlo Hhi.
  assert (Hstore :
    bind (match e with
          | CSTRUCT_ENDIAN_LITTLE => cstruct_store_le
          | CSTRUCT_ENDIAN_BIG => cstruct_store_be
          end dst blk 16)
         (fun _ => ret (dst + 16)) m
    = Some (dst + 16, splice dst (host_to_wire e blk) m)).
  { unfold bind. rewrite store_wire by (rewrite ?Hblk; lia). reflexivity. }
  destruct t; try discriminate Ht; destruct e; exact Hstore.
Qed.

Lemma unpack_prim_spec `{Platform} (t : cstruct_type_t) (e : cstruct_endian_t)
    (buf : mem) (p : Z) :
  is_integer t || is_float t || is_block t = true ->
  0 <= p -> p + Z.of_nat (elem_size t) <= Z.of_nat (length buf) ->
  unpack_prim t e buf p
  = Some (decode t e (slice p (elem_size t) buf), p + Z.of_nat (elem_size t)).
Proof.
  intros Ht Hlo Hhi.
  assert (Hload : forall n, n = elem_size t ->
    match e with
    | CSTRUCT_ENDIAN_LITTLE => cstruct_load_le
    | CSTRUCT_ENDIAN_BIG => cstruct_load_be
    end buf p (Z.of_nat n) = Some (host_to_wire e (slice p n buf))).
  { intros n ->. rewrite load_wire by lia. now rewrite Nat2Z.id. }
  assert (Hbyte : elem_size t = 1%nat ->
    match peek buf p with
    | Some b => Some ([b], p + 1)
    | None => None
    end = Some (host_to_wire e (slice p 1 buf), p + 1)).
  { intros H1. destruct (peek_slice buf p) as (b & -> & ->); [lia|].
    now rewrite host_to_wire_single. }
  destruct t; try discriminate Ht; simpl elem_size in *; unfold decode;
    try (destruct e; exact (Hbyte eq_refl));
    try (destruct e; simpl unpack_prim;
         unfold cstruct_unpack_int16_le, cstruct_unpack_int16_be,
           cstruct_unpack_uint16_le, cstruct_unpack_uint16_be,
           cstruct_unpack_int32_le, cstruct_unpack_int32_be,
           cstruct_unpack_uint32_le, cstruct_unpack_uint32_be,
           cstruct_unpack_int64_le, cstruct_unpack_int64_be,
           cstruct_unpack_uint64_le, cstruct_unpack_uint64_be,
           cstruct_unpack_uint128_le, cstruct_unpack_uint128_be,
           cstruct_unpack_int128_le, cstruct_unpack_int128_be,
           cstruct_unpack_float16_le, cstruct_unpack_float16_be,
           cstruct_unpack_float32_le, cstruct_unpack_float32_be,
           cstruct_unpack_float64_le, cstruct_unpack_float64_be;
         match goal with
         | |- context [cstruct_load_le buf p ?n] =>
             rewrite (Hload (Z.to_nat n) eq_refl : cstruct_load_le buf p n = _)
         | |- context [cstruct_load_be buf p ?n] =>
             rewrite (Hload (Z.to_nat n) eq_refl : cstruct_load_be buf p n = _)
         end; reflexivity).
Qed.

(* ================================================================== *)
(** * The parser *)

Lemma count_guard `{Platform} (c d : Z) :
  0 <= c -> 0 <= d <= 9 ->
  (c >? CSTRUCT_DIV10_THRESHOLD)
  || ((c =? CSTRUCT_DIV10_THRESHOLD) && (d >? CSTRUCT_DIV10_MAX_LAST_DIGIT)) = false
  <-> c * 10 + d <= SIZE_MAX.
Proof.
  intros Hc Hd. unfold CSTRUCT_DIV10_THRESHOLD, CSTRUCT_DIV10_MAX_LAST_DIGIT.
  pose proof SIZE_MAX_lower as HS.
  pose proof (Z.div_mod SIZE_MAX 10 ltac:(lia)) as Hdm.
  pose proof (Z.mod_pos_bound SIZE_MAX 10 ltac:(lia)) as Hm.
  rewrite orb_false_iff, andb_false_iff.
  rewrite Z.gtb_ltb, Z.ltb_ge, Z.eqb_neq, Z.gtb_ltb, Z.ltb_ge.
  lia.
Qed.

Lemma isdigit_digit (c : ascii) :
  isdigit c = true -> 0 <= Z.of_N (N_of_ascii c) - 48 <= 9.
Proof. unfold isdigit. rewrite andb_true_iff, !Z.leb_le. lia. Qed.

(** The count [parse_count] returns fits [size_t], and the rest of the
    format is a suffix no longer than what it was given. *)
Lemma parse_count_spec `{Platform} (p : string) (c n : Z) (q : string) :
  0 <= c <= SIZE_MAX ->
  parse_count p c = Some (n, q) ->
  c <= n <= SIZE_MAX /\ (String.length q <= String.length p)%nat.
Proof.
  revert c. induction p as [|ch p IH]; intros c Hc Hp; simpl in Hp.
  - inversion Hp; subst. simpl. lia.
  - destruct (isdigit ch) eqn:Hd.
    + pose proof (isdigit_digit ch Hd) as Hdig.
      destruct (_ || _) eqn:Hg; [discriminate|].
      apply count_guard in Hg; [|lia|lia].
      apply IH in Hp; [|lia]. simpl. lia.
    + inversion Hp; subst. simpl. lia.
Qed.

(** A count that fits 16 bits is accepted on every platform. *)
Lemma parse_count_size16 `{Platform} (p : string) (c n : Z) (q : string) :
  0 <= c ->
  @parse_count size16 p c = Some (n, q) -> parse_count p c = Some (n, q).
Proof.
  revert c. induction p as [|ch p IH]; intros c Hc Hp; simpl in Hp |- *.
  - exact Hp.
  - destruct (isdigit ch) eqn:Hd; [|exact Hp].
    pose proof (isdigit_digit ch Hd) as Hdig.
    destruct (_ || _) eqn:Hg in Hp; [discriminate|].
    apply (@count_guard size16) in Hg; [|lia|lia].
    change (@SIZE_MAX size16) with 65535 in Hg.
    replace (_ || _) with false.
    + apply IH; [lia|exact Hp].
    + symmetry. apply count_guard; [lia|lia|]. pose proof SIZE_MAX_lower. lia.
Qed.

Lemma parse_repeat_size16 `{Platform} (p : string) r :
  @parse_repeat size16 p = Some r -> parse_repeat p = Some r.
Proof.
  unfold parse_repeat. destruct p as [|ch p]; [trivial|].
  destruct (isdigit ch); [|trivial].
  destruct (@parse_count size16 (String ch p) 0) as [[n q]|] eqn:Hc; [|discriminate].
  now rewrite (parse_count_size16 (String ch p) 0 n q (Z.le_refl 0) Hc).
Qed.

Lemma parse_token_cons `{Platform} (c : ascii) (p' : string) (e : cstruct_endian_t) :
  parse_token (String c p') e =
  if Ascii.eqb c "<" then parse_token p' CSTRUCT_ENDIAN_LITTLE
  else if Ascii.eqb c ">" then parse_token p' CSTRUCT_ENDIAN_BIG
  else match parse_repeat (String c p') with
       | Some (tok_count, q) => parse_type q tok_count e
       | None => None
       end.
Proof. reflexivity. Qed.

Lemma parse_token_size16 `{Platform} (p : string) (e : cstruct_endian_t) r :
  @parse_token size16 p e = Some r -> parse_token p e = Some r.
Proof.
  revert e. induction p as [|ch p IH]; intros e Hp; [discriminate|].
  rewrite (@parse_token_cons size16) in Hp. rewrite parse_token_cons.
  destruct (Ascii.eqb ch "<"); [now apply IH|].
  destruct (Ascii.eqb ch ">"); [now apply IH|].
  destruct (@parse_repeat size16 (String ch p)) as [[n q]|] eqn:Hc; [|discriminate].
  now rewrite (parse_repeat_size16 _ _ Hc).
Qed.

Lemma type_letter_spec (c : ascii) ty sz (b : bool) :
  type_letter c = Some (ty, sz, b) ->
  if b then ty = CSTRUCT_TYPE_PADDING \/ ty = CSTRUCT_TYPE_STRING
  else sz = Z.of_nat (elem_size ty) /\ ty <> CSTRUCT_TYPE_PADDING /\ ty <> CSTRUCT_TYPE_STRING.
Proof.
  unfold type_letter.
  destruct c as [[] [] [] [] [] [] [] []]; intros Hc; try discriminate Hc;
    inversion Hc; subst; simpl; auto; repeat split; discriminate.
Qed.

Lemma parse_repeat_spec `{Platform} (p : string) (n : Z) (q : string) :
  parse_repeat p = Some (n, q) ->
  1 <= n <= SIZE_MAX /\ (String.length q <= String.length p)%nat.
Proof.
  pose proof SIZE_MAX_lower as HS.
  unfold parse_repeat. destruct p as [|ch p].
  - intros Hp; inversion Hp; subst. simpl. lia.
  - destruct (isdigit ch).
    + destruct (parse_count (String ch p) 0) as [[k r]|] eqn:Hc; [|discriminate].
      apply parse_count_spec in Hc; [|lia].
      intros Hp; inversion Hp; subst. destruct (Z.eqb_spec k 0); lia.
    + intros Hp; inversion Hp; subst. simpl. lia.
Qed.

Lemma parse_type_spec `{Platform} (p : string) (n : Z) (e : cstruct_endian_t) q tok e' :
  1 <= n <= SIZE_MAX ->
  parse_type p n e = Some (q, tok, e') ->
  token_ok tok /\ endian tok = e' /\ e' = e /\ p = String (letter (type tok)) q
  /\ (count tok = n \/ size tok = n).
Proof.
  intros Hn. unfold parse_type. destruct p as [|t p']; [discriminate|].
  destruct (type_letter t) as [[[ty sz] b]|] eqn:Ht; [|discriminate].
  assert (Hl : t = letter ty).
  { unfold type_letter in Ht.
    destruct t as [[] [] [] [] [] [] [] []]; try discriminate Ht;
      inversion Ht; reflexivity. }
  apply type_letter_spec in Ht.
  destruct b; intros Hr; inversion Hr; subst; clear Hr; unfold token_ok; simpl.
  - repeat split; try lia; auto. destruct Ht as [->| ->]; lia.
  - destruct Ht as (-> & Hp1 & Hp2). repeat split; try lia; auto.
    destruct ty; try reflexivity; congruence.
Qed.

Lemma parse_token_spec `{Platform} (p : string) (e : cstruct_endian_t) q tok e' :
  parse_token p e = Some (q, tok, e') ->
  token_ok tok /\ endian tok = e' /\ (String.length q < String.length p)%nat.
Proof.
  revert e. induction p as [|ch p IH]; intros e Hp; [discriminate|].
  rewrite parse_token_cons in Hp.
  destruct (Ascii.eqb ch "<"); [apply IH in Hp; simpl; intuition lia|].
  destruct (Ascii.eqb ch ">"); [apply IH in Hp; simpl; intuition lia|].
  destruct (parse_repeat (String ch p)) as [[n r]|] eqn:Hc; [|discriminate].
  apply parse_repeat_spec in Hc. destruct Hc as [Hn Hlen].
  apply parse_type_spec in Hp; [|exact Hn].
  destruct Hp as (Hok & He & _ & Hr & _). subst r. simpl in Hlen.
  split; [exact Hok|]. split; [exact He|]. simpl. lia.
Qed.

(* ================================================================== *)
(** * The loops never run out of fuel *)

Lemma pack_loop_fuel `{Platform} (fuel1 fuel2 : nat) (dstlen out : Z)
    (e : cstruct_endian_t) (fmt : string) (args : list arg) (m : mem) :
  (String.length fmt <= fuel1)%nat -> (String.length fmt <= fuel2)%nat ->
  pack_loop fuel1 dstlen out e fmt args m = pack_loop fuel2 dstlen out e fmt args m.
Proof.
  revert fuel2 out e fmt args m.
  induction fuel1 as [|fuel1 IH]; intros fuel2 out e fmt args m H1 H2;
    (destruct fmt as [|c fmt]; [destruct fuel2; reflexivity|]);
    simpl in H1, H2; [lia|].
  destruct fuel2 as [|fuel2]; [lia|].
    cbn [pack_loop].
    destruct (parse_token (String c fmt) e) as [[[q tok] e']|] eqn:Hp; [|reflexivity].
    apply parse_token_spec in Hp. destruct Hp as (_ & _ & Hlen). simpl in Hlen.
    destruct (_ <? _); [reflexivity|].
    unfold bind. destruct (pack_token tok out args m) as [[r m']|]; [|reflexivity].
    apply IH; lia.
Qed.

Lemma unpack_loop_fuel `{Platform} (fuel1 fuel2 : nat) (buf : mem) (srclen in_ : Z)
    (e : cstruct_endian_t) (fmt : string) (written : list (list byte)) :
  (String.length fmt <= fuel1)%nat -> (String.length fmt <= fuel2)%nat ->
  unpack_loop fuel1 buf srclen in_ e fmt written
  = unpack_loop fuel2 buf srclen in_ e fmt written.
Proof.
  revert fuel2 in_ e fmt written.
  induction fuel1 as [|fuel1 IH]; intros fuel2 in_ e fmt written H1 H2;
    (destruct fmt as [|c fmt]; [destruct fuel2; reflexivity|]);
    simpl in H1, H2; [lia|].
  destruct fuel2 as [|fuel2]; [lia|].
    cbn [unpack_loop].
    destruct (parse_token (String c fmt) e) as [[[q tok] e']|] eqn:Hp; [|reflexivity].
    apply parse_token_spec in Hp. destruct Hp as (_ & _ & Hlen). simpl in Hlen.
    destruct (_ <? _); [reflexivity|].
    destruct (unpack_token tok buf in_) as [[in' ds]|]; [|reflexivity].
    apply IH; lia.
Qed.

Lemma get_ptr_loop_fuel `{Platform} (fuel1 fuel2 : nat) (srclen in_ : Z)
    (e : cstruct_endian_t) (fmt : string) (index current_index : Z) :
  (String.length fmt <= fuel1)%nat -> (String.length fmt <= fuel2)%nat ->
  get_ptr_loop fuel1 srclen in_ e fmt index current_index
  = get_ptr_loop fuel2 srclen in_ e fmt index current_index.
Proof.
  revert fuel2 in_ e fmt current_index.
  induction fuel1 as [|fuel1 IH]; intros fuel2 in_ e fmt current_index H1 H2;
    (destruct fmt as [|c fmt]; [destruct fuel2; reflexivity|]);
    simpl in H1, H2; [lia|].
  destruct fuel2 as [|fuel2]; [lia|].
    cbn [get_ptr_loop].
    destruct (parse_token (String c fmt) e) as [[[q tok] e']|] eqn:Hp; [|reflexivity].
    apply parse_token_spec in Hp. destruct Hp as (_ & _ & Hlen). simpl in Hlen.
    destruct (_ <? _); [reflexivity|].
    destruct (_ =? _); [reflexivity|].
    apply IH; lia.
Qed.

Lemma tokens_loop_fuel `{Platform} (fuel1 fuel2 : nat) (e : cstruct_endian_t)
    (fmt : string) :
  (String.length fmt <= fuel1)%nat -> (String.length fmt <= fuel2)%nat ->
  tokens_loop fuel1 e fmt = tokens_loop fuel2 e fmt.
Proof.
  revert fuel2 e fmt.
  induction fuel1 as [|fuel1 IH]; intros fuel2 e fmt H1 H2;
    (destruct fmt as [|c fmt]; [destruct fuel2; reflexivity|]);
    simpl in H1, H2; [lia|].
  destruct fuel2 as [|fuel2]; [lia|].
    cbn [tokens_loop].
    destruct (parse_token (String c fmt) e) as [[[q tok] e']|] eqn:Hp; [|reflexivity].
    apply parse_token_spec in Hp. destruct Hp as (_ & _ & Hlen). simpl in Hlen.
    f_equal. apply IH; lia.
Qed.

(** ** One round of each loop *)

Lemma parse_token_nonempty `{Platform} (fmt : string) (e : cstruct_endian_t) r :
  parse_token fmt e = Some r -> exists c fmt', fmt = String c fmt'.
Proof. destruct fmt; [discriminate|eauto]. Qed.

Lemma pack_from_nil `{Platform} (dstlen out : Z) (e : cstruct_endian_t)
    (args : list arg) (m : mem) :
  pack_from dstlen out e "" args m = Some (Some out, m).
Proof. reflexivity. Qed.

Lemma pack_from_step `{Platform} (dstlen out : Z) (e : cstruct_endian_t)
    (fmt : string) (args : list arg) (m : mem) q tok e' :
  parse_token fmt e = Some (q, tok, e') ->
  pack_from dstlen out e fmt args m =
  if size_t (dstlen - out) <? size_t (size tok * count tok) then Some (None, m)
  else match pack_token tok out args m with
       | Some ((out', args'), m') => pack_from dstlen out' e' q args' m'
       | None => None
       end.
Proof.
  intros Hp. destruct (parse_token_nonempty _ _ _ Hp) as (c & fmt' & ->).
  unfold pack_from. cbn [String.length pack_loop]. rewrite Hp.
  apply parse_token_spec in Hp. destruct Hp as (_ & _ & Hlen). simpl in Hlen.
  destruct (_ <? _); [reflexivity|].
  unfold bind. destruct (pack_token tok out args m) as [[[out' args'] m']|]; [|reflexivity].
  apply pack_loop_fuel; simpl; lia.
Qed.

Lemma pack_from_null `{Platform} (dstlen out : Z) (e : cstruct_endian_t)
    (fmt : string) (args : list arg) (m : mem) :
  fmt <> EmptyString -> parse_token fmt e = None ->
  pack_from dstlen out e fmt args m = Some (None, m).
Proof.
  intros Hne Hp. destruct fmt as [|c fmt]; [congruence|].
  unfold pack_from. cbn [String.length pack_loop]. now rewrite Hp.
Qed.

Lemma unpack_from_nil `{Platform} (buf : mem) (srclen in_ : Z) (e : cstruct_endian_t)
    (written : list (list byte)) :
  unpack_from buf srclen in_ e "" written = Some (Some in_, written).
Proof. reflexivity. Qed.

Lemma unpack_from_step `{Platform} (buf : mem) (srclen in_ : Z) (e : cstruct_endian_t)
    (fmt : string) (written : list (list byte)) q tok e' :
  parse_token fmt e = Some (q, tok, e') ->
  unpack_from buf srclen in_ e fmt written =
  if size_t (srclen - in_) <? size_t (size tok * count tok) then Some (None, written)
  else match unpack_token tok buf in_ with
       | Some (in', ds) => unpack_from buf srclen in' e' q (written ++ ds)
       | None => None
       end.
Proof.
  intros Hp. destruct (parse_token_nonempty _ _ _ Hp) as (c & fmt' & ->).
  unfold unpack_from. cbn [String.length unpack_loop]. rewrite Hp.
  apply parse_token_spec in Hp. destruct Hp as (_ & _ & Hlen). simpl in Hlen.
  destruct (_ <? _); [reflexivity|].
  destruct (unpack_token tok buf in_) as [[in' ds]|]; [|reflexivity].
  apply unpack_loop_fuel; simpl; lia.
Qed.

Lemma unpack_from_null `{Platform} (buf : mem) (srclen in_ : Z) (e : cstruct_endian_t)
    (fmt : string) (written : list (list byte)) :
  fmt <> EmptyString -> parse_token fmt e = None ->
  unpack_from buf srclen in_ e fmt written = Some (None, written).
Proof.
  intros Hne Hp. destruct fmt as [|c fmt]; [congruence|].
  unfold unpack_from. cbn [String.length unpack_loop]. now rewrite Hp.
Qed.

Lemma get_ptr_from_step `{Platform} (srclen in_ : Z) (e : cstruct_endian_t)
    (fmt : string) (index current_index : Z) q tok e' :
  parse_token fmt e = Some (q, tok, e') ->
  get_ptr_from srclen in_ e fmt index current_index =
  if size_t (srclen - in_) <? size tok then None
  else if current_index =? index then Some in_
  else get_ptr_from srclen (in_ + size tok) e' q index (size_t (current_index + 1)).
Proof.
  intros Hp. destruct (parse_token_nonempty _ _ _ Hp) as (c & fmt' & ->).
  unfold get_ptr_from. cbn [String.length get_ptr_loop]. rewrite Hp.
  apply parse_token_spec in Hp. destruct Hp as (_ & _ & Hlen). simpl in Hlen.
  destruct (_ <? _); [reflexivity|].
  destruct (_ =? _); [reflexivity|].
  apply get_ptr_loop_fuel; simpl; lia.
Qed.

Lemma tokens_from_step `{Platform} (e : cstruct_endian_t) (fmt : string) q tok e' :
  parse_token fmt e = Some (q, tok, e') ->
  tokens_from e fmt = option_map (cons tok) (tokens_from e' q).
Proof.
  intros Hp. destruct (parse_token_nonempty _ _ _ Hp) as (c & fmt' & ->).
  unfold tokens_from. cbn [String.length tokens_loop]. rewrite Hp.
  apply parse_token_spec in Hp. destruct Hp as (_ & _ & Hlen). simpl in Hlen.
  f_equal. apply tokens_loop_fuel; simpl; lia.
Qed.

(* ================================================================== *)
(** * One token of pack and unpack *)

Lemma pack_token_scalar `{Platform} (tok : cstruct_token_t) (out : Z) (args : list arg) :
  is_integer (type tok) || is_float (type tok) = true ->
  pack_token tok out args
  = pack_scalar tok (var_size (type tok)) (by_value (type tok)) (cast (type tok))
      (pack_prim (type tok) CSTRUCT_ENDIAN_LITTLE)
      (pack_prim (type tok) CSTRUCT_ENDIAN_BIG) out args.
Proof.
  unfold pack_token. destruct (type tok); intros Ht; try discriminate Ht; reflexivity.
Qed.

Lemma pack_token_block `{Platform} (tok : cstruct_token_t) (out : Z) (args : list arg) :
  is_block (type tok) = true ->
  pack_token tok out args
  = pack_block tok (pack_block_prim (type tok) CSTRUCT_ENDIAN_LITTLE)
      (pack_block_prim (type tok) CSTRUCT_ENDIAN_BIG) out args.
Proof.
  unfold pack_token. destruct (type tok); intros Ht; try discriminate Ht; reflexivity.
Qed.

Lemma unpack_token_scalar `{Platform} (tok : cstruct_token_t) (buf : mem) (in_ : Z) :
  is_integer (type tok) || is_float (type tok) || is_block (type tok) = true ->
  unpack_token tok buf in_
  = unpack_scalar tok (unpack_prim (type tok) CSTRUCT_ENDIAN_LITTLE)
      (unpack_prim (type tok) CSTRUCT_ENDIAN_BIG) buf in_.
Proof.
  unfold unpack_token. destruct (type tok); intros Ht; try discriminate Ht; reflexivity.
Qed.

Lemma select_prim {A} (f : cstruct_endian_t -> A) (e : cstruct_endian_t) :
  match e with
  | CSTRUCT_ENDIAN_LITTLE => f CSTRUCT_ENDIAN_LITTLE
  | CSTRUCT_ENDIAN_BIG => f CSTRUCT_ENDIAN_BIG
  end = f e.
Proof. destruct e; reflexivity. Qed.

(** A token of count one passed by value writes its encoding. *)
Lemma pack_token_value `{Platform} (tok : cstruct_token_t) (out : Z) (a : arg)
    (v : Z) (args : list arg) (m : mem) :
  is_integer (type tok) || is_float (type tok) = true ->
  count tok = 1 -> by_value (type tok) a = Some v ->
  0 <= out -> out + Z.of_nat (elem_size (type tok)) <= Z.of_nat (length m) ->
  pack_token tok out (a :: args) m
  = Some ((out + Z.of_nat (elem_size (type tok)), args),
          splice out (encode (type tok) (endian tok) v) m).
Proof.
  intros Ht Hc Ha Hlo Hhi. rewrite pack_token_scalar by exact Ht.
  unfold pack_scalar. rewrite Hc. change (1 >? 1) with false. cbv iota.
  rewrite Ha. rewrite (select_prim (pack_prim (type tok))).
  unfold bind. rewrite pack_prim_spec by assumption. reflexivity.
Qed.

Lemma pack_token_block_value `{Platform} (tok : cstruct_token_t) (out : Z)
    (blk : list byte) (args : list arg) (m : mem) :
  is_block (type tok) = true -> count tok = 1 -> length blk = 16%nat ->
  0 <= out -> out + 16 <= Z.of_nat (length m) ->
  pack_token tok out (arg_ptr blk :: args) m
  = Some ((out + 16, args), splice out (host_to_wire (endian tok) blk) m).
Proof.
  intros Ht Hc Hblk Hlo Hhi. rewrite pack_token_block by exact Ht.
  unfold pack_block. rewrite Hc. change (1 >? 1) with false. cbv iota.
  rewrite (select_prim (pack_block_prim (type tok))).
  unfold bind. rewrite pack_block_prim_spec by assumption. reflexivity.
Qed.

Lemma unpack_token_value `{Platform} (tok : cstruct_token_t) (buf : mem) (in_ : Z) :
  is_integer (type tok) || is_float (type tok) || is_block (type tok) = true ->
  count tok = 1 ->
  0 <= in_ -> in_ + Z.of_nat (elem_size (type tok)) <= Z.of_nat (length buf) ->
  unpack_token tok buf in_
  = Some (in_ + Z.of_nat (elem_size (type tok)),
          [decode (type tok) (endian tok) (slice in_ (elem_size (type tok)) buf)]).
Proof.
  intros Ht Hc Hlo Hhi. rewrite unpack_token_scalar by exact Ht.
  unfold unpack_scalar. rewrite Hc. change (1 >? 1) with false. cbv iota.
  rewrite (select_prim (fun e => unpack_prim (type tok) e buf)).
  rewrite unpack_prim_spec by assumption. reflexivity.
Qed.

Lemma parse_single_token `{Platform} (e0 e : cstruct_endian_t) (t : cstruct_type_t) :
  is_integer t || is_float t || is_block t = true ->
  parse_token (single_token e t) e0 = Some (EmptyString, token_of e t, e).
Proof. destruct e, t; intros Ht; try discriminate Ht; reflexivity. Qed.

(* ================================================================== *)
(** * The half-float converter on a little-endian host *)

Lemma all_bits_spec (k : nat) (P : Z -> bool) (prefix : Z) :
  all_bits k P prefix = true ->
  forall h, prefix * 2 ^ Z.of_nat k <= h < (prefix + 1) * 2 ^ Z.of_nat k -> P h = true.
Proof.
  revert prefix. induction k as [|k IH]; intros prefix Hall h Hh.
  - simpl in Hall. change (2 ^ Z.of_nat 0) with 1 in Hh.
    replace h with prefix by lia. exact Hall.
  - simpl in Hall. apply andb_true_iff in Hall. destruct Hall as [H0 H1].
    rewrite Nat2Z.inj_succ, Z.pow_succ_r in Hh by lia.
    destruct (Z_lt_le_dec h ((2 * prefix + 1) * 2 ^ Z.of_nat k)) as [Hlt|Hge].
    + apply (IH _ H0). lia.
    + apply (IH _ H1). lia.
Qed.

Lemma all_halves_spec (P : Z -> bool) :
  all_halves P = true -> forall h, 0 <= h < 2 ^ 16 -> P h = true.
Proof.
  intros Hall h Hh. apply (all_bits_spec 16 P 0 Hall).
  change (Z.of_nat 16) with 16. lia.
Qed.

Lemma cstruct_float_to_half_le `{Platform} (f : Z) :
  CSTRUCT_IS_BIG_ENDIAN = false ->
  cstruct_float_to_half f = @cstruct_float_to_half arm32 f.
Proof. intros Hle. unfold cstruct_float_to_half. now rewrite Hle. Qed.

Lemma cstruct_half_to_float_le `{Platform} (h : Z) :
  CSTRUCT_IS_BIG_ENDIAN = false ->
  cstruct_half_to_float h = @cstruct_half_to_float arm32 h.
Proof. intros Hle. unfold cstruct_half_to_float. now rewrite Hle. Qed.

(** The normalisation loop is left by its condition: ten rounds are
    enough for every fraction it is entered with. *)
Lemma half_normalize_exits_all :
  all_bits 10 (fun frac => (frac =? 0)
     || negb (Z.land (fst (half_normalize 10 frac 0)) 0x400 =? 0)) 0 = true.
Proof. vm_compute. reflexivity. Qed.

Lemma half_normalize_exits (frac : Z) :
  0 < frac < 2 ^ 10 ->
  Z.land (fst (half_normalize 10 frac 0)) 0x400 <> 0.
Proof.
  intros Hfrac.
  pose proof (all_bits_spec 10 _ 0 half_normalize_exits_all frac) as Hb.
  cbv beta in Hb. change (Z.of_nat 10) with 10 in Hb.
  apply orb_true_iff in Hb; [|lia]. destruct Hb as [Hb|Hb].
  - apply Z.eqb_eq in Hb. lia.
  - apply negb_true_iff, Z.eqb_neq in Hb. exact Hb.
Qed.

(** On the 65536 binary16 patterns: [cstruct_half_to_float] is the exact
    widening, and [cstruct_float_to_half] after it gives the pattern
    back. *)
Lemma half_conversions_all :
  all_halves (fun h =>
    let f := half_as_float h in
    (@cstruct_half_to_float arm32 h =? f)
    && (@cstruct_float_to_half arm32 f =? h)
    && (0 <=? f) && (f <? 2 ^ 32)) = true.
Proof. vm_compute. reflexivity. Qed.

Lemma half_conversions (h : Z) :
  0 <= h < 2 ^ 16 ->
  @cstruct_half_to_float arm32 h = half_as_float h
  /\ @cstruct_float_to_half arm32 (half_as_float h) = h
  /\ 0 <= half_as_float h < 2 ^ 32.
Proof.
  intros Hh.
  pose proof (all_halves_spec _ half_conversions_all h Hh) as Hb.
  cbv beta zeta in Hb. rewrite !andb_true_iff in Hb.
  rewrite !Z.eqb_eq, Z.leb_le, Z.ltb_lt in Hb. tauto.
Qed.

Lemma cstruct_half_to_float_exact `{Platform} (h : Z) :
  CSTRUCT_IS_BIG_ENDIAN = false -> 0 <= h < 2 ^ 16 ->
  cstruct_half_to_float h = half_as_float h.
Proof.
  intros Hle Hh. rewrite cstruct_half_to_float_le by exact Hle.
  now apply half_conversions.
Qed.

Lemma cstruct_float_to_half_of_half `{Platform} (h : Z) :
  CSTRUCT_IS_BIG_ENDIAN = false -> 0 <= h < 2 ^ 16 ->
  cstruct_float_to_half (half_as_float h) = h.
Proof.
  intros Hle Hh. rewrite cstruct_float_to_half_le by exact Hle.
  now apply half_conversions.
Qed.

Lemma half_as_float_range (h : Z) :
  0 <= h < 2 ^ 16 -> 0 <= half_as_float h < 2 ^ 32.
Proof. intros Hh. now apply half_conversions. Qed.

(** On a big-endian host the two converters exchange the bytes of the
    pattern they read from, and write to, the union, which holds the
    pattern itself: 1.0f is turned into the half 0. *)
Lemma cstruct_float_to_half_big_endian_host :
  @cstruct_float_to_half be32 0x3F800000 = 0
  /\ @cstruct_float_to_half arm32 0x3F800000 = 0x3C00.
Proof. vm_compute. split; reflexivity. Qed.

(* ================================================================== *)
(** * Round trip of one value *)

Lemma elem_size_bound `{Platform} (t : cstruct_type_t) :
  0 <= Z.of_nat (elem_size t) <= SIZE_MAX.
Proof. pose proof SIZE_MAX_lower. destruct t; simpl; lia. Qed.

Lemma bounds_check_passes `{Platform} (len pos n : Z) :
  0 <= n <= SIZE_MAX -> 0 <= pos -> pos + n <= len -> len <= SIZE_MAX ->
  (size_t (len - pos) <? size_t (n * 1)) = false.
Proof.
  intros Hn Hpos Hfit Hlen. rewrite Z.mul_1_r, !size_t_small by lia.
  apply Z.ltb_ge. lia.
Qed.

Lemma pack_single `{Platform} (t : cstruct_type_t) (e : cstruct_endian_t)
    (a : arg) (v : Z) (dstlen : Z) (m : mem) :
  is_integer t || is_float t = true -> by_value t a = Some v ->
  Z.of_nat (elem_size t) <= dstlen <= SIZE_MAX -> dstlen <= Z.of_nat (length m) ->
  cstruct_pack_v dstlen (single_token e t) [a] m
  = Some (Some (Z.of_nat (elem_size t)), splice 0 (encode t e v) m).
Proof.
  intros Ht Ha Hlen Hm. pose proof (elem_size_bound t) as Hn.
  change (cstruct_pack_v dstlen (single_token e t) [a] m)
    with (pack_from dstlen 0 CSTRUCT_ENDIAN_LITTLE (single_token e t) [a] m).
  rewrite (pack_from_step _ _ _ _ _ _ _ _ _
             (parse_single_token CSTRUCT_ENDIAN_LITTLE e t ltac:(now rewrite Ht))).
  cbn [size count token_of]. rewrite bounds_check_passes by lia.
  rewrite (pack_token_value _ _ _ v) by (cbn [type count token_of]; auto; lia).
  cbn [type endian token_of]. now rewrite pack_from_nil.
Qed.

Lemma pack_single_block `{Platform} (t : cstruct_type_t) (e : cstruct_endian_t)
    (blk : list byte) (dstlen : Z) (m : mem) :
  is_block t = true -> length blk = 16%nat ->
  16 <= dstlen <= SIZE_MAX -> dstlen <= Z.of_nat (length m) ->
  cstruct_pack_v dstlen (single_token e t) [arg_ptr blk] m
  = Some (Some 16, splice 0 (host_to_wire e blk) m).
Proof.
  intros Ht Hblk Hlen Hm. pose proof SIZE_MAX_lower as HS.
  assert (Hsz : Z.of_nat (elem_size t) = 16) by (destruct t; try discriminate Ht; reflexivity).
  change (cstruct_pack_v dstlen (single_token e t) [arg_ptr blk] m)
    with (pack_from dstlen 0 CSTRUCT_ENDIAN_LITTLE (single_token e t) [arg_ptr blk] m).
  rewrite (pack_from_step _ _ _ _ _ _ _ _ _
             (parse_single_token CSTRUCT_ENDIAN_LITTLE e t
                ltac:(rewrite Ht; apply orb_true_r))).
  cbn [size count token_of]. rewrite Hsz, bounds_check_passes by lia.
  rewrite pack_token_block_value by (cbn [type count token_of]; auto; lia).
  cbn [endian token_of]. now rewrite pack_from_nil.
Qed.

Lemma unpack_single `{Platform} (t : cstruct_type_t) (e : cstruct_endian_t)
    (src : mem) (srclen : Z) :
  is_integer t || is_float t || is_block t = true ->
  Z.of_nat (elem_size t) <= srclen <= SIZE_MAX -> srclen <= Z.of_nat (length src) ->
  cstruct_unpack_v src srclen (single_token e t)
  = Some (Some (Z.of_nat (elem_size t)), [decode t e (slice 0 (elem_size t) src)]).
Proof.
  intros Ht Hlen Hm. pose proof (elem_size_bound t) as Hn.
  change (cstruct_unpack_v src srclen (single_token e t))
    with (unpack_from src srclen 0 CSTRUCT_ENDIAN_LITTLE (single_token e t) []).
  rewrite (unpack_from_step _ _ _ _ _ _ _ _ _
             (parse_single_token CSTRUCT_ENDIAN_LITTLE e t Ht)).
  cbn [size count token_of]. rewrite bounds_check_passes by lia.
  rewrite unpack_token_value by (cbn [type count token_of]; auto; lia).
  cbn [type endian token_of]. now rewrite unpack_from_nil.
Qed.

Lemma length_encode `{Platform} (t : cstruct_type_t) (e : cstruct_endian_t) (v : Z) :
  length (encode t e v) = elem_size t.
Proof. unfold encode. destruct t; apply length_wire. Qed.

Lemma to_signed_small (w v : Z) :
  0 < w -> - 2 ^ (w - 1) <= v < 2 ^ (w - 1) -> to_signed w (v mod 2 ^ w) = v.
Proof.
  intros Hw Hv. unfold to_signed.
  assert (H2 : 2 ^ w = 2 * 2 ^ (w - 1)).
  { rewrite <- Z.pow_succ_r by lia. f_equal. lia. }
  rewrite Zplus_mod_idemp_l. rewrite Z.mod_small by lia. lia.
Qed.

Lemma signed_back (n : nat) (v : Z) :
  (0 < n)%nat ->
  - 2 ^ (8 * Z.of_nat n - 1) <= v <= 2 ^ (8 * Z.of_nat n - 1) - 1 ->
  to_signed (8 * Z.of_nat n) (v mod 2 ^ (Z.of_nat n * 8)) = v.
Proof.
  intros Hn Hv. rewrite (Z.mul_comm (Z.of_nat n) 8).
  apply to_signed_small; lia.
Qed.

Lemma unsigned_back (n : nat) (v : Z) :
  0 <= v <= 2 ^ (8 * Z.of_nat n) - 1 -> v mod 2 ^ (Z.of_nat n * 8) = v.
Proof.
  intros Hv. rewrite (Z.mul_comm (Z.of_nat n) 8). apply Z.mod_small. lia.
Qed.

(** What is read back from the decoded encoding of a value. *)
Lemma read_back_value `{Platform} (t : cstruct_type_t) (e : cstruct_endian_t)
    (a : arg) (v : Z) :
  passes t a -> by_value t a = Some v ->
  (t = CSTRUCT_TYPE_FLOAT16 -> CSTRUCT_IS_BIG_ENDIAN = false) ->
  read_back t (decode t e (encode t e v)) = a.
Proof.
  intros Hp Ha Hle. unfold read_back.
  destruct a as [v'|bits|blk]; cbn [passes] in Hp.
  - (* an integer *)
    destruct Hp as [Ht Hv].
    unfold by_value in Ha. rewrite Ht in Ha. inversion Ha; subst v'; clear Ha.
    assert (Hd : decode t e (encode t e v) = object (elem_size t) v).
    { unfold decode, encode.
      destruct t; try discriminate Ht; apply host_to_wire_wire. }
    rewrite Hd, object_value_object.
    unfold int_min, int_max in Hv.
    destruct t; try discriminate Ht; cbn [is_block is_float is_signed elem_size] in *;
      f_equal;
      first [ apply signed_back; [lia|exact Hv]
            | apply unsigned_back; exact Hv ].
  - (* a floating-point number *)
    unfold by_value in Ha.
    destruct t; try contradiction Hp; cbn [is_integer] in Ha;
      inversion Ha; subst bits; clear Ha;
      cbn [is_block is_float decode encode elem_size].
    + (* binary16 *)
      destruct Hp as (h & Hh & ->). specialize (Hle eq_refl).
      rewrite host_to_wire_wire, !object_value_object.
      rewrite cstruct_float_to_half_of_half by assumption.
      rewrite (Z.mod_small h) by exact Hh.
      rewrite cstruct_half_to_float_exact by assumption.
      f_equal. apply Z.mod_small. now apply half_as_float_range.
    + rewrite host_to_wire_wire, object_value_object. f_equal.
      now apply Z.mod_small.
    + rewrite host_to_wire_wire, object_value_object. f_equal.
      now apply Z.mod_small.
  - (* a pointer: passed by value it is no scalar *)
    unfold by_value in Ha. destruct (is_integer t); discriminate Ha.
Qed.

(** Where the round trip holds.  For every scalar type and both
    endiannesses, packing one value with the format of the one token and
    unpacking the bytes written with the same format stores, in the
    destination variable, the value that was packed, bit for bit: every
    integer of the range of the type (so 0, the minimum, the maximum and
    -1), every binary32 and binary64 pattern (so every NaN, infinity and
    subnormal), every 16-byte block of the 128-bit types and, on a host
    where [CSTRUCT_IS_BIG_ENDIAN] is 0, every binary32 number that is
    exactly a binary16 number.  The restriction to such a host for [e] is
    needed, as the last theorem of this part shows. *)
Theorem roundtrip_single_token `{Platform} (t : cstruct_type_t)
    (e : cstruct_endian_t) (a : arg) (dstlen : Z) (m : mem) :
  passes t a ->
  (t = CSTRUCT_TYPE_FLOAT16 -> CSTRUCT_IS_BIG_ENDIAN = false) ->
  Z.of_nat (elem_size t) <= dstlen <= SIZE_MAX ->
  dstlen <= Z.of_nat (length m) ->
  exists m' obj,
    cstruct_pack_v dstlen (single_token e t) [a] m
      = Some (Some (Z.of_nat (elem_size t)), m')
    /\ cstruct_unpack_v m' dstlen (single_token e t)
      = Some (Some (Z.of_nat (elem_size t)), [obj])
    /\ read_back t obj = a.
Proof.
  intros Hp Hle Hlen Hm.
  destruct (is_block t) eqn:Hblock.
  - (* the 128-bit types *)
    destruct a as [v|bits|blk]; cbn [passes] in Hp.
    + destruct Hp as [Ht _]. destruct t; discriminate.
    + destruct t; try contradiction Hp; discriminate.
    + destruct Hp as [_ Hblk].
      assert (Hsz : elem_size t = 16%nat) by (destruct t; try discriminate; reflexivity).
      rewrite Hsz in *.
      exists (splice 0 (host_to_wire e blk) m), blk.
      split; [now apply pack_single_block|]. split.
      * assert (Hlen' : length (splice 0 (host_to_wire e blk) m) = length m).
        { apply length_splice; rewrite ?length_host_to_wire, ?Hblk; lia. }
        rewrite unpack_single.
        -- rewrite Hsz. do 3 f_equal.
           replace 16%nat with (length (host_to_wire e blk))
             by (now rewrite length_host_to_wire).
           rewrite slice_splice by (rewrite ?length_host_to_wire, ?Hblk; lia).
           unfold decode. destruct t; try discriminate; apply host_to_wire_involutive.
        -- rewrite Hblock. apply orb_true_r.
        -- rewrite Hsz. lia.
        -- rewrite Hlen'. lia.
      * unfold read_back. now rewrite Hblock.
  - (* the types passed by value *)
    assert (Hv : exists v, by_value t a = Some v
                           /\ is_integer t || is_float t = true).
    { unfold by_value. destruct a as [v|bits|blk]; cbn [passes] in Hp.
      - destruct Hp as [-> _]. eauto.
      - exists bits. destruct t; try contradiction Hp; auto.
      - destruct Hp as [Hb _]. congruence. }
    destruct Hv as (v & Ha & Ht).
    exists (splice 0 (encode t e v) m), (decode t e (encode t e v)).
    split; [now apply pack_single|]. split.
    + assert (Hlen' : length (splice 0 (encode t e v) m) = length m).
      { apply length_splice; rewrite ?length_encode; lia. }
      rewrite unpack_single.
      * do 3 f_equal. rewrite <- (length_encode t e v) at 1.
        rewrite slice_splice by (rewrite ?length_encode; lia). reflexivity.
      * now rewrite Ht.
      * lia.
      * rewrite Hlen'. lia.
    + now apply read_back_value.
Qed.

Lemma roundtrip_single_token_witness :
  exists m' obj,
    @cstruct_pack_v arm32 2 (single_token CSTRUCT_ENDIAN_BIG CSTRUCT_TYPE_INT16)
       [arg_int (-1)] [Byte.x00; Byte.x00]
      = Some (Some 2, m')
    /\ @cstruct_unpack_v arm32 m' 2 (single_token CSTRUCT_ENDIAN_BIG CSTRUCT_TYPE_INT16)
      = Some (Some 2, [obj])
    /\ @read_back arm32 CSTRUCT_TYPE_INT16 obj = arg_int (-1).
Proof.
  apply (@roundtrip_single_token arm32 CSTRUCT_TYPE_INT16 CSTRUCT_ENDIAN_BIG
           (arg_int (-1)) 2 [Byte.x00; Byte.x00]).
  - split; [reflexivity|]. vm_compute. split; discriminate.
  - discriminate.
  - vm_compute. split; discriminate.
  - vm_compute. discriminate.
Defined.

(** C1.  The round trip of a binary16 value fails on a big-endian host.
    Under [#if CSTRUCT_IS_BIG_ENDIAN] the two half converters exchange the
    bytes of the pattern read from (written to) the [uint32_t] member of
    the union, which holds the pattern of the [float] whatever the byte
    order of the host.  So 1.0f (pattern 0x3F800000, the binary16 number
    0x3C00) is converted from 0x0000803F, whose exponent field is 0: both
    ["<e"] and [">e"] write the bytes 00 00 and unpack stores 0.0f, not
    1.0f.  On a little-endian host the same calls write 00 3C / 3C 00 and
    store 1.0f again. *)
Theorem roundtrip_float16_big_endian_host :
  passes CSTRUCT_TYPE_FLOAT16 (arg_fp 0x3F800000)
  /\ @cstruct_pack_v be32 2 "<e" [arg_fp 0x3F800000] [Byte.xaa; Byte.xaa]
     = Some (Some 2, [Byte.x00; Byte.x00])
  /\ @cstruct_unpack_v be32 [Byte.x00; Byte.x00] 2 "<e"
     = Some (Some 2, [[Byte.x00; Byte.x00; Byte.x00; Byte.x00]])
  /\ @cstruct_pack_v be32 2 ">e" [arg_fp 0x3F800000] [Byte.xaa; Byte.xaa]
     = Some (Some 2, [Byte.x00; Byte.x00])
  /\ @cstruct_unpack_v be32 [Byte.x00; Byte.x00] 2 ">e"
     = Some (Some 2, [[Byte.x00; Byte.x00; Byte.x00; Byte.x00]])
  /\ @read_back be32 CSTRUCT_TYPE_FLOAT16 [Byte.x00; Byte.x00; Byte.x00; Byte.x00]
     = arg_fp 0
  /\ arg_fp 0 <> arg_fp 0x3F800000
  /\ @cstruct_pack_v arm32 2 "<e" [arg_fp 0x3F800000] [Byte.xaa; Byte.xaa]
     = Some (Some 2, [Byte.x00; Byte.x3c])
  /\ @cstruct_unpack_v arm32 [Byte.x00; Byte.x3c] 2 "<e"
     = Some (Some 2, [[Byte.x00; Byte.x00; Byte.x80; Byte.x3f]])
  /\ @read_back arm32 CSTRUCT_TYPE_FLOAT16 [Byte.x00; Byte.x00; Byte.x80; Byte.x3f]
     = arg_fp 0x3F800000.
Proof.
  split.
  - exists 0x3C00. split; [lia|reflexivity].
  - repeat split; try (vm_compute; reflexivity).
    intros Heq. injection Heq. discriminate.
Qed.

(* ================================================================== *)
(** * Running the engine on a given format *)

Lemma splice_splice (p : Z) (bs1 bs2 : list byte) (m : mem) :
  0 <= p -> p + Z.of_nat (length bs1) <= Z.of_nat (length m) ->
  splice (p + Z.of_nat (length bs1)) bs2 (splice p bs1 m) = splice p (bs1 ++ bs2) m.
Proof.
  intros Hlo Hhi. unfold splice.
  assert (Hi : (Z.to_nat p + length bs1 <= length m)%nat) by lia.
  replace (Z.to_nat (p + Z.of_nat (length bs1)))
    with (Z.to_nat p + length bs1)%nat by lia.
  generalize dependent (Z.to_nat p). intros i Hi.
  set (C := drop (i + length bs1) m).
  assert (HA : length (take i m ++ bs1) = (i + length bs1)%nat)
    by (rewrite length_app, length_take; lia).
  assert (H1 : take (i + length bs1) (take i m ++ bs1 ++ C) = take i m ++ bs1).
  { rewrite app_assoc. apply take_app_length'. now rewrite HA. }
  assert (H2 : drop (i + length bs1 + length bs2) (take i m ++ bs1 ++ C)
               = drop (length bs2) C).
  { rewrite app_assoc, <- HA. apply drop_app_add. }
  rewrite H1, H2. unfold C. rewrite drop_drop, length_app, <- !app_assoc.
  now rewrite Nat.add_assoc.
Qed.

(** One round of [pack_from] / [unpack_from] / [get_ptr_from] on a format
    whose next token has a count that fits 16 bits: the parser is run with
    a [size_t] of 16 bits and its answer taken over. *)
Ltac parse_next :=
  apply parse_token_size16; vm_compute; reflexivity.

Ltac pack_round :=
  erewrite pack_from_step by parse_next; cbn [size count type endian].

Ltac unpack_round :=
  erewrite unpack_from_step by parse_next; cbn [size count type endian].

Ltac get_ptr_round :=
  erewrite get_ptr_from_step by parse_next; cbn [size count type endian].

(** C2.  On every platform and every destination large enough, packing
    0x12345678 with "<I" writes 78 56 34 12, with ">I" writes 12 34 56 78,
    and packing (0x1234, 0x5678) with "<H>H" writes 34 12 56 78: the
    running endianness applies per token. *)
Theorem pack_endianness `{Platform} (dstlen : Z) (m : mem) :
  4 <= dstlen <= SIZE_MAX -> dstlen <= Z.of_nat (length m) ->
  cstruct_pack_v dstlen "<I" [arg_int 0x12345678] m
    = Some (Some 4, splice 0 [Byte.x78; Byte.x56; Byte.x34; Byte.x12] m)
  /\ cstruct_pack_v dstlen ">I" [arg_int 0x12345678] m
    = Some (Some 4, splice 0 [Byte.x12; Byte.x34; Byte.x56; Byte.x78] m)
  /\ cstruct_pack_v dstlen "<H>H" [arg_int 0x1234; arg_int 0x5678] m
    = Some (Some 4, splice 0 [Byte.x34; Byte.x12; Byte.x56; Byte.x78] m).
Proof.
  intros Hlen Hm. split; [|split].
  - apply (pack_single CSTRUCT_TYPE_UINT32 CSTRUCT_ENDIAN_LITTLE
             (arg_int 0x12345678) 0x12345678 dstlen m); auto.
  - apply (pack_single CSTRUCT_TYPE_UINT32 CSTRUCT_ENDIAN_BIG
             (arg_int 0x12345678) 0x12345678 dstlen m); auto.
  - change (cstruct_pack_v dstlen "<H>H" [arg_int 0x1234; arg_int 0x5678] m)
      with (pack_from dstlen 0 CSTRUCT_ENDIAN_LITTLE "<H>H"
              [arg_int 0x1234; arg_int 0x5678] m).
    pack_round. rewrite bounds_check_passes by lia.
    rewrite (pack_token_value _ _ _ 0x1234) by (auto; simpl; lia).
    pack_round. rewrite bounds_check_passes by (simpl; lia).
    rewrite (pack_token_value _ _ _ 0x5678)
      by (auto; rewrite ?length_splice; simpl; lia).
    rewrite pack_from_nil. cbn [type endian elem_size].
    change (encode CSTRUCT_TYPE_UINT16 CSTRUCT_ENDIAN_LITTLE 0x1234)
      with [Byte.x34; Byte.x12].
    change (encode CSTRUCT_TYPE_UINT16 CSTRUCT_ENDIAN_BIG 0x5678)
      with [Byte.x56; Byte.x78].
    rewrite (splice_splice 0 [Byte.x34; Byte.x12]) by (simpl; lia).
    reflexivity.
Qed.

Lemma pack_endianness_witness :
  @cstruct_pack_v arm32 4 "<I" [arg_int 0x12345678] [Byte.x00; Byte.x00; Byte.x00; Byte.x00]
    = Some (Some 4, splice 0 [Byte.x78; Byte.x56; Byte.x34; Byte.x12]
                      [Byte.x00; Byte.x00; Byte.x00; Byte.x00])
  /\ @cstruct_pack_v arm32 4 ">I" [arg_int 0x12345678] [Byte.x00; Byte.x00; Byte.x00; Byte.x00]
    = Some (Some 4, splice 0 [Byte.x12; Byte.x34; Byte.x56; Byte.x78]
                      [Byte.x00; Byte.x00; Byte.x00; Byte.x00])
  /\ @cstruct_pack_v arm32 4 "<H>H" [arg_int 0x1234; arg_int 0x5678]
       [Byte.x00; Byte.x00; Byte.x00; Byte.x00]
    = Some (Some 4, splice 0 [Byte.x34; Byte.x12; Byte.x56; Byte.x78]
                      [Byte.x00; Byte.x00; Byte.x00; Byte.x00]).
Proof.
  apply (@pack_endianness arm32 4 [Byte.x00; Byte.x00; Byte.x00; Byte.x00]).
  - vm_compute. split; discriminate.
  - vm_compute. discriminate.
Defined.

(* ================================================================== *)
(** * The bounds check of pack *)

(** When the size of the token, [size * count], fits [size_t], a token
    that does not fit what is left of the destination makes pack return
    [NULL], and the buffer is as it was before the token. *)
Lemma pack_rejects_short_buffer `{Platform} (dstlen out : Z) (e : cstruct_endian_t)
    (fmt : string) (args : list arg) (m : mem) q tok e' :
  parse_token fmt e = Some (q, tok, e') ->
  size tok * count tok <= SIZE_MAX ->
  0 <= out <= dstlen -> dstlen <= SIZE_MAX ->
  dstlen - out < size tok * count tok ->
  pack_from dstlen out e fmt args m = Some (None, m).
Proof.
  intros Hp Hfit Hout Hlen Hshort.
  rewrite (pack_from_step _ _ _ _ _ _ _ _ _ Hp).
  apply parse_token_spec in Hp. destruct Hp as (Hok & _).
  assert (0 <= size tok * count tok).
  { destruct Hok as [Hc Hs]. destruct (type tok); nia. }
  rewrite !size_t_small by lia.
  now replace (dstlen - out <? size tok * count tok) with true
    by (symmetry; apply Z.ltb_lt; lia).
Qed.

(** With a destination of 3 bytes, "I" fails and writes nothing. *)
Lemma pack_rejects_I_in_3_bytes `{Platform} (args : list arg) (m : mem) :
  cstruct_pack_v 3 "I" args m = Some (None, m).
Proof.
  pose proof SIZE_MAX_lower as HS.
  apply (pack_rejects_short_buffer 3 0 CSTRUCT_ENDIAN_LITTLE "I" args m
           "" (token_of CSTRUCT_ENDIAN_LITTLE CSTRUCT_TYPE_UINT32)
           CSTRUCT_ENDIAN_LITTLE);
    [reflexivity|simpl; lia..].
Qed.

(** C3 (failing input).  The product [tok.size * tok.count] of the check
    is computed in [size_t] and wraps around.  Where [size_t] has 32 bits,
    the token of "2147483648H" has size 2 and count 2147483648; the product
    is 0, so [3 < 0] does not reject the token although it needs 2^32 bytes
    and 3 are left.  The loop then runs: it writes the first element into
    the destination (34 12) and leaves the buffer with the second: the run
    has no defined behaviour, and is not the [NULL] with an untouched
    buffer.  The same happens with "32768H" where [size_t] has 16 bits and
    with "9223372036854775808H" where it has 64. *)
Theorem pack_count_overflow :
  let dst := [Byte.xaa; Byte.xaa; Byte.xaa] in
  let arr := [Byte.x34; Byte.x12; Byte.x78; Byte.x56] in
  @parse_token arm32 "2147483648H" CSTRUCT_ENDIAN_LITTLE
    = Some (EmptyString,
            {| type := CSTRUCT_TYPE_UINT16; endian := CSTRUCT_ENDIAN_LITTLE;
               size := 2; count := 2147483648 |},
            CSTRUCT_ENDIAN_LITTLE)
  /\ (@size_t arm32 (3 - 0) <? @size_t arm32 (2 * 2147483648)) = false
  /\ pack_array 1 0 (@element arm32 arr 2) (@cstruct_pack_uint16_le arm32) 0 dst
     = Some (2, [Byte.x34; Byte.x12; Byte.xaa])
  /\ @cstruct_pack_v arm32 3 "2147483648H" [arg_ptr arr] dst = None
  /\ @cstruct_pack_v size16 3 "32768H" [arg_ptr arr] dst = None
  /\ @cstruct_pack_v host64 3 "9223372036854775808H" [arg_ptr arr] dst = None.
Proof. lazy. repeat split; reflexivity. Qed.

(* ================================================================== *)
(** * The field locator *)

(** For "HBI" and a buffer of at least 7 bytes, field 2 is at offset 3. *)
Lemma get_ptr_HBI `{Platform} (srclen : Z) :
  7 <= srclen <= SIZE_MAX -> cstruct_get_ptr srclen "HBI" 2 = Some 3.
Proof.
  intros Hlen. pose proof SIZE_MAX_lower as HS.
  change (cstruct_get_ptr srclen "HBI" 2)
    with (get_ptr_from srclen 0 CSTRUCT_ENDIAN_LITTLE "HBI" 2 0).
  do 3 get_ptr_round. rewrite !size_t_small by lia.
  repeat match goal with
         | |- context [?a <? ?b] =>
             replace (a <? b) with false by (symmetry; apply Z.ltb_ge; lia)
         end.
  reflexivity.
Qed.

Lemma tokens_from_cons `{Platform} (e : cstruct_endian_t) (fmt : string) tok toks :
  tokens_from e fmt = Some (tok :: toks) ->
  exists q e', parse_token fmt e = Some (q, tok, e') /\ tokens_from e' q = Some toks.
Proof.
  intros Htoks.
  destruct (parse_token fmt e) as [[[q tok'] e']|] eqn:Hp.
  - rewrite (tokens_from_step _ _ _ _ _ Hp) in Htoks.
    destruct (tokens_from e' q) as [toks'|] eqn:Hq; [|discriminate].
    inversion Htoks; subst. eauto.
  - destruct fmt as [|c fmt]; [discriminate|].
    unfold tokens_from in Htoks. cbn [String.length tokens_loop] in Htoks.
    rewrite Hp in Htoks. discriminate.
Qed.

(** What [cstruct_get_ptr] returns: the sum of the sizes of the tokens
    before the field.  It is the offset of the field in the packed buffer
    when these tokens have count one. *)
Lemma get_ptr_from_offset `{Platform} (srclen index : Z) :
  srclen <= SIZE_MAX -> index <= SIZE_MAX ->
  forall (k : nat) (toks : list cstruct_token_t) (fmt : string)
         (e : cstruct_endian_t) (in_ current_index : Z),
    tokens_from e fmt = Some toks ->
    0 <= in_ -> 0 <= current_index -> index = current_index + Z.of_nat k ->
    fields_fit srclen in_ k toks ->
    get_ptr_from srclen in_ e fmt index current_index
    = Some (in_ + field_offset k toks).
Proof.
  intros Hsrc Hidx. induction k as [|k IH];
    intros toks fmt e in_ cur Htoks Hin Hcur Hk Hfit;
    (destruct toks as [|tok toks]; [contradiction|]);
    destruct Hfit as [Hfit0 Hfit];
    destruct (tokens_from_cons _ _ _ _ Htoks) as (q & e' & Hp & Hq);
    rewrite (get_ptr_from_step _ _ _ _ _ _ _ _ _ Hp);
    apply parse_token_spec in Hp; destruct Hp as ((Hc & Hsz) & _);
    assert (Hpos : 0 <= size tok) by (destruct (type tok); lia);
    rewrite size_t_small by lia;
    replace (srclen - in_ <? size tok) with false by (symmetry; apply Z.ltb_ge; lia).
  - replace (cur =? index) with true by (symmetry; apply Z.eqb_eq; lia).
    simpl. f_equal. lia.
  - replace (cur =? index) with false by (symmetry; apply Z.eqb_neq; lia).
    rewrite size_t_small by lia.
    rewrite (IH toks q e' (in_ + size tok) (cur + 1)); auto; try lia.
    simpl. f_equal. lia.
Qed.

(** C4 (failing input).  [cstruct_get_ptr] advances by [tok.size] where
    the engine advances by [tok.size * tok.count]: for "2HI" it puts field
    1, the token after the array of two 16-bit elements, at offset 2, in
    the middle of the array; pack and unpack put it at offset 4.  Its
    bounds check compares with [tok.size] too: with "4I" and 5 bytes it
    returns offset 0 for a field of 16 bytes that unpack rejects. *)
Theorem get_ptr_ignores_count :
  @cstruct_get_ptr arm32 8 "2HI" 1 = Some 2
  /\ @cstruct_get_ptr host64 8 "2HI" 1 = Some 2
  /\ @cstruct_pack_v arm32 8 "2HI"
       [arg_ptr [Byte.x01; Byte.x00; Byte.x02; Byte.x00]; arg_int 0x11223344]
       (repeat Byte.x00 8)
     = Some (Some 8, [Byte.x01; Byte.x00; Byte.x02; Byte.x00;
                      Byte.x44; Byte.x33; Byte.x22; Byte.x11])
  /\ @cstruct_get_ptr arm32 5 "4I" 0 = Some 0
  /\ @cstruct_unpack_v arm32 (repeat Byte.x00 5) 5 "4I" = Some (None, []).
Proof. vm_compute. repeat split; reflexivity. Qed.

(* ================================================================== *)
(** * Endianness markers at the end of the format *)

Lemma parse_token_markers `{Platform} (mk : string) (e : cstruct_endian_t) :
  markers mk = true -> parse_token mk e = None.
Proof.
  revert e. induction mk as [|c mk IH]; intros e Hmk; [reflexivity|].
  simpl in Hmk. apply andb_true_iff in Hmk. destruct Hmk as [Hc Hmk].
  rewrite parse_token_cons.
  destruct (Ascii.eqb c "<"); [now apply IH|].
  destruct (Ascii.eqb c ">"); [now apply IH|discriminate].
Qed.

Lemma parse_count_app `{Platform} (p s : string) (c n : Z) (t : ascii) (q : string) :
  parse_count p c = Some (n, String t q) ->
  parse_count (p ++ s) c = Some (n, (String t q ++ s)%string).
Proof.
  revert c. induction p as [|ch p IH]; intros c Hp; [discriminate|].
  simpl in Hp |- *. destruct (isdigit ch).
  - destruct (_ || _); [discriminate|]. now apply IH.
  - inversion Hp; subst. reflexivity.
Qed.

Lemma parse_token_app `{Platform} (p s : string) (e : cstruct_endian_t) q tok e' :
  parse_token p e = Some (q, tok, e') ->
  parse_token (p ++ s) e = Some ((q ++ s)%string, tok, e').
Proof.
  revert e. induction p as [|ch p IH]; intros e Hp; [discriminate|].
  change ((String ch p ++ s)%string) with (String ch (p ++ s)).
  rewrite parse_token_cons in Hp |- *.
  destruct (Ascii.eqb ch "<"); [now apply IH|].
  destruct (Ascii.eqb ch ">"); [now apply IH|].
  unfold parse_repeat in Hp |- *.
  destruct (isdigit ch).
  - destruct (parse_count (String ch p) 0) as [[n r]|] eqn:Hc; [|discriminate].
    destruct r as [|t r]; [discriminate|].
    change (String ch (p ++ s)) with ((String ch p ++ s)%string).
    rewrite (parse_count_app _ s _ _ _ _ Hc).
    cbn [parse_type append] in Hp |- *.
    destruct (type_letter t) as [[[ty sz] []]|]; inversion Hp; subst; reflexivity.
  - cbn [parse_type] in Hp |- *.
    destruct (type_letter ch) as [[[ty sz] []]|]; inversion Hp; subst; reflexivity.
Qed.

Lemma markers_nonempty (mk : string) :
  mk <> EmptyString -> forall fmt, (fmt ++ mk)%string <> EmptyString.
Proof. intros Hne [|c fmt]; simpl; [exact Hne|discriminate]. Qed.

Lemma pack_from_trailing_markers `{Platform} (mk : string) (dstlen : Z) :
  markers mk = true -> mk <> EmptyString ->
  forall (k : nat) (fmt : string) (out : Z) (e : cstruct_endian_t)
         (args : list arg) (m : mem) (n : Z) (m' : mem),
    (String.length fmt <= k)%nat ->
    pack_from dstlen out e fmt args m = Some (Some n, m') ->
    pack_from dstlen out e (fmt ++ mk) args m = Some (None, m').
Proof.
  intros Hmk Hne. induction k as [|k IH]; intros fmt out e args m n m' Hk Hrun.
  - destruct fmt; [|simpl in Hk; lia].
    rewrite pack_from_nil in Hrun. inversion Hrun; subst.
    apply pack_from_null; [exact Hne|now apply parse_token_markers].
  - destruct (parse_token fmt e) as [[[q tok] e']|] eqn:Hp.
    + rewrite (pack_from_step _ _ _ _ _ _ _ _ _ Hp) in Hrun.
      rewrite (pack_from_step _ _ _ _ _ _ _ _ _ (parse_token_app _ mk _ _ _ _ Hp)).
      destruct (_ <? _); [discriminate|].
      destruct (pack_token tok out args m) as [[[out' args'] m1]|]; [|discriminate].
      apply (IH q _ _ _ _ n); [|exact Hrun].
      apply parse_token_spec in Hp. lia.
    + destruct fmt as [|c fmt].
      * rewrite pack_from_nil in Hrun. inversion Hrun; subst.
        apply pack_from_null; [exact Hne|now apply parse_token_markers].
      * rewrite pack_from_null in Hrun by (auto; discriminate). discriminate.
Qed.

Lemma unpack_from_trailing_markers `{Platform} (mk : string) (src : mem) (srclen : Z) :
  markers mk = true -> mk <> EmptyString ->
  forall (k : nat) (fmt : string) (in_ : Z) (e : cstruct_endian_t)
         (written : list (list byte)) (n : Z) (outs : list (list byte)),
    (String.length fmt <= k)%nat ->
    unpack_from src srclen in_ e fmt written = Some (Some n, outs) ->
    unpack_from src srclen in_ e (fmt ++ mk) written = Some (None, outs).
Proof.
  intros Hmk Hne. induction k as [|k IH]; intros fmt in_ e written n outs Hk Hrun.
  - destruct fmt; [|simpl in Hk; lia].
    rewrite unpack_from_nil in Hrun. inversion Hrun; subst.
    apply unpack_from_null; [exact Hne|now apply parse_token_markers].
  - destruct (parse_token fmt e) as [[[q tok] e']|] eqn:Hp.
    + rewrite (unpack_from_step _ _ _ _ _ _ _ _ _ Hp) in Hrun.
      rewrite (unpack_from_step _ _ _ _ _ _ _ _ _ (parse_token_app _ mk _ _ _ _ Hp)).
      destruct (_ <? _); [discriminate|].
      destruct (unpack_token tok src in_) as [[in' ds]|]; [|discriminate].
      apply (IH q _ _ _ n); [|exact Hrun].
      apply parse_token_spec in Hp. lia.
    + destruct fmt as [|c fmt].
      * rewrite unpack_from_nil in Hrun. inversion Hrun; subst.
        apply unpack_from_null; [exact Hne|now apply parse_token_markers].
      * rewrite unpack_from_null in Hrun by (auto; discriminate). discriminate.
Qed.

(** C5 (counterexample).  With "I<", pack writes the integer and returns
    [NULL], where with "I" it returns the position 4; unpack stores the
    integer and returns [NULL] as well. *)
Lemma trailing_marker_counterexample :
  let dst := repeat Byte.x00 4 in
  @cstruct_pack_v arm32 4 "I<" [arg_int 1] dst
    = Some (None, [Byte.x01; Byte.x00; Byte.x00; Byte.x00])
  /\ @cstruct_pack_v arm32 4 "I" [arg_int 1] dst
    = Some (Some 4, [Byte.x01; Byte.x00; Byte.x00; Byte.x00])
  /\ @cstruct_pack_v arm32 4 "I<" [arg_int 1] dst
     <> @cstruct_pack_v arm32 4 "I" [arg_int 1] dst
  /\ @cstruct_unpack_v arm32 [Byte.x01; Byte.x00; Byte.x00; Byte.x00] 4 "I<"
    = Some (None, [[Byte.x01; Byte.x00; Byte.x00; Byte.x00]])
  /\ @cstruct_unpack_v arm32 [Byte.x01; Byte.x00; Byte.x00; Byte.x00] 4 "I"
    = Some (Some 4, [[Byte.x01; Byte.x00; Byte.x00; Byte.x00]]).
Proof. vm_compute. repeat split; try reflexivity. discriminate. Qed.

(** C5 (amended).  A format that ends with one or more endianness markers
    fails: where pack (unpack) succeeds on a format, it returns [NULL] on
    that format followed by markers, after it has processed the tokens
    (the bytes written, the values stored, are those of the run without
    the markers).  [parse_token] returns [NULL] when it reaches the end of
    the string, markers skipped or not. *)
Theorem trailing_markers_fail `{Platform} (fmt mk : string) :
  markers mk = true -> mk <> EmptyString ->
  (forall dstlen args m n m',
      cstruct_pack_v dstlen fmt args m = Some (Some n, m') ->
      cstruct_pack_v dstlen (fmt ++ mk) args m = Some (None, m'))
  /\ (forall src srclen n outs,
      cstruct_unpack_v src srclen fmt = Some (Some n, outs) ->
      cstruct_unpack_v src srclen (fmt ++ mk) = Some (None, outs)).
Proof.
  intros Hmk Hne. split.
  - intros dstlen args m n m' Hrun.
    exact (pack_from_trailing_markers mk dstlen Hmk Hne (String.length fmt) fmt 0
             CSTRUCT_ENDIAN_LITTLE args m n m' (Nat.le_refl _) Hrun).
  - intros src srclen n outs Hrun.
    exact (unpack_from_trailing_markers mk src srclen Hmk Hne (String.length fmt) fmt 0
             CSTRUCT_ENDIAN_LITTLE [] n outs (Nat.le_refl _) Hrun).
Qed.

Lemma trailing_markers_fail_witness :
  (forall dstlen args m n m',
      @cstruct_pack_v arm32 dstlen "I" args m = Some (Some n, m') ->
      @cstruct_pack_v arm32 dstlen "I<>" args m = Some (None, m'))
  /\ (forall src srclen n outs,
      @cstruct_unpack_v arm32 src srclen "I" = Some (Some n, outs) ->
      @cstruct_unpack_v arm32 src srclen "I<>" = Some (None, outs)).
Proof.
  apply (@trailing_markers_fail arm32 "I" "<>").
  - reflexivity.
  - discriminate.
Defined.

(* ================================================================== *)
(** * NaN and infinity in [cstruct_float_to_half] *)

Lemma special_half_sign (bits : Z) :
  half_sign (uint16 (Z.lor (Z.lor (Z.land (Z.shiftr bits 16) 0x8000) 0x7C00)
                           (Z.land (Z.shiftr bits 13) 0x3FF)))
  = float_sign bits.
Proof.
  unfold half_sign, float_sign, uint16. rewrite <- Z.land_ones by lia.
  change 0x8000 with (Z.shiftl (Z.ones 1) 15).
  change 0x7C00 with (Z.shiftl (Z.ones 5) 10).
  change 0x3FF with (Z.ones 10).
  change (Z.land (Z.shiftr bits 31) 1) with (Z.land (Z.shiftr bits 31) (Z.ones 1)).
  match goal with
  | |- Z.land ?x 1 = _ => change (Z.land x 1) with (Z.land x (Z.ones 1))
  end.
  Z.bitblast.
Qed.

Lemma special_half_expo (bits : Z) :
  half_expo (uint16 (Z.lor (Z.lor (Z.land (Z.shiftr bits 16) 0x8000) 0x7C00)
                           (Z.land (Z.shiftr bits 13) 0x3FF)))
  = 0x1F.
Proof.
  unfold half_expo, uint16. rewrite <- Z.land_ones by lia.
  change 0x8000 with (Z.shiftl (Z.ones 1) 15).
  change 0x7C00 with (Z.shiftl (Z.ones 5) 10).
  change 0x3FF with (Z.ones 10). change 0x1F with (Z.ones 5).
  Z.bitblast.
Qed.

Lemma special_half_frac (bits : Z) :
  half_frac (uint16 (Z.lor (Z.lor (Z.land (Z.shiftr bits 16) 0x8000) 0x7C00)
                           (Z.land (Z.shiftr bits 13) 0x3FF)))
  = Z.land (Z.shiftr bits 13) 0x3FF.
Proof.
  unfold half_frac, uint16. rewrite <- Z.land_ones by lia.
  change 0x8000 with (Z.shiftl (Z.ones 1) 15).
  change 0x7C00 with (Z.shiftl (Z.ones 5) 10).
  change 0x3FF with (Z.ones 10).
  Z.bitblast.
Qed.

Lemma special_half_fields (bits : Z) :
  let r := uint16 (Z.lor (Z.lor (Z.land (Z.shiftr bits 16) 0x8000) 0x7C00)
                         (Z.land (Z.shiftr bits 13) 0x3FF)) in
  half_sign r = float_sign bits
  /\ half_expo r = 0x1F
  /\ half_frac r = Z.land (Z.shiftr bits 13) 0x3FF.
Proof.
  cbv zeta.
  auto using special_half_sign, special_half_expo, special_half_frac.
Qed.

Lemma top_fraction_of_zero (bits : Z) :
  Z.land bits 0x7FFFFF = 0 -> Z.land (Z.shiftr bits 13) 0x3FF = 0.
Proof.
  intros Hz.
  assert (He : Z.land (Z.shiftr bits 13) 0x3FF = Z.shiftr (Z.land bits 0x7FFFFF) 13).
  { change 0x3FF with (Z.ones 10). change 0x7FFFFF with (Z.ones 23). Z.bitblast. }
  rewrite He, Hz. reflexivity.
Qed.

(** On a little-endian host, for a binary32 pattern whose exponent field
    is all ones (NaN or infinity): the sign bit is kept, the exponent
    field of the result is all ones, and its fraction is the top 10 bits of
    the fraction given. *)
Lemma cstruct_float_to_half_special `{Platform} (bits : Z) :
  CSTRUCT_IS_BIG_ENDIAN = false -> float_expo bits = 0xFF ->
  half_sign (cstruct_float_to_half bits) = float_sign bits
  /\ half_expo (cstruct_float_to_half bits) = 0x1F
  /\ half_frac (cstruct_float_to_half bits) = Z.land (Z.shiftr bits 13) 0x3FF.
Proof.
  intros Hle He. unfold float_expo in He.
  unfold cstruct_float_to_half. rewrite Hle, He.
  change (255 - 127 + 15 <=? 0) with false.
  change (255 - 127 + 15 >=? 31) with true. cbv iota.
  destruct (Z.eqb_spec (Z.land bits 0x7FFFFF) 0) as [Hz|Hnz]; cbn [negb].
  - replace (uint16 (Z.lor (Z.land (Z.shiftr bits 16) 0x8000) 0x7C00))
      with (uint16 (Z.lor (Z.lor (Z.land (Z.shiftr bits 16) 0x8000) 0x7C00)
                          (Z.land (Z.shiftr bits 13) 0x3FF)))
      by (now rewrite (top_fraction_of_zero bits Hz), Z.lor_0_r).
    apply special_half_fields.
  - apply special_half_fields.
Qed.

(** So a NaN is turned into a NaN when one of the top 10 bits of its
    fraction is set, and into an infinity when its payload lies in the low
    13 bits. *)
Lemma cstruct_float_to_half_nan `{Platform} (bits : Z) :
  CSTRUCT_IS_BIG_ENDIAN = false -> float_is_nan bits ->
  (Z.land (Z.shiftr bits 13) 0x3FF <> 0 -> half_is_nan (cstruct_float_to_half bits))
  /\ (Z.land (Z.shiftr bits 13) 0x3FF = 0 -> half_is_inf (cstruct_float_to_half bits)).
Proof.
  intros Hle [He _].
  destruct (cstruct_float_to_half_special bits Hle He) as (_ & Hexp & Hfrac).
  unfold half_is_nan, half_is_inf. rewrite Hexp, Hfrac. tauto.
Qed.

(** An infinity is turned into the infinity of its sign. *)
Lemma cstruct_float_to_half_inf `{Platform} (bits : Z) :
  CSTRUCT_IS_BIG_ENDIAN = false -> float_expo bits = 0xFF -> float_frac bits = 0 ->
  cstruct_float_to_half bits = Z.lor (Z.land (Z.shiftr bits 16) 0x8000) 0x7C00.
Proof.
  intros Hle He Hz. unfold float_expo, float_frac in *.
  unfold cstruct_float_to_half. rewrite Hle, He, Hz.
  change (255 - 127 + 15 <=? 0) with false.
  change (255 - 127 + 15 >=? 31) with true. cbv iota. cbn [Z.eqb negb].
  unfold uint16. rewrite <- Z.land_ones by lia.
  change 0x8000 with (Z.shiftl (Z.ones 1) 15).
  change 0x7C00 with (Z.shiftl (Z.ones 5) 10).
  Z.bitblast.
Qed.

(** C6 (failing input).  The binary32 pattern 7F800001 is a NaN (exponent
    field all ones, fraction 1).  [cstruct_float_to_half] takes the branch
    commented NaN and returns [sign | 0x7C00 | ((bits >> 13) & 0x3FF)],
    which is 7C00: the fraction is zero, the result is the infinity and no
    NaN.  The same for FF800001 and FC00, and for every NaN whose payload
    lies in the low 13 bits. *)
Theorem nan_becomes_infinity :
  float_is_nan 0x7F800001
  /\ @cstruct_float_to_half arm32 0x7F800001 = 0x7C00
  /\ half_is_inf (@cstruct_float_to_half arm32 0x7F800001)
  /\ ~ half_is_nan (@cstruct_float_to_half arm32 0x7F800001)
  /\ float_is_nan 0xFF800001
  /\ @cstruct_float_to_half arm32 0xFF800001 = 0xFC00
  /\ @cstruct_float_to_half host64 0x7F800001 = 0x7C00.
Proof.
  unfold float_is_nan, half_is_inf, half_is_nan. vm_compute.
  repeat split; try reflexivity; try discriminate.
  intros [_ Hn]. now apply Hn.
Qed.

(* ================================================================== *)
(** * String tokens *)

Lemma strlen_bound (s : list byte) (len : Z) :
  strlen s = Some len -> 0 <= len < Z.of_nat (length s).
Proof.
  revert len. induction s as [|b s IH]; intros len Hs; simpl in Hs; [discriminate|].
  destruct (byte.unsigned b =? 0).
  - inversion Hs; subst. simpl. lia.
  - destruct (strlen s) as [k|]; [|discriminate].
    inversion Hs; subst. specialize (IH k eq_refl). simpl length. lia.
Qed.

(** [cstruct_pack_string] writes exactly [size] bytes: the first
    [min (strlen value) size] bytes of the string, then zeros. *)
Lemma cstruct_pack_string_spec (dst : Z) (value : list byte) (size : Z) (m : mem)
    (len : Z) :
  strlen value = Some len ->
  0 <= size -> 0 <= dst -> dst + size <= Z.of_nat (length m) ->
  cstruct_pack_string dst value size m
  = Some (dst + size,
          splice dst (take (Z.to_nat (Z.min len size)) value
                      ++ repeat Byte.x00 (Z.to_nat (size - Z.min len size))) m).
Proof.
  intros Hs Hsize Hlo Hhi. pose proof (strlen_bound _ _ Hs) as Hlen.
  unfold cstruct_pack_string. rewrite Hs. unfold bind.
  assert (Hcopy : (if len <? size then len else size) = Z.min len size).
  { destruct (Z.ltb_spec len size); lia. }
  rewrite Hcopy. set (copy_len := Z.min len size) in *.
  assert (Hc : 0 <= copy_len <= size) by lia.
  rewrite memcpy_spec by lia.
  assert (Hlt : length (take (Z.to_nat copy_len) value) = Z.to_nat copy_len)
    by (rewrite length_take; lia).
  destruct (Z.ltb_spec copy_len size) as [Hless|Hfull].
  - rewrite memset_spec by (rewrite ?length_splice; lia).
    unfold ret. do 2 f_equal.
    replace (dst + copy_len)
      with (dst + Z.of_nat (length (take (Z.to_nat copy_len) value))) by lia.
    apply splice_splice; lia.
  - unfold ret. replace (size - copy_len) with 0 by lia.
    simpl repeat. now rewrite app_nil_r.
Qed.

(** C7.  For every string token, of width [size tok], that fits the
    destination: pack copies the first [min (strlen source) (size tok)]
    bytes of the source, fills up to the width with zeros, writes nothing
    else, and goes on at [out + size tok] with the rest of the format,
    whatever the length of the source.  So packing "Hi" with "5s" writes
    48 69 00 00 00. *)
Theorem pack_string_token `{Platform} :
  (forall dstlen out e fmt q tok e' str args m len,
      parse_token fmt e = Some (q, tok, e') ->
      type tok = CSTRUCT_TYPE_STRING ->
      strlen str = Some len ->
      0 <= out -> out + size tok <= dstlen -> dstlen <= SIZE_MAX ->
      dstlen <= Z.of_nat (length m) ->
      pack_from dstlen out e fmt (arg_ptr str :: args) m
      = pack_from dstlen (out + size tok) e' q args
          (splice out (take (Z.to_nat (Z.min len (size tok))) str
                       ++ repeat Byte.x00 (Z.to_nat (size tok - Z.min len (size tok))))
                  m))
  /\ (forall dstlen m,
      5 <= dstlen <= SIZE_MAX -> dstlen <= Z.of_nat (length m) ->
      cstruct_pack_v dstlen "5s" [arg_ptr [Byte.x48; Byte.x69; Byte.x00]] m
      = Some (Some 5,
              splice 0 [Byte.x48; Byte.x69; Byte.x00; Byte.x00; Byte.x00] m)).
Proof.
  assert (Hgen : forall dstlen out e fmt q tok e' str args m len,
      parse_token fmt e = Some (q, tok, e') ->
      type tok = CSTRUCT_TYPE_STRING ->
      strlen str = Some len ->
      0 <= out -> out + size tok <= dstlen -> dstlen <= SIZE_MAX ->
      dstlen <= Z.of_nat (length m) ->
      pack_from dstlen out e fmt (arg_ptr str :: args) m
      = pack_from dstlen (out + size tok) e' q args
          (splice out (take (Z.to_nat (Z.min len (size tok))) str
                       ++ repeat Byte.x00 (Z.to_nat (size tok - Z.min len (size tok))))
                  m)).
  { intros dstlen out e fmt q tok e' str args m len Hp Hty Hs Hlo Hfit Hlen Hm.
    rewrite (pack_from_step _ _ _ _ _ _ _ _ _ Hp).
    apply parse_token_spec in Hp. destruct Hp as ((Hc & Hsz) & _).
    rewrite Hty in Hsz. destruct Hsz as [Hc1 Hsz]. rewrite Hc1.
    rewrite bounds_check_passes by lia.
    unfold pack_token. rewrite Hty. unfold bind.
    rewrite (cstruct_pack_string_spec _ _ _ _ len) by (auto; lia).
    reflexivity. }
  split; [exact Hgen|].
  intros dstlen m Hlen Hm.
  change (cstruct_pack_v dstlen "5s" [arg_ptr [Byte.x48; Byte.x69; Byte.x00]] m)
    with (pack_from dstlen 0 CSTRUCT_ENDIAN_LITTLE "5s"
            [arg_ptr [Byte.x48; Byte.x69; Byte.x00]] m).
  erewrite (Hgen dstlen 0 CSTRUCT_ENDIAN_LITTLE "5s"%string _ _ _ _ _ _ 2);
    [|parse_next|reflexivity|reflexivity|simpl; lia..].
  reflexivity.
Qed.

Lemma pack_string_token_witness :
  @pack_from arm32 8 3 CSTRUCT_ENDIAN_LITTLE "2sB"
     [arg_ptr [Byte.x48; Byte.x69; Byte.x21; Byte.x00]; arg_int 7] (repeat Byte.xaa 8)
  = @pack_from arm32 8 5 CSTRUCT_ENDIAN_LITTLE "B" [arg_int 7]
      [Byte.xaa; Byte.xaa; Byte.xaa; Byte.x48; Byte.x69; Byte.xaa; Byte.xaa; Byte.xaa]
  /\ @cstruct_pack_v arm32 5 "5s" [arg_ptr [Byte.x48; Byte.x69; Byte.x00]] (repeat Byte.xaa 5)
     = Some (Some 5, [Byte.x48; Byte.x69; Byte.x00; Byte.x00; Byte.x00]).
Proof.
  split.
  - apply (proj1 (@pack_string_token arm32) 8 3 CSTRUCT_ENDIAN_LITTLE "2sB"%string "B"%string
             {| type := CSTRUCT_TYPE_STRING; endian := CSTRUCT_ENDIAN_LITTLE;
                size := 2; count := 1 |}
             CSTRUCT_ENDIAN_LITTLE
             [Byte.x48; Byte.x69; Byte.x21; Byte.x00] [arg_int 7] (repeat Byte.xaa 8) 3);
      vm_compute; try reflexivity; discriminate.
  - apply (proj2 (@pack_string_token arm32) 5 (repeat Byte.xaa 5));
      vm_compute; try split; discriminate.
Defined.

(* ================================================================== *)
(** * Padding tokens *)

(** C8.  For every padding token that fits the destination, pack goes on
    at [out + size tok * count tok] with the buffer and the arguments it
    had: no byte is written, none is read.  So with "I4xI" and the values
    (1, 2), the bytes at 0..3 and 8..11 receive the two integers and the
    bytes at 4..7 are what they were: four AA stay four AA. *)
Theorem pack_padding_token `{Platform} :
  (forall dstlen out e fmt q tok e' args m,
      parse_token fmt e = Some (q, tok, e') ->
      type tok = CSTRUCT_TYPE_PADDING ->
      0 <= out -> out + size tok * count tok <= dstlen -> dstlen <= SIZE_MAX ->
      pack_from dstlen out e fmt args m
      = pack_from dstlen (out + size tok * count tok) e' q args m)
  /\ (forall dstlen m,
      12 <= dstlen <= SIZE_MAX -> dstlen <= Z.of_nat (length m) ->
      cstruct_pack_v dstlen "I4xI" [arg_int 1; arg_int 2] m
      = Some (Some 12,
              [Byte.x01; Byte.x00; Byte.x00; Byte.x00] ++ slice 4 4 m
              ++ [Byte.x02; Byte.x00; Byte.x00; Byte.x00] ++ drop 12 m)).
Proof.
  assert (Hgen : forall dstlen out e fmt q tok e' args m,
      parse_token fmt e = Some (q, tok, e') ->
      type tok = CSTRUCT_TYPE_PADDING ->
      0 <= out -> out + size tok * count tok <= dstlen -> dstlen <= SIZE_MAX ->
      pack_from dstlen out e fmt args m
      = pack_from dstlen (out + size tok * count tok) e' q args m).
  { intros dstlen out e fmt q tok e' args m Hp Hty Hlo Hfit Hlen.
    rewrite (pack_from_step _ _ _ _ _ _ _ _ _ Hp).
    apply parse_token_spec in Hp. destruct Hp as ((Hc & Hsz) & _).
    rewrite Hty in Hsz. destruct Hsz as [Hc1 Hsz]. rewrite Hc1 in *.
    rewrite bounds_check_passes by lia.
    unfold pack_token. rewrite Hty, Hc1. unfold ret, cstruct_pack_padding.
    rewrite Z.mul_1_r, size_t_small by lia. reflexivity. }
  split; [exact Hgen|].
  intros dstlen m Hlen Hm.
  change (cstruct_pack_v dstlen "I4xI" [arg_int 1; arg_int 2] m)
    with (pack_from dstlen 0 CSTRUCT_ENDIAN_LITTLE "I4xI" [arg_int 1; arg_int 2] m).
  pack_round. rewrite bounds_check_passes by lia.
  rewrite (pack_token_value _ _ _ 1) by (auto; simpl; lia).
  cbn [type endian elem_size].
  erewrite Hgen; [|parse_next|reflexivity|simpl; lia..].
  cbn [size count].
  pack_round. rewrite bounds_check_passes by (simpl; lia).
  rewrite (pack_token_value _ _ _ 2) by (auto; rewrite ?length_splice; simpl; lia).
  rewrite pack_from_nil. cbn [type endian elem_size].
  change (encode CSTRUCT_TYPE_UINT32 CSTRUCT_ENDIAN_LITTLE 1)
    with [Byte.x01; Byte.x00; Byte.x00; Byte.x00].
  change (encode CSTRUCT_TYPE_UINT32 CSTRUCT_ENDIAN_LITTLE 2)
    with [Byte.x02; Byte.x00; Byte.x00; Byte.x00].
  do 2 f_equal. clear Hgen.
  do 12 (destruct m as [|? m]; [simpl in Hm; lia|]).
  reflexivity.
Qed.

Lemma pack_padding_token_witness :
  @pack_from arm32 8 3 CSTRUCT_ENDIAN_LITTLE "2xB" [arg_int 7] (repeat Byte.xaa 8)
  = @pack_from arm32 8 5 CSTRUCT_ENDIAN_LITTLE "B" [arg_int 7] (repeat Byte.xaa 8)
  /\ @cstruct_pack_v arm32 12 "I4xI" [arg_int 1; arg_int 2] (repeat Byte.xaa 12)
     = Some (Some 12,
             [Byte.x01; Byte.x00; Byte.x00; Byte.x00;
              Byte.xaa; Byte.xaa; Byte.xaa; Byte.xaa;
              Byte.x02; Byte.x00; Byte.x00; Byte.x00]).
Proof.
  split.
  - apply (proj1 (@pack_padding_token arm32) 8 3 CSTRUCT_ENDIAN_LITTLE "2xB"%string "B"%string
             {| type := CSTRUCT_TYPE_PADDING; endian := CSTRUCT_ENDIAN_LITTLE;
                size := 2; count := 1 |}
             CSTRUCT_ENDIAN_LITTLE [arg_int 7] (repeat Byte.xaa 8));
      vm_compute; try reflexivity; discriminate.
  - apply (proj2 (@pack_padding_token arm32) 12 (repeat Byte.xaa 12));
      vm_compute; try split; discriminate.
Defined.

(* ================================================================== *)
(** * The empty format *)

(** C9.  With the empty format, for every capacity (zero too), every
    argument list and every buffer, [cstruct_pack] returns the start of the
    destination and leaves the buffer as it is, and [cstruct_unpack]
    returns the start of the source and stores nothing. *)
Theorem empty_format `{Platform} (len : Z) (args : list arg) (m : mem) :
  cstruct_pack len "" args m = Some (Some 0, m)
  /\ cstruct_unpack m len "" = Some (Some 0, []).
Proof. split; reflexivity. Qed.

(* ================================================================== *)
(** * Pack and unpack advance alike *)

Lemma bind_ret_inv {A} (c : M unit) (a : A) (m m' : mem) (r : A) :
  bind c (fun _ => ret a) m = Some (r, m') -> r = a.
Proof.
  unfold bind, ret. destruct (c m) as [[[] m1]|]; [|discriminate].
  now inversion 1.
Qed.

Lemma pack_prim_advance `{Platform} (t : cstruct_type_t) (e : cstruct_endian_t)
    (dst v : Z) (m m' : mem) (r : Z) :
  is_integer t || is_float t = true ->
  pack_prim t e dst v m = Some (r, m') -> r = dst + Z.of_nat (elem_size t).
Proof.
  intros Ht Hrun.
  destruct t; try discriminate Ht; destruct e;
    exact (bind_ret_inv _ _ _ _ _ Hrun).
Qed.

Lemma pack_block_prim_advance `{Platform} (t : cstruct_type_t) (e : cstruct_endian_t)
    (dst : Z) (blk : list byte) (m m' : mem) (r : Z) :
  is_block t = true ->
  pack_block_prim t e dst blk m = Some (r, m') -> r = dst + Z.of_nat (elem_size t).
Proof.
  intros Ht Hrun.
  destruct t; try discriminate Ht; destruct e;
    exact (bind_ret_inv _ _ _ _ _ Hrun).
Qed.

Lemma pack_array_advance {A} (k : Z) (elem : Z -> option A) (pack1 : Z -> A -> M Z) :
  (forall out v m r m', pack1 out v m = Some (r, m') -> r = out + k) ->
  forall (n : nat) (i out : Z) (m m' : mem) (r : Z),
    pack_array n i elem pack1 out m = Some (r, m') -> r = out + Z.of_nat n * k.
Proof.
  intros Hstep. induction n as [|n IH]; intros i out m m' r Hrun; simpl in Hrun.
  - inversion Hrun. lia.
  - destruct (elem i) as [v|]; [|discriminate].
    unfold bind in Hrun.
    destruct (pack1 out v m) as [[out1 m1]|] eqn:H1; [|discriminate].
    apply Hstep in H1. apply IH in Hrun. lia.
Qed.

Lemma cstruct_pack_string_advance (dst : Z) (value : list byte) (size : Z)
    (m m' : mem) (r : Z) :
  cstruct_pack_string dst value size m = Some (r, m') -> r = dst + size.
Proof.
  unfold cstruct_pack_string. destruct (strlen value) as [len|]; [|discriminate].
  unfold bind, ret.
  destruct (memcpy _ _ _ m) as [[[] m1]|]; [|discriminate].
  destruct (_ <? size).
  - destruct (memset _ _ _ m1) as [[[] m2]|]; [|discriminate]. now inversion 1.
  - now inversion 1.
Qed.

(** A token of the parser moves pack by [size * count]. *)
Lemma pack_token_advance `{Platform} (tok : cstruct_token_t) (out : Z)
    (args args' : list arg) (m m' : mem) (out' : Z) :
  token_ok tok ->
  pack_token tok out args m = Some ((out', args'), m') ->
  out' = out + size tok * count tok.
Proof.
  intros [Hc Hsz] Hrun.
  destruct (is_integer (type tok) || is_float (type tok)) eqn:Hscalar;
    [|destruct (is_block (type tok)) eqn:Hblock].
  - (* passed by value, or an array of such *)
    assert (Hsize : size tok = Z.of_nat (elem_size (type tok)))
      by (destruct (type tok); try discriminate Hscalar; exact Hsz).
    rewrite pack_token_scalar in Hrun by exact Hscalar.
    unfold pack_scalar in Hrun.
    rewrite (select_prim (pack_prim (type tok))) in Hrun.
    destruct (Z.gtb_spec (count tok) 1) as [Hmany|Hone].
    + destruct args as [|[v|bits|arr] args0]; try discriminate Hrun.
      unfold bind in Hrun.
      destruct (pack_array _ _ _ _ _ m) as [[r m1]|] eqn:Harr; [|discriminate].
      inversion Hrun; subst.
      apply (pack_array_advance (Z.of_nat (elem_size (type tok)))) in Harr.
      * rewrite Harr, Hsize. lia.
      * intros. eapply pack_prim_advance; eauto.
    + destruct args as [|a args0]; [discriminate|].
      destruct (by_value (type tok) a) as [v|]; [|discriminate].
      unfold bind in Hrun.
      destruct (pack_prim _ _ _ _ m) as [[r m1]|] eqn:H1; [|discriminate].
      inversion Hrun; subst.
      apply pack_prim_advance in H1; [|exact Hscalar].
      rewrite H1, Hsize. replace (count tok) with 1 by lia. lia.
  - (* the 128-bit types *)
    assert (Hsize : size tok = Z.of_nat (elem_size (type tok)))
      by (destruct (type tok); try discriminate Hblock; exact Hsz).
    rewrite pack_token_block in Hrun by exact Hblock.
    unfold pack_block in Hrun.
    rewrite (select_prim (pack_block_prim (type tok))) in Hrun.
    destruct args as [|[v|bits|arr] args0]; try discriminate Hrun.
    destruct (Z.gtb_spec (count tok) 1) as [Hmany|Hone]; unfold bind in Hrun.
    + destruct (pack_array _ _ _ _ _ m) as [[r m1]|] eqn:Harr; [|discriminate].
      inversion Hrun; subst.
      apply (pack_array_advance (Z.of_nat (elem_size (type tok)))) in Harr.
      * rewrite Harr, Hsize. lia.
      * intros. eapply pack_block_prim_advance; eauto.
    + destruct (pack_block_prim _ _ _ _ m) as [[r m1]|] eqn:H1; [|discriminate].
      inversion Hrun; subst.
      apply pack_block_prim_advance in H1; [|exact Hblock].
      rewrite H1, Hsize. replace (count tok) with 1 by lia. lia.
  - (* string and padding *)
    unfold pack_token in Hrun.
    destruct (type tok); try discriminate Hscalar; try discriminate Hblock;
      destruct Hsz as [Hc1 Hs]; rewrite Hc1 in *.
    + unfold ret in Hrun. inversion Hrun; subst. unfold cstruct_pack_padding.
      rewrite Z.mul_1_r, size_t_small by lia. reflexivity.
    + destruct args as [|[v|bits|str] args0]; try discriminate Hrun.
      unfold bind in Hrun.
      destruct (cstruct_pack_string _ _ _ m) as [[r m1]|] eqn:H1; [|discriminate].
      inversion Hrun; subst. apply cstruct_pack_string_advance in H1. lia.
Qed.

Lemma unpack_prim_advance `{Platform} (t : cstruct_type_t) (e : cstruct_endian_t)
    (buf : mem) (src : Z) (d : list byte) (r : Z) :
  is_integer t || is_float t || is_block t = true ->
  unpack_prim t e buf src = Some (d, r) -> r = src + Z.of_nat (elem_size t).
Proof.
  intros Ht.
  destruct t; try discriminate Ht; destruct e; cbn [unpack_prim elem_size];
    unfold cstruct_unpack_int8, cstruct_unpack_uint8,
      cstruct_unpack_int16_le, cstruct_unpack_int16_be,
      cstruct_unpack_uint16_le, cstruct_unpack_uint16_be,
      cstruct_unpack_int32_le, cstruct_unpack_int32_be,
      cstruct_unpack_uint32_le, cstruct_unpack_uint32_be,
      cstruct_unpack_int64_le, cstruct_unpack_int64_be,
      cstruct_unpack_uint64_le, cstruct_unpack_uint64_be,
      cstruct_unpack_uint128_le, cstruct_unpack_uint128_be,
      cstruct_unpack_int128_le, cstruct_unpack_int128_be,
      cstruct_unpack_float16_le, cstruct_unpack_float16_be,
      cstruct_unpack_float32_le, cstruct_unpack_float32_be,
      cstruct_unpack_float64_le, cstruct_unpack_float64_be;
    match goal with
    | |- match ?x with _ => _ end = _ -> _ => destruct x; [|discriminate]
    end; now inversion 1.
Qed.

Lemma unpack_array_advance (k : Z) (unpack1 : Z -> option (list byte * Z)) :
  (forall src d r, unpack1 src = Some (d, r) -> r = src + k) ->
  forall (n : nat) (in_ : Z) (ds : list byte) (r : Z),
    unpack_array n unpack1 in_ = Some (ds, r) -> r = in_ + Z.of_nat n * k.
Proof.
  intros Hstep. induction n as [|n IH]; intros in_ ds r Hrun; simpl in Hrun.
  - inversion Hrun. lia.
  - destruct (unpack1 in_) as [[d in1]|] eqn:H1; [|discriminate].
    destruct (unpack_array n unpack1 in1) as [[ds1 in2]|] eqn:H2; [|discriminate].
    inversion Hrun; subst. apply Hstep in H1. apply IH in H2. lia.
Qed.

(** A token of the parser moves unpack by [size * count]. *)
Lemma unpack_token_advance `{Platform} (tok : cstruct_token_t) (buf : mem)
    (in_ in' : Z) (ds : list (list byte)) :
  token_ok tok ->
  unpack_token tok buf in_ = Some (in', ds) ->
  in' = in_ + size tok * count tok.
Proof.
  intros [Hc Hsz] Hrun.
  destruct (is_integer (type tok) || is_float (type tok) || is_block (type tok))
    eqn:Hscalar.
  - assert (Hsize : size tok = Z.of_nat (elem_size (type tok)))
      by (destruct (type tok); try discriminate Hscalar; exact Hsz).
    rewrite unpack_token_scalar in Hrun by exact Hscalar.
    unfold unpack_scalar in Hrun.
    rewrite (select_prim (fun e => unpack_prim (type tok) e buf)) in Hrun.
    destruct (Z.gtb_spec (count tok) 1) as [Hmany|Hone].
    + destruct (unpack_array _ _ _) as [[d r]|] eqn:Harr; [|discriminate].
      inversion Hrun; subst.
      apply (unpack_array_advance (Z.of_nat (elem_size (type tok)))) in Harr.
      * rewrite Harr, Hsize. lia.
      * intros. eapply unpack_prim_advance; eauto.
    + destruct (unpack_prim _ _ _ _) as [[d r]|] eqn:H1; [|discriminate].
      inversion Hrun; subst.
      apply unpack_prim_advance in H1; [|exact Hscalar].
      rewrite H1, Hsize. replace (count tok) with 1 by lia. lia.
  - unfold unpack_token in Hrun.
    destruct (type tok); try discriminate Hscalar;
      destruct Hsz as [Hc1 Hs]; rewrite Hc1 in *.
    + inversion Hrun; subst. rewrite Z.mul_1_r, size_t_small by lia. reflexivity.
    + unfold cstruct_unpack_string in Hrun.
      destruct (gather _ _ _); [|discriminate]. inversion Hrun; subst. lia.
Qed.

Lemma pack_from_advance `{Platform} (dstlen : Z) :
  forall (k : nat) (fmt : string) (out : Z) (e : cstruct_endian_t)
         (args : list arg) (m : mem) (n : Z) (m' : mem),
    (String.length fmt <= k)%nat ->
    pack_from dstlen out e fmt args m = Some (Some n, m') ->
    exists toks, tokens_from e fmt = Some toks /\ n = out + total_bytes toks.
Proof.
  induction k as [|k IH]; intros fmt out e args m n m' Hk Hrun.
  - destruct fmt; [|simpl in Hk; lia].
    rewrite pack_from_nil in Hrun. inversion Hrun; subst.
    exists []. split; [reflexivity|]. simpl. lia.
  - destruct fmt as [|c fmt].
    { rewrite pack_from_nil in Hrun. inversion Hrun; subst.
      exists []. split; [reflexivity|]. simpl. lia. }
    destruct (parse_token (String c fmt) e) as [[[q tok] e']|] eqn:Hp.
    + rewrite (pack_from_step _ _ _ _ _ _ _ _ _ Hp) in Hrun.
      rewrite (tokens_from_step _ _ _ _ _ Hp).
      apply parse_token_spec in Hp. destruct Hp as (Hok & _ & Hlen).
      destruct (_ <? _); [discriminate|].
      destruct (pack_token tok out args m) as [[[out' args'] m1]|] eqn:Htok;
        [|discriminate].
      apply pack_token_advance in Htok; [|exact Hok].
      apply IH in Hrun; [|simpl in *; lia].
      destruct Hrun as (toks & -> & ->).
      exists (tok :: toks). split; [reflexivity|].
      unfold total_bytes, token_bytes. simpl. lia.
    + rewrite pack_from_null in Hrun by (auto; discriminate). discriminate.
Qed.

Lemma unpack_from_advance `{Platform} (src : mem) (srclen : Z) :
  forall (k : nat) (fmt : string) (in_ : Z) (e : cstruct_endian_t)
         (written : list (list byte)) (n : Z) (outs : list (list byte)),
    (String.length fmt <= k)%nat ->
    unpack_from src srclen in_ e fmt written = Some (Some n, outs) ->
    exists toks, tokens_from e fmt = Some toks /\ n = in_ + total_bytes toks.
Proof.
  induction k as [|k IH]; intros fmt in_ e written n outs Hk Hrun.
  - destruct fmt; [|simpl in Hk; lia].
    rewrite unpack_from_nil in Hrun. inversion Hrun; subst.
    exists []. split; [reflexivity|]. simpl. lia.
  - destruct fmt as [|c fmt].
    { rewrite unpack_from_nil in Hrun. inversion Hrun; subst.
      exists []. split; [reflexivity|]. simpl. lia. }
    destruct (parse_token (String c fmt) e) as [[[q tok] e']|] eqn:Hp.
    + rewrite (unpack_from_step _ _ _ _ _ _ _ _ _ Hp) in Hrun.
      rewrite (tokens_from_step _ _ _ _ _ Hp).
      apply parse_token_spec in Hp. destruct Hp as (Hok & _ & Hlen).
      destruct (_ <? _); [discriminate|].
      destruct (unpack_token tok src in_) as [[in' ds]|] eqn:Htok; [|discriminate].
      apply unpack_token_advance in Htok; [|exact Hok].
      apply IH in Hrun; [|simpl in *; lia].
      destruct Hrun as (toks & -> & ->).
      exists (tok :: toks). split; [reflexivity|].
      unfold total_bytes, token_bytes. simpl. lia.
    + rewrite unpack_from_null in Hrun by (auto; discriminate). discriminate.
Qed.

(** C10.  For every format on which pack and unpack both succeed, the two
    end positions are the same number of bytes after the start of their
    buffer: the sum, over the tokens of the format, of
    [element_size * repeat_count]. *)
Theorem pack_unpack_same_advance `{Platform} (fmt : string)
    (dstlen : Z) (args : list arg) (dst dst' : mem) (n : Z)
    (src : mem) (srclen : Z) (k : Z) (outs : list (list byte)) :
  cstruct_pack_v dstlen fmt args dst = Some (Some n, dst') ->
  cstruct_unpack_v src srclen fmt = Some (Some k, outs) ->
  n = k /\ exists toks, tokens fmt = Some toks /\ n = total_bytes toks.
Proof.
  intros Hpack Hunpack.
  apply (pack_from_advance dstlen (String.length fmt)) in Hpack; [|lia].
  apply (unpack_from_advance src srclen (String.length fmt)) in Hunpack; [|lia].
  destruct Hpack as (toks & Htoks & ->).
  destruct Hunpack as (toks' & Htoks' & ->).
  rewrite Htoks in Htoks'. inversion Htoks'; subst toks'.
  split; [reflexivity|]. exists toks. split; [exact Htoks|lia].
Qed.

Lemma pack_unpack_same_advance_witness :
  14 = 14
  /\ exists toks, @tokens arm32 ">H2i3x1s" = Some toks /\ 14 = total_bytes toks.
Proof.
  apply (@pack_unpack_same_advance arm32 ">H2i3x1s" 16
           [arg_int 0x1234;
            arg_ptr [Byte.x01; Byte.x00; Byte.x00; Byte.x00;
                     Byte.x02; Byte.x00; Byte.x00; Byte.x00];
            arg_ptr [Byte.x41; Byte.x00]]
           (repeat Byte.xaa 16)
           [Byte.x12; Byte.x34; Byte.x00; Byte.x00; Byte.x00; Byte.x01;
            Byte.x00; Byte.x00; Byte.x00; Byte.x02; Byte.xaa; Byte.xaa;
            Byte.xaa; Byte.x41; Byte.xaa; Byte.xaa]
           14 (repeat Byte.x55 14) 14 14
           [[Byte.x55; Byte.x55];
            [Byte.x55; Byte.x55; Byte.x55; Byte.x55;
             Byte.x55; Byte.x55; Byte.x55; Byte.x55];
            [Byte.x55; Byte.x00]]).
  - vm_compute. reflexivity.
  - vm_compute. reflexivity.
Defined.

(* ================================================================== *)
(** * The grammar of a token *)

Lemma decimal_le (s : string) (acc : Z) :
  digits s = true -> 0 <= acc -> acc <= decimal s acc.
Proof.
  revert acc. induction s as [|c s IH]; intros acc Hd Hacc; simpl in *; [lia|].
  apply andb_true_iff in Hd. destruct Hd as [Hc Hs].
  apply isdigit_digit in Hc. specialize (IH (acc * 10 + (Z.of_N (N_of_ascii c) - 48)) Hs).
  lia.
Qed.

Lemma type_letter_not_digit (c : ascii) r :
  type_letter c = Some r -> isdigit c = false.
Proof.
  destruct c as [[] [] [] [] [] [] [] []]; simpl; intros Hr;
    first [discriminate|reflexivity].
Qed.

Lemma type_letter_not_marker (c : ascii) r :
  type_letter c = Some r -> Ascii.eqb c "<" = false /\ Ascii.eqb c ">" = false.
Proof.
  destruct c as [[] [] [] [] [] [] [] []]; simpl; intros Hr;
    first [discriminate|split; reflexivity].
Qed.

Lemma isdigit_not_marker (c : ascii) :
  isdigit c = true -> Ascii.eqb c "<" = false /\ Ascii.eqb c ">" = false.
Proof.
  destruct c as [[] [] [] [] [] [] [] []]; simpl; intros Hr;
    first [discriminate|split; reflexivity].
Qed.

(** The digit loop reads all the digits when the number fits [size_t]. *)
Lemma parse_count_digits `{Platform} (ds : string) (c : ascii) (rest : string) (acc : Z) :
  digits ds = true -> isdigit c = false ->
  0 <= acc -> decimal ds acc <= SIZE_MAX ->
  parse_count (ds ++ String c rest) acc = Some (decimal ds acc, String c rest).
Proof.
  revert acc. induction ds as [|d ds IH]; intros acc Hd Hc Hacc Hfit; simpl in *.
  - now rewrite Hc.
  - apply andb_true_iff in Hd. destruct Hd as [Hd Hds]. rewrite Hd.
    pose proof (isdigit_digit _ Hd) as Hdig.
    pose proof (decimal_le ds (acc * 10 + (Z.of_N (N_of_ascii d) - 48)) Hds ltac:(lia)).
    replace ((acc >? CSTRUCT_DIV10_THRESHOLD)
             || ((acc =? CSTRUCT_DIV10_THRESHOLD)
                 && (Z.of_N (N_of_ascii d) - 48 >? CSTRUCT_DIV10_MAX_LAST_DIGIT)))
      with false by (symmetry; apply count_guard; lia).
    apply IH; auto; lia.
Qed.


(** It returns [NULL] when the number does not fit, whatever follows. *)
Lemma parse_count_overflow `{Platform} (ds rest : string) (acc : Z) :
  digits ds = true -> 0 <= acc <= SIZE_MAX -> SIZE_MAX < decimal ds acc ->
  parse_count (ds ++ rest) acc = None.
Proof.
  revert acc. induction ds as [|d ds IH]; intros acc Hd Hacc Hover; simpl in *; [lia|].
  apply andb_true_iff in Hd. destruct Hd as [Hd Hds]. rewrite Hd.
  pose proof (isdigit_digit _ Hd) as Hdig.
  destruct ((acc >? CSTRUCT_DIV10_THRESHOLD)
            || ((acc =? CSTRUCT_DIV10_THRESHOLD)
                && (Z.of_N (N_of_ascii d) - 48 >? CSTRUCT_DIV10_MAX_LAST_DIGIT))) eqn:Hg;
    [reflexivity|].
  apply count_guard in Hg; [|lia..].
  apply IH; auto; lia.
Qed.

Lemma parse_token_skip_markers `{Platform} (mk p : string) (e : cstruct_endian_t) :
  markers mk = true ->
  parse_token (mk ++ p) e = match p with
                            | EmptyString => None
                            | _ => parse_token p (after_markers mk e)
                            end.
Proof.
  revert e. induction mk as [|c mk IH]; intros e Hmk; simpl in Hmk.
  - simpl. now destruct p.
  - apply andb_true_iff in Hmk. destruct Hmk as [Hc Hmk].
    change (String c mk ++ p)%string with (String c (mk ++ p)%string).
    rewrite parse_token_cons. cbn [after_markers].
    destruct (Ascii.eqb c "<") eqn:Hlt.
    + apply Ascii.eqb_eq in Hlt. subst c. simpl. now apply IH.
    + simpl in Hc. rewrite Hc. now apply IH.
Qed.

Lemma parse_repeat_digits `{Platform} (ds : string) (c : ascii) (rest : string) :
  digits ds = true -> isdigit c = false -> decimal ds 0 <= SIZE_MAX ->
  parse_repeat (ds ++ String c rest) = Some (repeat_of ds, String c rest).
Proof.
  intros Hd Hc Hfit. destruct ds as [|d ds].
  - simpl. now rewrite Hc.
  - change (String d ds ++ String c rest)%string
      with (String d (ds ++ String c rest)%string).
    unfold parse_repeat. pose proof Hd as Hd'. simpl in Hd'.
    apply andb_true_iff in Hd'. destruct Hd' as [Hd' _]. rewrite Hd'.
    change (String d (ds ++ String c rest)%string)
      with (String d ds ++ String c rest)%string.
    now rewrite (parse_count_digits _ _ _ 0 Hd Hc (Z.le_refl 0) Hfit).
Qed.

(** X1.  The text of a token is: endianness markers, the last of which
    sets the endianness; decimal digits, which give the repeat count when
    the number fits [size_t] (none, or zero, count as one); a type letter.
    [parse_token] returns the position after the letter, the token and the
    endianness for the tokens that follow.  For [s] and [x] the number is
    the size of the token and the count is one. *)
Theorem parse_token_accepts `{Platform} (mk ds : string) (c : ascii) (rest : string)
    (e : cstruct_endian_t) (ty : cstruct_type_t) (sz : Z) (by_count : bool) :
  markers mk = true -> digits ds = true ->
  type_letter c = Some (ty, sz, by_count) ->
  decimal ds 0 <= SIZE_MAX ->
  parse_token (mk ++ ds ++ String c rest) e
  = Some (rest,
          {| type := ty; endian := after_markers mk e;
             size := if by_count then repeat_of ds else sz;
             count := if by_count then 1 else repeat_of ds |},
          after_markers mk e).
Proof.
  intros Hmk Hds Hc Hfit.
  pose proof (type_letter_not_digit _ _ Hc) as Hnd.
  pose proof (type_letter_not_marker _ _ Hc) as [Hlt Hgt].
  rewrite parse_token_skip_markers by assumption.
  destruct (ds ++ String c rest)%string as [|x p] eqn:Hp;
    [destruct ds; discriminate|].
  rewrite parse_token_cons.
  assert (Hx : Ascii.eqb x "<" = false /\ Ascii.eqb x ">" = false).
  { destruct ds as [|d ds]; simpl in Hp; inversion Hp; subst.
    - now split.
    - simpl in Hds. apply andb_true_iff in Hds. now apply isdigit_not_marker. }
  destruct Hx as [-> ->]. rewrite <- Hp.
  rewrite parse_repeat_digits by assumption.
  unfold parse_type. rewrite Hc. now destruct by_count.
Qed.

Lemma parse_token_accepts_witness :
  @parse_token arm32 ("<>" ++ "012" ++ String "s" "3H") CSTRUCT_ENDIAN_LITTLE
  = Some ("3H"%string,
          {| type := CSTRUCT_TYPE_STRING; endian := CSTRUCT_ENDIAN_BIG;
             size := 12; count := 1 |},
          CSTRUCT_ENDIAN_BIG).
Proof.
  exact (@parse_token_accepts arm32 "<>" "012" "s" "3H" CSTRUCT_ENDIAN_LITTLE
           CSTRUCT_TYPE_STRING 0 true eq_refl eq_refl eq_refl
           ltac:(vm_compute; discriminate)).
Defined.

Lemma parse_token_overflow `{Platform} (mk ds rest : string) (e : cstruct_endian_t) :
  markers mk = true -> digits ds = true -> SIZE_MAX < decimal ds 0 ->
  parse_token (mk ++ ds ++ rest) e = None.
Proof.
  intros Hmk Hds Hover. pose proof SIZE_MAX_lower as HS.
  rewrite parse_token_skip_markers by assumption.
  destruct ds as [|d ds]; [simpl in Hover; lia|].
  change (String d ds ++ rest)%string with (String d (ds ++ rest)%string).
  rewrite parse_token_cons.
  pose proof Hds as Hd. simpl in Hd. apply andb_true_iff in Hd. destruct Hd as [Hd _].
  destruct (isdigit_not_marker _ Hd) as [-> ->].
  unfold parse_repeat. rewrite Hd.
  change (String d (ds ++ rest)%string) with (String d ds ++ rest)%string.
  now rewrite (parse_count_overflow _ rest 0 Hds) by lia.
Qed.

(** X2.  A repeat count whose decimal value exceeds [SIZE_MAX] makes
    [parse_token] return [NULL], whatever follows the digits: the token is
    rejected, the count does not wrap around. *)
Theorem parse_token_count_overflow `{Platform} (mk ds rest : string)
    (e : cstruct_endian_t) :
  markers mk = true -> digits ds = true -> SIZE_MAX < decimal ds 0 ->
  parse_token (mk ++ ds ++ rest) e = None.
Proof. apply parse_token_overflow. Qed.

Lemma parse_token_count_overflow_witness :
  @parse_token arm32 ("<" ++ "4294967296" ++ "B") CSTRUCT_ENDIAN_LITTLE = None.
Proof.
  exact (@parse_token_count_overflow arm32 "<" "4294967296" "B" CSTRUCT_ENDIAN_LITTLE
           eq_refl eq_refl eq_refl).
Defined.



(** X4.  Every token [parse_token] yields has a size and a count between
    1 and [SIZE_MAX]; its size is the size of its type, except for [s] and
    [x], whose count is one; its endianness is the running endianness
    returned. The position returned is further in the format: at least
    one character is consumed, so the loops of the engine end. *)
Theorem parse_token_invariant `{Platform} (p : string) (e : cstruct_endian_t)
    (q : string) (tok : cstruct_token_t) (e' : cstruct_endian_t) :
  parse_token p e = Some (q, tok, e') ->
  1 <= size tok <= SIZE_MAX
  /\ 1 <= count tok <= SIZE_MAX
  /\ match type tok with
     | CSTRUCT_TYPE_PADDING | CSTRUCT_TYPE_STRING => count tok = 1
     | t => size tok = Z.of_nat (elem_size t)
     end
  /\ endian tok = e'
  /\ (String.length q < String.length p)%nat.
Proof.
  intros Hp. pose proof SIZE_MAX_lower as HS.
  apply parse_token_spec in Hp. destruct Hp as ((Hc & Ht) & He & Hlen).
  repeat split; try assumption; try lia;
    destruct (type tok); simpl in *; lia.
Qed.

Lemma parse_token_invariant_witness :
  1 <= 7 <= @SIZE_MAX arm32
  /\ 1 <= 1 <= @SIZE_MAX arm32
  /\ 1 = 1
  /\ CSTRUCT_ENDIAN_BIG = CSTRUCT_ENDIAN_BIG
  /\ (String.length "i" < String.length ">7xi")%nat.
Proof.
  exact (@parse_token_invariant arm32 ">7xi" CSTRUCT_ENDIAN_LITTLE "i"
           {| type := CSTRUCT_TYPE_PADDING; endian := CSTRUCT_ENDIAN_BIG;
              size := 7; count := 1 |} CSTRUCT_ENDIAN_BIG eq_refl).
Defined.

(* ================================================================== *)
(** * The running endianness *)

Lemma parse_count_no_marker `{Platform} (p : string) (c n : Z) (q : string) :
  no_marker p = true -> parse_count p c = Some (n, q) -> no_marker q = true.
Proof.
  revert c. induction p as [|x p IH]; intros c Hnm Hp; simpl in Hp.
  - now inversion Hp.
  - destruct (isdigit x).
    + destruct ((c >? CSTRUCT_DIV10_THRESHOLD)
                || ((c =? CSTRUCT_DIV10_THRESHOLD)
                    && (Z.of_N (N_of_ascii x) - 48 >? CSTRUCT_DIV10_MAX_LAST_DIGIT)));
        [discriminate|].
      simpl in Hnm. apply andb_true_iff in Hnm. destruct Hnm as [_ Hnm]. eauto.
    + now inversion Hp; subst.
Qed.

Lemma parse_token_no_marker `{Platform} (p : string) (e : cstruct_endian_t) q tok e' :
  no_marker p = true -> parse_token p e = Some (q, tok, e') ->
  e' = e /\ no_marker q = true.
Proof.
  intros Hnm Hp. destruct p as [|x p]; [discriminate|].
  rewrite parse_token_cons in Hp.
  pose proof Hnm as Hx. simpl in Hx. apply andb_true_iff in Hx. destruct Hx as [Hx _].
  apply negb_true_iff, orb_false_iff in Hx. destruct Hx as [Hlt Hgt].
  rewrite Hlt, Hgt in Hp.
  destruct (parse_repeat (String x p)) as [[n q0]|] eqn:Hr; [|discriminate].
  assert (Hq0 : no_marker q0 = true).
  { unfold parse_repeat in Hr. destruct (isdigit x).
    - destruct (parse_count (String x p) 0) as [[n0 q1]|] eqn:Hc; [|discriminate].
      inversion Hr; subst. eapply parse_count_no_marker; eauto.
    - now inversion Hr; subst. }
  apply parse_repeat_spec in Hr. destruct Hr as [Hn _].
  apply (parse_type_spec _ _ _ _ _ _ Hn) in Hp.
  destruct Hp as (_ & _ & He & Hq & _). split; [assumption|].
  subst q0. simpl in Hq0. apply andb_true_iff in Hq0. tauto.
Qed.

Lemma tokens_from_no_marker `{Platform} (k : nat) :
  forall (fmt : string) (e : cstruct_endian_t) (toks : list cstruct_token_t),
    (String.length fmt <= k)%nat -> no_marker fmt = true ->
    tokens_from e fmt = Some toks -> Forall (fun tok => endian tok = e) toks.
Proof.
  induction k as [|k IH]; intros fmt e toks Hk Hnm Htoks.
  - destruct fmt; [|simpl in Hk; lia]. inversion Htoks. constructor.
  - destruct toks as [|tok toks]; [constructor|].
    destruct (tokens_from_cons _ _ _ _ Htoks) as (q & e' & Hp & Hq).
    destruct (parse_token_no_marker _ _ _ _ _ Hnm Hp) as [-> Hnq].
    apply parse_token_spec in Hp. destruct Hp as (_ & He & Hlen).
    constructor; [assumption|].
    apply (IH q e toks); auto; lia.
Qed.

Lemma tokens_from_skip_markers `{Platform} (mk fmt : string) (e : cstruct_endian_t)
    (toks : list cstruct_token_t) :
  markers mk = true -> tokens_from e (mk ++ fmt) = Some toks -> toks <> [] ->
  tokens_from (after_markers mk e) fmt = Some toks.
Proof.
  intros Hmk Htoks Hne. destruct toks as [|tok toks]; [congruence|].
  destruct (tokens_from_cons _ _ _ _ Htoks) as (q & e' & Hp & Hq).
  rewrite parse_token_skip_markers in Hp by assumption.
  destruct fmt as [|x fmt]; [discriminate|].
  rewrite (tokens_from_step _ _ _ _ _ Hp), Hq. reflexivity.
Qed.

(** X5.  The endianness is little-endian until the first marker, and a
    marker holds for every token that follows until the next marker:
    when the format is a group of markers followed by tokens without
    markers, every token has the endianness of the last marker of the
    group (little-endian when the group is empty). *)
Theorem endianness_persists `{Platform} (mk fmt : string)
    (toks : list cstruct_token_t) :
  markers mk = true -> no_marker fmt = true ->
  tokens (mk ++ fmt) = Some toks ->
  Forall (fun tok => endian tok = after_markers mk CSTRUCT_ENDIAN_LITTLE) toks.
Proof.
  intros Hmk Hnm Htoks.
  destruct toks as [|tok toks]; [constructor|].
  apply (tokens_from_no_marker (String.length fmt) fmt); auto.
  apply tokens_from_skip_markers; [assumption| |discriminate].
  exact Htoks.
Qed.

Lemma endianness_persists_witness :
  Forall (fun tok => endian tok = CSTRUCT_ENDIAN_BIG)
    [ {| type := CSTRUCT_TYPE_UINT16; endian := CSTRUCT_ENDIAN_BIG; size := 2; count := 1 |};
      {| type := CSTRUCT_TYPE_INT32; endian := CSTRUCT_ENDIAN_BIG; size := 4; count := 2 |} ].
Proof.
  exact (@endianness_persists arm32 "<>" "H2i" _ eq_refl eq_refl eq_refl).
Defined.

(* ================================================================== *)
(** * The endian codec and the primitives *)

Lemma take_splice (p : Z) (bs : list byte) (m : mem) :
  0 <= p -> p + Z.of_nat (length bs) <= Z.of_nat (length m) ->
  take (Z.to_nat p) (splice p bs m) = take (Z.to_nat p) m.
Proof.
  intros Hp Hlen. unfold splice.
  rewrite take_app_length' by (rewrite length_take; lia). reflexivity.
Qed.

Lemma drop_splice (p : Z) (bs : list byte) (m : mem) :
  0 <= p -> p + Z.of_nat (length bs) <= Z.of_nat (length m) ->
  drop (Z.to_nat p + length bs) (splice p bs m) = drop (Z.to_nat p + length bs) m.
Proof.
  intros Hp Hlen. unfold splice.
  rewrite drop_app_add' by (rewrite length_take; lia).
  rewrite drop_app_length. reflexivity.
Qed.

Lemma host_to_wire_swap `{Platform} (obj : list byte) :
  host_to_wire CSTRUCT_ENDIAN_BIG (host_to_wire CSTRUCT_ENDIAN_LITTLE obj) = rev obj
  /\ host_to_wire CSTRUCT_ENDIAN_LITTLE (host_to_wire CSTRUCT_ENDIAN_BIG obj) = rev obj.
Proof.
  unfold host_to_wire. destruct CSTRUCT_IS_BIG_ENDIAN; auto.
Qed.

(** X6.  What [cstruct_store_le] / [cstruct_store_be] wrote,
    [cstruct_load_le] / [cstruct_load_be] reads back as the same object,
    for every size and on either host byte order; read with the other
    byte order it is the object byte-swapped.  A store changes the [size]
    bytes at [dst] and nothing else. *)
Theorem load_store_roundtrip `{Platform} (dst : Z) (obj : list byte) (m : mem) :
  0 <= dst -> dst + Z.of_nat (length obj) <= Z.of_nat (length m) ->
  let size := Z.of_nat (length obj) in
  (exists m', cstruct_store_le dst obj size m = Some (tt, m')
     /\ cstruct_load_le m' dst size = Some obj
     /\ cstruct_load_be m' dst size = Some (rev obj)
     /\ length m' = length m
     /\ take (Z.to_nat dst) m' = take (Z.to_nat dst) m
     /\ drop (Z.to_nat dst + length obj) m' = drop (Z.to_nat dst + length obj) m)
  /\ (exists m', cstruct_store_be dst obj size m = Some (tt, m')
     /\ cstruct_load_be m' dst size = Some obj
     /\ cstruct_load_le m' dst size = Some (rev obj)
     /\ length m' = length m
     /\ take (Z.to_nat dst) m' = take (Z.to_nat dst) m
     /\ drop (Z.to_nat dst + length obj) m' = drop (Z.to_nat dst + length obj) m).
Proof.
  intros Hlo Hhi size.
  destruct (host_to_wire_swap obj) as [Hlb Hbl].
  split.
  - exists (splice dst (host_to_wire CSTRUCT_ENDIAN_LITTLE obj) m).
    pose proof (length_host_to_wire CSTRUCT_ENDIAN_LITTLE obj) as Hl.
    assert (Hlen : length (splice dst (host_to_wire CSTRUCT_ENDIAN_LITTLE obj) m) = length m)
      by (apply length_splice; lia).
    split; [apply (store_wire CSTRUCT_ENDIAN_LITTLE); subst size; lia|].
    split; [|split; [|split; [assumption|split]]].
    + rewrite (load_wire CSTRUCT_ENDIAN_LITTLE) by (subst size; lia).
      subst size. rewrite Nat2Z.id, <- Hl, slice_splice by lia.
      now rewrite host_to_wire_involutive.
    + rewrite (load_wire CSTRUCT_ENDIAN_BIG) by (subst size; lia).
      subst size. rewrite Nat2Z.id, <- Hl, slice_splice by lia.
      now rewrite Hlb.
    + apply take_splice; lia.
    + rewrite <- Hl. apply drop_splice; lia.
  - exists (splice dst (host_to_wire CSTRUCT_ENDIAN_BIG obj) m).
    pose proof (length_host_to_wire CSTRUCT_ENDIAN_BIG obj) as Hl.
    assert (Hlen : length (splice dst (host_to_wire CSTRUCT_ENDIAN_BIG obj) m) = length m)
      by (apply length_splice; lia).
    split; [apply (store_wire CSTRUCT_ENDIAN_BIG); subst size; lia|].
    split; [|split; [|split; [assumption|split]]].
    + rewrite (load_wire CSTRUCT_ENDIAN_BIG) by (subst size; lia).
      subst size. rewrite Nat2Z.id, <- Hl, slice_splice by lia.
      now rewrite host_to_wire_involutive.
    + rewrite (load_wire CSTRUCT_ENDIAN_LITTLE) by (subst size; lia).
      subst size. rewrite Nat2Z.id, <- Hl, slice_splice by lia.
      now rewrite Hbl.
    + apply take_splice; lia.
    + rewrite <- Hl. apply drop_splice; lia.
Qed.

Lemma load_store_roundtrip_witness :
  let obj := [Byte.x01; Byte.x02; Byte.x03] in
  let m := repeat Byte.xaa 5 in
  (exists m', @cstruct_store_le be32 1 obj 3 m = Some (tt, m')
     /\ @cstruct_load_le be32 m' 1 3 = Some obj
     /\ @cstruct_load_be be32 m' 1 3 = Some (rev obj)
     /\ length m' = length m
     /\ take (Z.to_nat 1) m' = take (Z.to_nat 1) m
     /\ drop (Z.to_nat 1 + length obj) m' = drop (Z.to_nat 1 + length obj) m)
  /\ (exists m', @cstruct_store_be be32 1 obj 3 m = Some (tt, m')
     /\ @cstruct_load_be be32 m' 1 3 = Some obj
     /\ @cstruct_load_le be32 m' 1 3 = Some (rev obj)
     /\ length m' = length m
     /\ take (Z.to_nat 1) m' = take (Z.to_nat 1) m
     /\ drop (Z.to_nat 1 + length obj) m' = drop (Z.to_nat 1 + length obj) m).
Proof.
  apply (@load_store_roundtrip be32 1 [Byte.x01; Byte.x02; Byte.x03] (repeat Byte.xaa 5));
    simpl; lia.
Defined.

Lemma cast_in_range (t : cstruct_type_t) (v : Z) :
  is_integer t = true -> int_min t <= v <= int_max t -> cast t v = v.
Proof.
  intros Ht Hv.
  destruct t; try discriminate; try reflexivity;
    unfold int_min, int_max in Hv; simpl in Hv;
    unfold cast, to_signed, to_unsigned; simpl.
  - rewrite Z.mod_small; lia.
  - rewrite Z.mod_small; lia.
  - rewrite Z.mod_small; lia.
  - rewrite Z.mod_small; lia.
Qed.

(** X7.  The wire format of the numeric primitives does not depend on
    the byte order of the host: for every integer type, [float] and
    [double], [cstruct_pack_<type>_le] writes the bytes of the value least
    significant first, [cstruct_pack_<type>_be] most significant first
    (two's complement for a negative value); the primitive returns the
    position after them and changes no other byte. *)
Theorem pack_primitive_bytes `{Platform} (t : cstruct_type_t) (e : cstruct_endian_t)
    (dst v : Z) (m : mem) :
  is_integer t || is_float t = true -> t <> CSTRUCT_TYPE_FLOAT16 ->
  (is_integer t = true -> int_min t <= v <= int_max t) ->
  0 <= dst -> dst + Z.of_nat (elem_size t) <= Z.of_nat (length m) ->
  pack_prim t e dst v m
  = Some (dst + Z.of_nat (elem_size t),
          splice dst match e with
                     | CSTRUCT_ENDIAN_LITTLE => le_split (elem_size t) v
                     | CSTRUCT_ENDIAN_BIG => rev (le_split (elem_size t) v)
                     end m).
Proof.
  intros Ht Hne Hv Hlo Hhi.
  assert (Hc : cast t v = v).
  { destruct (is_integer t) eqn:Hi; [now apply cast_in_range; auto|].
    destruct t; try discriminate; reflexivity. }
  rewrite <- Hc at 1. rewrite pack_prim_spec by assumption.
  do 2 f_equal. destruct t; try reflexivity; congruence.
Qed.

Lemma pack_primitive_bytes_witness :
  @pack_prim be32 CSTRUCT_TYPE_INT16 CSTRUCT_ENDIAN_BIG 1 (-2) (repeat Byte.xaa 4)
  = Some (1 + Z.of_nat (elem_size CSTRUCT_TYPE_INT16),
          splice 1 (rev (le_split (elem_size CSTRUCT_TYPE_INT16) (-2)))
            (repeat Byte.xaa 4)).
Proof.
  apply (@pack_primitive_bytes be32 CSTRUCT_TYPE_INT16 CSTRUCT_ENDIAN_BIG 1 (-2)
           (repeat Byte.xaa 4));
    first [reflexivity | discriminate | (intros _; split; discriminate) | (simpl; lia)].
Defined.

(** X8.  The value the numeric unpack primitives store does not depend
    on the byte order of the host either: [cstruct_unpack_<type>_le] stores
    the number whose bytes, least significant first, are the bytes read,
    [cstruct_unpack_<type>_be] the number whose bytes are the bytes read
    reversed; the primitive returns the position after the bytes. *)
Theorem unpack_primitive_value `{Platform} (t : cstruct_type_t) (e : cstruct_endian_t)
    (buf : mem) (p : Z) :
  is_integer t || is_float t || is_block t = true -> t <> CSTRUCT_TYPE_FLOAT16 ->
  0 <= p -> p + Z.of_nat (elem_size t) <= Z.of_nat (length buf) ->
  exists obj,
    unpack_prim t e buf p = Some (obj, p + Z.of_nat (elem_size t))
    /\ length obj = elem_size t
    /\ object_value obj
       = le_combine match e with
                    | CSTRUCT_ENDIAN_LITTLE => slice p (elem_size t) buf
                    | CSTRUCT_ENDIAN_BIG => rev (slice p (elem_size t) buf)
                    end.
Proof.
  intros Ht Hne Hlo Hhi.
  exists (host_to_wire e (slice p (elem_size t) buf)).
  split; [|split].
  - rewrite unpack_prim_spec by assumption.
    do 2 f_equal. destruct t; try reflexivity; congruence.
  - rewrite length_host_to_wire. apply length_slice; lia.
  - unfold object_value, host_to_wire.
    destruct e, CSTRUCT_IS_BIG_ENDIAN; rewrite ?rev_involutive; reflexivity.
Qed.

Lemma unpack_primitive_value_witness :
  exists obj,
    @unpack_prim be32 CSTRUCT_TYPE_UINT16 CSTRUCT_ENDIAN_BIG
       [Byte.x00; Byte.x12; Byte.x34] 1
    = Some (obj, 1 + Z.of_nat (elem_size CSTRUCT_TYPE_UINT16))
    /\ length obj = elem_size CSTRUCT_TYPE_UINT16
    /\ @object_value be32 obj
       = le_combine (rev (slice 1 (elem_size CSTRUCT_TYPE_UINT16)
                            [Byte.x00; Byte.x12; Byte.x34])).
Proof.
  apply (@unpack_primitive_value be32 CSTRUCT_TYPE_UINT16 CSTRUCT_ENDIAN_BIG
           [Byte.x00; Byte.x12; Byte.x34] 1);
    first [reflexivity | discriminate | (simpl; lia)].
Defined.

(* ================================================================== *)
(** * Strings *)

Lemma strlen_nul (bs rest : list byte) (k : Z) :
  strlen (bs ++ [Byte.x00]) = Some k -> strlen (bs ++ Byte.x00 :: rest) = Some k.
Proof.
  revert k. induction bs as [|b bs IH]; intros k Hk; simpl in *.
  - assumption.
  - destruct (byte.unsigned b =? 0); [assumption|].
    destruct (strlen (bs ++ [Byte.x00])) as [j|]; [|discriminate].
    now rewrite (IH j eq_refl).
Qed.

Lemma strlen_terminated (bs : list byte) :
  exists k, strlen (bs ++ [Byte.x00]) = Some k /\ 0 <= k <= Z.of_nat (length bs).
Proof.
  induction bs as [|b bs (k & Hk & Hr)]; simpl.
  - exists 0. split; [reflexivity|lia].
  - destruct (byte.unsigned b =? 0).
    + exists 0. split; [reflexivity|lia].
    + exists (Z.succ k). rewrite Hk. split; [reflexivity|lia].
Qed.

Lemma strlen_take (s : list byte) (len : Z) (k : nat) (rest : list byte) :
  strlen s = Some len -> Z.of_nat k <= len ->
  strlen (take k s ++ Byte.x00 :: rest) = Some (Z.of_nat k).
Proof.
  revert len k. induction s as [|b s IH]; intros len k Hs Hk; simpl in Hs; [discriminate|].
  destruct k as [|k]; [reflexivity|].
  destruct (byte.unsigned b =? 0) eqn:Hb.
  - inversion Hs; subst. lia.
  - destruct (strlen s) as [j|] eqn:Hj; [|discriminate]. inversion Hs; subst.
    simpl. rewrite Hb, (IH j k eq_refl) by lia. simpl. f_equal. lia.
Qed.

(** X9.  [cstruct_unpack_string] copies exactly [size] bytes and puts a
    NUL after them, at index [size] of the destination: the destination
    needs [size + 1] bytes, and what it holds afterwards is always a
    terminated string of at most [size] characters. *)
Theorem unpack_string_terminated (buf : mem) (src size : Z) :
  0 <= size -> 0 <= src -> src + size <= Z.of_nat (length buf) ->
  exists value len,
    cstruct_unpack_string buf src size = Some (value, src + size)
    /\ length value = S (Z.to_nat size)
    /\ take (Z.to_nat size) value = slice src (Z.to_nat size) buf
    /\ value !! Z.to_nat size = Some Byte.x00
    /\ strlen value = Some len /\ 0 <= len <= size.
Proof.
  intros Hsize Hlo Hhi.
  assert (Hl : length (slice src (Z.to_nat size) buf) = Z.to_nat size)
    by (apply length_slice; lia).
  destruct (strlen_terminated (slice src (Z.to_nat size) buf)) as (len & Hlen & Hr).
  exists (slice src (Z.to_nat size) buf ++ [Byte.x00]), len.
  split; [|split; [|split; [|split; [|split]]]].
  - unfold cstruct_unpack_string. now rewrite gather_slice by lia.
  - rewrite length_app, Hl. simpl. lia.
  - rewrite take_app_length' by (symmetry; assumption). reflexivity.
  - rewrite lookup_app_r by lia. now rewrite Hl, Nat.sub_diag.
  - assumption.
  - lia.
Qed.

Lemma unpack_string_terminated_witness :
  exists value len,
    cstruct_unpack_string [Byte.x48; Byte.x69; Byte.x21; Byte.x21] 0 2
    = Some (value, 0 + 2)
    /\ length value = S (Z.to_nat 2)
    /\ take (Z.to_nat 2) value = slice 0 (Z.to_nat 2) [Byte.x48; Byte.x69; Byte.x21; Byte.x21]
    /\ value !! Z.to_nat 2 = Some Byte.x00
    /\ strlen value = Some len /\ 0 <= len <= 2.
Proof.
  apply (unpack_string_terminated [Byte.x48; Byte.x69; Byte.x21; Byte.x21] 0 2);
    simpl; lia.
Defined.

(** X10.  A string that went through [cstruct_pack_string] and
    [cstruct_unpack_string] with the same [size] comes back truncated to
    its first [size] characters, and unchanged when it has at most [size]
    characters: the string read back has length [min (strlen s) size] and
    its characters are the first characters of [s]. *)
Theorem string_roundtrip (dst : Z) (s : list byte) (size len : Z) (m : mem) :
  strlen s = Some len ->
  0 <= size -> 0 <= dst -> dst + size <= Z.of_nat (length m) ->
  exists m' value,
    cstruct_pack_string dst s size m = Some (dst + size, m')
    /\ cstruct_unpack_string m' dst size = Some (value, dst + size)
    /\ strlen value = Some (Z.min len size)
    /\ take (Z.to_nat (Z.min len size)) value = take (Z.to_nat (Z.min len size)) s.
Proof.
  intros Hs Hsize Hlo Hhi. pose proof (strlen_bound _ _ Hs) as Hlen.
  set (k := Z.to_nat (Z.min len size)).
  set (field := take k s ++ repeat Byte.x00 (Z.to_nat (size - Z.min len size))).
  assert (Hk : length (take k s) = k) by (rewrite length_take; lia).
  assert (Hf : length field = Z.to_nat size).
  { unfold field. rewrite length_app, Hk, repeat_length. lia. }
  exists (splice dst field m), (field ++ [Byte.x00]).
  split; [|split; [|split]].
  - now apply cstruct_pack_string_spec.
  - unfold cstruct_unpack_string.
    rewrite gather_slice by (rewrite ?length_splice; lia).
    rewrite <- Hf, slice_splice by lia. reflexivity.
  - unfold field. rewrite <- app_assoc.
    replace (Z.min len size) with (Z.of_nat k) by lia.
    destruct (Z.to_nat (size - Z.of_nat k)) as [|j]; simpl;
      apply (strlen_take s len k); auto; lia.
  - unfold field. rewrite <- app_assoc.
    rewrite take_app_length' by (symmetry; assumption). reflexivity.
Qed.

Lemma string_roundtrip_witness :
  exists m' value,
    cstruct_pack_string 1 [Byte.x48; Byte.x69; Byte.x21; Byte.x00] 2 (repeat Byte.xaa 4)
    = Some (1 + 2, m')
    /\ cstruct_unpack_string m' 1 2 = Some (value, 1 + 2)
    /\ strlen value = Some (Z.min 3 2)
    /\ take (Z.to_nat (Z.min 3 2)) value
       = take (Z.to_nat (Z.min 3 2)) [Byte.x48; Byte.x69; Byte.x21; Byte.x00].
Proof.
  apply (string_roundtrip 1 [Byte.x48; Byte.x69; Byte.x21; Byte.x00] 2 3 (repeat Byte.xaa 4));
    first [reflexivity | (simpl; lia)].
Defined.

(* ================================================================== *)
(** * The half-float converter as a function on numbers *)

Lemma half_as_float_value_all :
  all_halves (fun h =>
    let f := half_as_float h in
    (float_sign f =? half_sign h)
    && (if half_expo h =? 31
        then (float_expo f =? 255) && (float_frac f =? half_frac h * 2 ^ 13)
        else (float_expo f <? 255) && (float_scaled f =? half_scaled h * 2 ^ 125))) = true.
Proof. vm_compute. reflexivity. Qed.

(** X11.  On a little-endian host [cstruct_half_to_float] is exact: for
    every binary16 pattern the binary32 pattern returned has the same
    sign; a finite number (zero, subnormal or normal) gives the binary32
    pattern of the same number; an infinity or a NaN gives exponent field
    255 and the 10 fraction bits as the top bits of the fraction. *)
Theorem half_to_float_exact `{Platform} (h : Z) :
  CSTRUCT_IS_BIG_ENDIAN = false -> 0 <= h < 2 ^ 16 ->
  let f := cstruct_half_to_float h in
  0 <= f < 2 ^ 32
  /\ float_sign f = half_sign h
  /\ (half_expo h = 31 ->
      float_expo f = 255 /\ float_frac f = half_frac h * 2 ^ 13)
  /\ (half_expo h <> 31 ->
      float_expo f < 255 /\ float_scaled f = half_scaled h * 2 ^ 125).
Proof.
  intros Hle Hh f. subst f.
  rewrite (cstruct_half_to_float_exact h Hle Hh).
  pose proof (all_halves_spec _ half_as_float_value_all h Hh) as Hb.
  cbv beta zeta in Hb.
  apply andb_true_iff in Hb. destruct Hb as [Hs Hb]. apply Z.eqb_eq in Hs.
  split; [now apply half_as_float_range|]. split; [assumption|].
  destruct (Z.eqb_spec (half_expo h) 31) as [He|He];
    apply andb_true_iff in Hb; destruct Hb as [H1 H2]; apply Z.eqb_eq in H2.
  - apply Z.eqb_eq in H1. split; [tauto|intros; contradiction].
  - apply Z.ltb_lt in H1. split; [intros; contradiction|tauto].
Qed.

Lemma half_to_float_exact_witness :
  let f := @cstruct_half_to_float arm32 0x8001 in
  0 <= f < 2 ^ 32
  /\ float_sign f = half_sign 0x8001
  /\ (half_expo 0x8001 = 31 ->
      float_expo f = 255 /\ float_frac f = half_frac 0x8001 * 2 ^ 13)
  /\ (half_expo 0x8001 <> 31 ->
      float_expo f < 255 /\ float_scaled f = half_scaled 0x8001 * 2 ^ 125).
Proof.
  apply (@half_to_float_exact arm32 0x8001); [reflexivity|].
  split; [discriminate|reflexivity].
Defined.

(** X12.  On a little-endian host, narrowing what the widening gave
    returns the pattern: [cstruct_float_to_half (cstruct_half_to_float h)]
    is [h] for each of the 65536 binary16 patterns, NaNs, infinities,
    subnormals and signed zeros included. *)
Theorem half_float_half `{Platform} (h : Z) :
  CSTRUCT_IS_BIG_ENDIAN = false -> 0 <= h < 2 ^ 16 ->
  cstruct_float_to_half (cstruct_half_to_float h) = h.
Proof.
  intros Hle Hh.
  rewrite (cstruct_half_to_float_exact h Hle Hh).
  now apply cstruct_float_to_half_of_half.
Qed.

Lemma half_float_half_witness :
  @cstruct_float_to_half arm32 (@cstruct_half_to_float arm32 0x7E01) = 0x7E01.
Proof.
  apply (@half_float_half arm32 0x7E01); [reflexivity|].
  split; [discriminate|reflexivity].
Defined.

Lemma normal_half_sign (bits x : Z) :
  0 <= x < 32 ->
  half_sign (uint16 (Z.lor (Z.lor (Z.land (Z.shiftr bits 16) 0x8000) (Z.shiftl x 10))
                           (Z.land (Z.shiftr bits 13) 0x3FF)))
  = float_sign bits.
Proof.
  intros Hx.
  assert (Hx5 : x = Z.land x (Z.ones 5))
    by (rewrite Z.land_ones by lia; now rewrite Z.mod_small).
  rewrite Hx5.
  unfold half_sign, float_sign, uint16. rewrite <- Z.land_ones by lia.
  change 0x8000 with (Z.shiftl (Z.ones 1) 15).
  change 0x3FF with (Z.ones 10).
  change (Z.land (Z.shiftr bits 31) 1) with (Z.land (Z.shiftr bits 31) (Z.ones 1)).
  match goal with
  | |- Z.land ?a 1 = _ => change (Z.land a 1) with (Z.land a (Z.ones 1))
  end.
  Z.bitblast.
Qed.

Lemma normal_half_expo (bits x : Z) :
  0 <= x < 32 ->
  half_expo (uint16 (Z.lor (Z.lor (Z.land (Z.shiftr bits 16) 0x8000) (Z.shiftl x 10))
                           (Z.land (Z.shiftr bits 13) 0x3FF)))
  = x.
Proof.
  intros Hx.
  assert (Hx5 : x = Z.land x (Z.ones 5))
    by (rewrite Z.land_ones by lia; now rewrite Z.mod_small).
  rewrite Hx5.
  unfold half_expo, uint16. rewrite <- Z.land_ones by lia.
  change 0x8000 with (Z.shiftl (Z.ones 1) 15).
  change 0x3FF with (Z.ones 10). change 0x1F with (Z.ones 5).
  Z.bitblast.
Qed.

Lemma normal_half_frac (bits x : Z) :
  0 <= x < 32 ->
  half_frac (uint16 (Z.lor (Z.lor (Z.land (Z.shiftr bits 16) 0x8000) (Z.shiftl x 10))
                           (Z.land (Z.shiftr bits 13) 0x3FF)))
  = Z.shiftr (float_frac bits) 13.
Proof.
  intros Hx.
  assert (Hx5 : x = Z.land x (Z.ones 5))
    by (rewrite Z.land_ones by lia; now rewrite Z.mod_small).
  rewrite Hx5.
  unfold half_frac, float_frac, uint16. rewrite <- Z.land_ones by lia.
  change 0x8000 with (Z.shiftl (Z.ones 1) 15).
  change 0x3FF with (Z.ones 10). change 0x7FFFFF with (Z.ones 23).
  Z.bitblast.
Qed.

Lemma float_expo_range (f : Z) : 0 <= float_expo f <= 255.
Proof.
  unfold float_expo.
  change (Z.land (Z.shiftr f 23) 0xFF) with (Z.land (Z.shiftr f 23) (Z.ones 8)).
  rewrite Z.land_ones by lia.
  pose proof (Z.mod_pos_bound (Z.shiftr f 23) (2 ^ 8) eq_refl). lia.
Qed.

Lemma float_frac_range (f : Z) : 0 <= float_frac f < 2 ^ 23.
Proof.
  unfold float_frac.
  change (Z.land f 0x7FFFFF) with (Z.land f (Z.ones 23)).
  rewrite Z.land_ones by lia. apply Z.mod_pos_bound. reflexivity.
Qed.

Lemma float_sign_cases (f : Z) : float_sign f = 0 \/ float_sign f = 1.
Proof.
  unfold float_sign.
  change (Z.land (Z.shiftr f 31) 1) with (Z.land (Z.shiftr f 31) (Z.ones 1)).
  rewrite Z.land_ones by lia.
  pose proof (Z.mod_pos_bound (Z.shiftr f 31) (2 ^ 1) eq_refl). lia.
Qed.

(** X13.  On a little-endian host, for a binary32 number in the range of
    the normal binary16 numbers (exponent field 113 to 142, magnitude from
    2^-14 up to but not including 65536), [cstruct_float_to_half] keeps the
    sign, rebiases the exponent and drops the low 13 bits of the fraction:
    it rounds toward zero, the error being the bits dropped. *)
Theorem float_to_half_truncates `{Platform} (f : Z) :
  CSTRUCT_IS_BIG_ENDIAN = false -> 113 <= float_expo f <= 142 ->
  let r := cstruct_float_to_half f in
  half_sign r = float_sign f
  /\ half_expo r = float_expo f - 112
  /\ half_frac r = Z.shiftr (float_frac f) 13
  /\ float_scaled f
     = half_scaled r * 2 ^ 125
       + (if float_sign f =? 1 then -1 else 1)
         * ((float_frac f mod 2 ^ 13) * 2 ^ (float_expo f - 1)).
Proof.
  intros Hle He r.
  assert (Hr : r = uint16 (Z.lor (Z.lor (Z.land (Z.shiftr f 16) 0x8000)
                                        (Z.shiftl (float_expo f - 112) 10))
                                 (Z.land (Z.shiftr f 13) 0x3FF))).
  { subst r. unfold cstruct_float_to_half. rewrite Hle. fold (float_expo f).
    replace (float_expo f - 127 + 15) with (float_expo f - 112) by lia.
    replace (float_expo f - 112 <=? 0) with false by (symmetry; apply Z.leb_gt; lia).
    replace (float_expo f - 112 >=? 31) with false
      by (symmetry; rewrite Z.geb_leb; apply Z.leb_gt; lia).
    reflexivity. }
  assert (Hx : 0 <= float_expo f - 112 < 32) by lia.
  pose proof (normal_half_sign f _ Hx) as Hsign.
  pose proof (normal_half_expo f _ Hx) as Hexpo.
  pose proof (normal_half_frac f _ Hx) as Hfrac.
  rewrite <- Hr in Hsign, Hexpo, Hfrac.
  repeat split; try assumption.
  unfold half_scaled, float_scaled. rewrite Hsign, Hexpo, Hfrac.
  replace (float_expo f - 112 =? 0) with false by (symmetry; apply Z.eqb_neq; lia).
  replace (float_expo f =? 0) with false by (symmetry; apply Z.eqb_neq; lia).
  rewrite Z.shiftr_div_pow2 by lia.
  pose proof (Z.div_mod (float_frac f) (2 ^ 13) ltac:(lia)) as Hdm.
  assert (Hpow : 2 ^ (float_expo f - 112 - 1) * 2 ^ 125 = 2 ^ 13 * 2 ^ (float_expo f - 1)).
  { rewrite <- !Z.pow_add_r by lia. f_equal. lia. }
  set (s := if float_sign f =? 1 then -1 else 1).
  set (a := 2 ^ (float_expo f - 1)) in *.
  set (b := 2 ^ (float_expo f - 112 - 1)) in *.
  set (q := float_frac f / 2 ^ 13) in *.
  set (m := float_frac f mod 2 ^ 13) in *.
  replace (s * ((2 ^ 10 + q) * b) * 2 ^ 125) with (s * ((2 ^ 10 + q) * (b * 2 ^ 125)))
    by ring.
  rewrite Hpow, Hdm. change (2 ^ 23) with (2 ^ 13 * 2 ^ 10). ring.
Qed.

Lemma float_to_half_truncates_witness :
  let r := @cstruct_float_to_half arm32 0x3FFFFFFF in
  half_sign r = float_sign 0x3FFFFFFF
  /\ half_expo r = float_expo 0x3FFFFFFF - 112
  /\ half_frac r = Z.shiftr (float_frac 0x3FFFFFFF) 13
  /\ float_scaled 0x3FFFFFFF
     = half_scaled r * 2 ^ 125
       + (if float_sign 0x3FFFFFFF =? 1 then -1 else 1)
         * ((float_frac 0x3FFFFFFF mod 2 ^ 13) * 2 ^ (float_expo 0x3FFFFFFF - 1)).
Proof.
  apply (@float_to_half_truncates arm32 0x3FFFFFFF); [reflexivity|].
  split; discriminate.
Defined.

(** X14.  On a little-endian host a binary32 number of magnitude below
    2^-25 (exponent field below 102: zeros and binary32 subnormals
    included) becomes the zero of its sign. *)
Theorem float_to_half_underflow `{Platform} (f : Z) :
  CSTRUCT_IS_BIG_ENDIAN = false -> float_expo f < 102 ->
  cstruct_float_to_half f = if float_sign f =? 1 then 0x8000 else 0.
Proof.
  intros Hle He. pose proof (float_expo_range f) as Hr.
  unfold cstruct_float_to_half. rewrite Hle. fold (float_expo f).
  replace (float_expo f - 127 + 15 <=? 0) with true by (symmetry; apply Z.leb_le; lia).
  replace (float_expo f - 127 + 15 <? -10) with true by (symmetry; apply Z.ltb_lt; lia).
  assert (Hs : uint16 (Z.land (Z.shiftr f 16) 0x8000) = Z.shiftl (float_sign f) 15).
  { unfold uint16, float_sign. rewrite <- Z.land_ones by lia.
    change 0x8000 with (Z.shiftl (Z.ones 1) 15).
    change (Z.land (Z.shiftr f 31) 1) with (Z.land (Z.shiftr f 31) (Z.ones 1)).
    Z.bitblast. }
  rewrite Hs. destruct (float_sign_cases f) as [-> | ->]; reflexivity.
Qed.

Lemma float_to_half_underflow_witness :
  @cstruct_float_to_half arm32 0xB2FFFFFF
  = if float_sign 0xB2FFFFFF =? 1 then 0x8000 else 0.
Proof.
  apply (@float_to_half_underflow arm32 0xB2FFFFFF); reflexivity.
Defined.

(** X15.  On a little-endian host a binary32 pattern with exponent field
    143 or more (magnitude 65536 or more, infinities and NaNs included)
    never becomes a finite binary16 number: the result has the sign, an
    exponent field of all ones and the top 10 bits of the fraction, so it
    is the infinity when these 10 bits are zero and a NaN otherwise, also
    for a finite number. *)
Theorem float_to_half_overflow `{Platform} (f : Z) :
  CSTRUCT_IS_BIG_ENDIAN = false -> 143 <= float_expo f ->
  let r := cstruct_float_to_half f in
  half_sign r = float_sign f
  /\ half_expo r = 31
  /\ half_frac r = Z.shiftr (float_frac f) 13
  /\ (Z.shiftr (float_frac f) 13 = 0 -> half_is_inf r)
  /\ (Z.shiftr (float_frac f) 13 <> 0 -> half_is_nan r).
Proof.
  intros Hle He r. pose proof (float_expo_range f) as Hr.
  assert (Htop : Z.land (Z.shiftr f 13) 0x3FF = Z.shiftr (float_frac f) 13).
  { unfold float_frac. change 0x3FF with (Z.ones 10).
    change 0x7FFFFF with (Z.ones 23). Z.bitblast. }
  assert (Hfields : half_sign r = float_sign f /\ half_expo r = 31
                    /\ half_frac r = Z.shiftr (float_frac f) 13).
  { subst r. unfold cstruct_float_to_half. rewrite Hle. fold (float_expo f).
    replace (float_expo f - 127 + 15 <=? 0) with false by (symmetry; apply Z.leb_gt; lia).
    replace (float_expo f - 127 + 15 >=? 31) with true
      by (symmetry; rewrite Z.geb_leb; apply Z.leb_le; lia).
    rewrite <- Htop.
    destruct (Z.eqb_spec (Z.land f 0x7FFFFF) 0) as [Hz|Hnz]; cbn [negb].
    - replace (uint16 (Z.lor (Z.land (Z.shiftr f 16) 0x8000) 0x7C00))
        with (uint16 (Z.lor (Z.lor (Z.land (Z.shiftr f 16) 0x8000) 0x7C00)
                            (Z.land (Z.shiftr f 13) 0x3FF)))
        by (now rewrite (top_fraction_of_zero f Hz), Z.lor_0_r).
      apply special_half_fields.
    - apply special_half_fields. }
  destruct Hfields as (Hs & Hx & Hf).
  unfold half_is_inf, half_is_nan. rewrite Hx, Hf.
  repeat split; auto.
Qed.

Lemma float_to_half_overflow_witness :
  let r := @cstruct_float_to_half arm32 0x47C35000 in
  half_sign r = float_sign 0x47C35000
  /\ half_expo r = 31
  /\ half_frac r = Z.shiftr (float_frac 0x47C35000) 13
  /\ (Z.shiftr (float_frac 0x47C35000) 13 = 0 -> half_is_inf r)
  /\ (Z.shiftr (float_frac 0x47C35000) 13 <> 0 -> half_is_nan r).
Proof.
  apply (@float_to_half_overflow arm32 0x47C35000); [reflexivity|discriminate].
Defined.

Lemma subnormal_half_sign (bits m : Z) :
  0 <= m < 2 ^ 11 ->
  half_sign (uint16 (Z.lor (Z.land (Z.shiftr bits 16) 0x8000) m)) = float_sign bits.
Proof.
  intros Hm.
  assert (Hm11 : m = Z.land m (Z.ones 11))
    by (rewrite Z.land_ones by lia; now rewrite Z.mod_small).
  rewrite Hm11.
  unfold half_sign, float_sign, uint16. rewrite <- Z.land_ones by lia.
  change 0x8000 with (Z.shiftl (Z.ones 1) 15).
  change (Z.land (Z.shiftr bits 31) 1) with (Z.land (Z.shiftr bits 31) (Z.ones 1)).
  match goal with
  | |- Z.land ?a 1 = _ => change (Z.land a 1) with (Z.land a (Z.ones 1))
  end.
  Z.bitblast.
Qed.

Lemma subnormal_half_expo (bits m : Z) :
  0 <= m < 2 ^ 11 ->
  half_expo (uint16 (Z.lor (Z.land (Z.shiftr bits 16) 0x8000) m)) = m / 2 ^ 10.
Proof.
  intros Hm.
  assert (Hm11 : m = Z.land m (Z.ones 11))
    by (rewrite Z.land_ones by lia; now rewrite Z.mod_small).
  rewrite <- Z.shiftr_div_pow2 by lia. rewrite Hm11.
  unfold half_expo, uint16. rewrite <- Z.land_ones by lia.
  change 0x8000 with (Z.shiftl (Z.ones 1) 15). change 0x1F with (Z.ones 5).
  Z.bitblast.
Qed.

Lemma subnormal_half_frac (bits m : Z) :
  0 <= m < 2 ^ 11 ->
  half_frac (uint16 (Z.lor (Z.land (Z.shiftr bits 16) 0x8000) m)) = m mod 2 ^ 10.
Proof.
  intros Hm.
  assert (Hm11 : m = Z.land m (Z.ones 11))
    by (rewrite Z.land_ones by lia; now rewrite Z.mod_small).
  rewrite <- Z.land_ones by lia. rewrite Hm11.
  unfold half_frac, uint16. rewrite <- Z.land_ones by lia.
  change 0x8000 with (Z.shiftl (Z.ones 1) 15). change 0x3FF with (Z.ones 10).
  Z.bitblast.
Qed.

Lemma implicit_one (f : Z) :
  Z.lor (Z.land f 0x7FFFFF) 0x800000 = 2 ^ 23 + float_frac f.
Proof.
  unfold float_frac. rewrite Z.or_to_plus; [lia|].
  change 0x7FFFFF with (Z.ones 23). change 0x800000 with (Z.shiftl (Z.ones 1) 23).
  Z.bitblast.
Qed.

(** X16.  On a little-endian host, for a binary32 number in the range of
    the binary16 subnormals (exponent field 102 to 112, magnitude from
    2^-25 up to but not including 2^-14), [cstruct_float_to_half] keeps the
    sign and rounds the magnitude to the nearest multiple of 2^-24, a tie
    away from zero; the result is never zero and at most 2^-14. *)
Theorem float_to_half_rounds_subnormal `{Platform} (f : Z) :
  CSTRUCT_IS_BIG_ENDIAN = false -> 102 <= float_expo f <= 112 ->
  let r := cstruct_float_to_half f in
  half_sign r = float_sign f
  /\ 1 <= Z.abs (half_scaled r) <= 2 ^ 10
  /\ - 2 ^ 124 <= Z.abs (float_scaled f) - Z.abs (half_scaled r) * 2 ^ 125 < 2 ^ 124.
Proof.
  intros Hle He r.
  pose proof (float_frac_range f) as HF.
  set (E := float_expo f) in *. set (F := float_frac f) in *.
  set (a := 2 ^ (113 - E)).
  set (m := ((2 ^ 23 + F) / a + 2 ^ 12) / 2 ^ 13).
  assert (Hr : r = uint16 (Z.lor (Z.land (Z.shiftr f 16) 0x8000) m)).
  { subst r. unfold cstruct_float_to_half. rewrite Hle. fold (float_expo f). fold E.
    replace (E - 127 + 15 <=? 0) with true by (symmetry; apply Z.leb_le; lia).
    replace (E - 127 + 15 <? -10) with false by (symmetry; apply Z.ltb_ge; lia).
    rewrite implicit_one. fold F.
    rewrite !Z.shiftr_div_pow2 by lia.
    replace (1 - (E - 127 + 15)) with (113 - E) by lia. reflexivity. }
  assert (Ha : 2 <= a <= 2 ^ 11).
  { subst a. split.
    - change 2 with (2 ^ 1) at 1. apply Z.pow_le_mono_r; lia.
    - apply Z.pow_le_mono_r; lia. }
  set (p := 2 ^ (E - 1)).
  assert (Hap : a * p = 2 ^ 112).
  { subst a p. rewrite <- Z.pow_add_r by lia. f_equal. lia. }
  assert (Hp : 0 < p) by (subst p; apply Z.pow_pos_nonneg; lia).
  pose proof (Z.div_mod (2 ^ 23 + F) a ltac:(lia)) as HX.
  pose proof (Z.mod_pos_bound (2 ^ 23 + F) a ltac:(lia)) as Hr0.
  set (Y := (2 ^ 23 + F) / a) in *. set (r0 := (2 ^ 23 + F) mod a) in *.
  pose proof (Z.div_mod (Y + 2 ^ 12) (2 ^ 13) ltac:(lia)) as HY.
  pose proof (Z.mod_pos_bound (Y + 2 ^ 12) (2 ^ 13) ltac:(lia)) as Hr1.
  fold m in HY. set (r1 := (Y + 2 ^ 12) mod 2 ^ 13) in *.
  assert (HYr : 2 ^ 12 <= Y < 2 ^ 23).
  { split.
    - subst Y. apply Z.div_le_lower_bound; [lia|].
      apply Z.le_trans with (2 ^ 12 * 2 ^ 11); [nia|]. change (2 ^ 12 * 2 ^ 11) with (2 ^ 23). lia.
    - subst Y. apply Z.div_lt_upper_bound; [lia|]. nia. }
  assert (Hm : 1 <= m <= 2 ^ 10) by lia.
  assert (Hm' : 0 <= m < 2 ^ 11) by lia.
  pose proof (subnormal_half_sign f m Hm') as Hsign.
  pose proof (subnormal_half_expo f m Hm') as Hexpo.
  pose proof (subnormal_half_frac f m Hm') as Hfrac.
  rewrite <- Hr in Hsign, Hexpo, Hfrac.
  assert (Hhalf : Z.abs (half_scaled r) = m).
  { unfold half_scaled. rewrite Hsign, Hexpo, Hfrac.
    rewrite Z.abs_mul.
    replace (Z.abs (if float_sign f =? 1 then -1 else 1)) with 1
      by (now destruct (float_sign f =? 1)).
    destruct (Z.eq_dec m (2 ^ 10)) as [->|Hne]; [reflexivity|].
    rewrite Z.div_small, Z.mod_small by lia. simpl. lia. }
  assert (Hfloat : Z.abs (float_scaled f) = (2 ^ 23 + F) * p).
  { unfold float_scaled. fold E. fold F.
    replace (E =? 0) with false by (symmetry; apply Z.eqb_neq; lia).
    rewrite Z.abs_mul.
    replace (Z.abs (if float_sign f =? 1 then -1 else 1)) with 1
      by (now destruct (float_sign f =? 1)).
    fold p. rewrite Z.abs_eq by nia. lia. }
  split; [assumption|]. rewrite Hhalf, Hfloat. split; [assumption|].
  change (2 ^ 125) with (2 ^ 13 * 2 ^ 112). change (2 ^ 124) with (2 ^ 12 * 2 ^ 112).
  rewrite <- Hap.
  assert (Hdiff : (2 ^ 23 + F) * p - m * (2 ^ 13 * (a * p))
                  = (r1 - 2 ^ 12) * (a * p) + r0 * p) by (rewrite HX; nia).
  rewrite Hdiff. nia.
Qed.

Lemma float_to_half_rounds_subnormal_witness :
  let r := @cstruct_float_to_half arm32 0x33000000 in
  half_sign r = float_sign 0x33000000
  /\ 1 <= Z.abs (half_scaled r) <= 2 ^ 10
  /\ - 2 ^ 124 <= Z.abs (float_scaled 0x33000000) - Z.abs (half_scaled r) * 2 ^ 125 < 2 ^ 124.
Proof.
  apply (@float_to_half_rounds_subnormal arm32 0x33000000); [reflexivity|].
  split; discriminate.
Defined.

(* ================================================================== *)
(** * The tokens of a format, and the field locator *)

Lemma tokens_from_empty `{Platform} (e : cstruct_endian_t) (fmt : string) :
  tokens_from e fmt = Some [] -> fmt = EmptyString.
Proof.
  destruct fmt as [|c fmt]; [reflexivity|].
  unfold tokens_from. cbn [String.length tokens_loop].
  destruct (parse_token (String c fmt) e) as [[[q tok] e']|]; [|discriminate].
  destruct (tokens_loop (String.length fmt) e' q); discriminate.
Qed.

Lemma tokens_from_ok `{Platform} (toks : list cstruct_token_t) :
  forall (fmt : string) (e : cstruct_endian_t),
    tokens_from e fmt = Some toks -> Forall token_ok toks.
Proof.
  induction toks as [|tok toks IH]; intros fmt e Htoks; [constructor|].
  destruct (tokens_from_cons _ _ _ _ Htoks) as (q & e' & Hp & Hq).
  apply parse_token_spec in Hp. destruct Hp as (Hok & _).
  constructor; eauto.
Qed.

Lemma token_bytes_pos `{Platform} (tok : cstruct_token_t) :
  token_ok tok -> 1 <= size tok /\ 1 <= token_bytes tok.
Proof.
  intros [Hc Hs]. unfold token_bytes. destruct (type tok); simpl in Hs; nia.
Qed.

Lemma total_bytes_nonneg `{Platform} (toks : list cstruct_token_t) :
  Forall token_ok toks -> 0 <= total_bytes toks.
Proof.
  induction 1 as [|tok toks Hok _ IH]; simpl; [lia|].
  pose proof (token_bytes_pos tok Hok). lia.
Qed.

Lemma total_bytes_length `{Platform} (toks : list cstruct_token_t) :
  Forall token_ok toks -> Z.of_nat (length toks) <= total_bytes toks.
Proof.
  induction 1 as [|tok toks Hok _ IH]; simpl total_bytes; simpl length; [lia|].
  pose proof (token_bytes_pos tok Hok). lia.
Qed.

Lemma get_ptr_from_nil `{Platform} (srclen in_ : Z) (e : cstruct_endian_t)
    (index current_index : Z) :
  get_ptr_from srclen in_ e "" index current_index = None.
Proof. reflexivity. Qed.

Lemma get_ptr_from_null `{Platform} (srclen in_ : Z) (e : cstruct_endian_t)
    (fmt : string) (index current_index : Z) :
  parse_token fmt e = None ->
  get_ptr_from srclen in_ e fmt index current_index = None.
Proof.
  intros Hp. destruct fmt as [|c fmt]; [reflexivity|].
  unfold get_ptr_from. cbn [String.length get_ptr_loop]. now rewrite Hp.
Qed.

Lemma get_ptr_from_out_of_range `{Platform} (srclen index : Z) :
  index <= SIZE_MAX ->
  forall (toks : list cstruct_token_t) (fmt : string) (e : cstruct_endian_t)
         (in_ cur : Z),
    tokens_from e fmt = Some toks ->
    0 <= cur -> cur + Z.of_nat (length toks) <= index ->
    get_ptr_from srclen in_ e fmt index cur = None.
Proof.
  intros Hidx. induction toks as [|tok toks IH]; intros fmt e in_ cur Htoks Hcur Hle.
  - apply tokens_from_empty in Htoks. subst fmt. reflexivity.
  - destruct (tokens_from_cons _ _ _ _ Htoks) as (q & e' & Hp & Hq).
    rewrite (get_ptr_from_step _ _ _ _ _ _ _ _ _ Hp).
    destruct (size_t (srclen - in_) <? size tok); [reflexivity|].
    simpl length in Hle.
    replace (cur =? index) with false by (symmetry; apply Z.eqb_neq; lia).
    rewrite size_t_small by lia.
    apply IH; auto; lia.
Qed.

(** X17.  An index that is not the index of a token of the format (it is
    the number of tokens or more) makes [cstruct_get_ptr] return [NULL],
    whatever the buffer. *)
Theorem get_ptr_index_out_of_range `{Platform} (srclen : Z) (fmt : string)
    (toks : list cstruct_token_t) (index : Z) :
  tokens fmt = Some toks ->
  Z.of_nat (length toks) <= index <= SIZE_MAX ->
  cstruct_get_ptr srclen fmt index = None.
Proof.
  intros Htoks Hidx.
  apply (get_ptr_from_out_of_range srclen index (proj2 Hidx) toks fmt
           CSTRUCT_ENDIAN_LITTLE 0 0 Htoks); lia.
Qed.

Lemma get_ptr_index_out_of_range_witness :
  @cstruct_get_ptr arm32 100 "HBI" 3 = None.
Proof.
  apply (@get_ptr_index_out_of_range arm32 100 "HBI"
           [ {| type := CSTRUCT_TYPE_UINT16; endian := CSTRUCT_ENDIAN_LITTLE;
                size := 2; count := 1 |};
             {| type := CSTRUCT_TYPE_UINT8; endian := CSTRUCT_ENDIAN_LITTLE;
                size := 1; count := 1 |};
             {| type := CSTRUCT_TYPE_UINT32; endian := CSTRUCT_ENDIAN_LITTLE;
                size := 4; count := 1 |} ] 3);
    [reflexivity|split; discriminate].
Defined.

Lemma get_ptr_from_count_one `{Platform} (srclen index : Z) (tok : cstruct_token_t) :
  srclen <= SIZE_MAX -> index <= SIZE_MAX ->
  forall (k : nat) (toks : list cstruct_token_t) (fmt : string)
         (e : cstruct_endian_t) (in_ cur : Z),
    tokens_from e fmt = Some toks -> toks !! k = Some tok ->
    Forall (fun t => count t = 1) (take k toks) ->
    0 <= in_ -> 0 <= cur -> index = cur + Z.of_nat k ->
    in_ + total_bytes (take k toks) + size tok <= srclen ->
    get_ptr_from srclen in_ e fmt index cur
    = Some (in_ + total_bytes (take k toks)).
Proof.
  intros Hsrc Hidx. induction k as [|k IH];
    intros toks fmt e in_ cur Htoks Hk Hone Hin Hcur Hindex Hfit;
    (destruct toks as [|t0 toks]; [discriminate|]);
    pose proof (tokens_from_ok _ _ _ Htoks) as Hok;
    destruct (tokens_from_cons _ _ _ _ Htoks) as (q & e' & Hp & Hq);
    rewrite (get_ptr_from_step _ _ _ _ _ _ _ _ _ Hp);
    apply Forall_cons in Hok; destruct Hok as [Hok0 Hoks];
    pose proof (token_bytes_pos t0 Hok0) as [Hs0 Hb0].
  - simpl in Hk. inversion Hk; subst t0. simpl in Hfit.
    rewrite size_t_small by lia.
    replace (srclen - in_ <? size tok) with false by (symmetry; apply Z.ltb_ge; lia).
    replace (cur =? index) with true by (symmetry; apply Z.eqb_eq; lia).
    simpl. f_equal. lia.
  - simpl in Hk. cbn [take] in Hone, Hfit |- *.
    apply Forall_cons in Hone. destruct Hone as [Hc0 Hone'].
    assert (Hnn : 0 <= total_bytes (take k toks))
      by (apply total_bytes_nonneg; now apply Forall_take).
    assert (Hsz : 1 <= size tok).
    { apply (token_bytes_pos tok).
      eapply Forall_lookup_1; [exact Hoks|exact Hk]. }
    cbn [total_bytes fold_right] in Hfit |- *. fold (total_bytes (take k toks)) in Hfit |- *.
    unfold token_bytes in Hfit |- *. rewrite Hc0, Z.mul_1_r in Hfit |- *.
    rewrite size_t_small by lia.
    replace (srclen - in_ <? size t0) with false by (symmetry; apply Z.ltb_ge; lia).
    replace (cur =? index) with false by (symmetry; apply Z.eqb_neq; lia).
    rewrite size_t_small by lia.
    rewrite (IH toks q e' (in_ + size t0) (cur + 1)); auto; try lia.
    f_equal. lia.
Qed.

(** X18.  When the tokens before field [index] have no repeat count
    other than one, [cstruct_get_ptr] returns the offset at which pack and
    unpack place the field: the sum of the bytes of the tokens before it
    (padding and strings included), provided the buffer holds them and one
    element of the field. *)
Theorem get_ptr_offset `{Platform} (srclen : Z) (fmt : string)
    (toks : list cstruct_token_t) (index : nat) (tok : cstruct_token_t) :
  tokens fmt = Some toks -> toks !! index = Some tok ->
  Forall (fun t => count t = 1) (take index toks) ->
  total_bytes (take index toks) + size tok <= srclen <= SIZE_MAX ->
  cstruct_get_ptr srclen fmt (Z.of_nat index)
  = Some (total_bytes (take index toks)).
Proof.
  intros Htoks Hk Hone Hfit.
  pose proof (tokens_from_ok _ _ _ Htoks) as Hok.
  assert (Hnn : 0 <= total_bytes (take index toks))
    by (apply total_bytes_nonneg; now apply Forall_take).
  assert (Hsz : 1 <= size tok).
  { apply (token_bytes_pos tok). eapply Forall_lookup_1; [exact Hok|exact Hk]. }
  change (cstruct_get_ptr srclen fmt (Z.of_nat index))
    with (get_ptr_from srclen 0 CSTRUCT_ENDIAN_LITTLE fmt (Z.of_nat index) 0).
  assert (Hsrc : srclen <= SIZE_MAX) by lia.
  assert (Hidx : Z.of_nat index <= SIZE_MAX).
  { pose proof (total_bytes_length (take index toks) ltac:(now apply Forall_take)) as Hl.
    apply lookup_lt_Some in Hk. rewrite length_take in Hl. lia. }
  rewrite (get_ptr_from_count_one srclen (Z.of_nat index) tok Hsrc Hidx
             index toks fmt CSTRUCT_ENDIAN_LITTLE 0 0); auto; lia.
Qed.

Lemma get_ptr_offset_witness :
  @cstruct_get_ptr arm32 16 "H3x>5sI" (Z.of_nat 3) = Some 10.
Proof.
  apply (@get_ptr_offset arm32 16 "H3x>5sI"
           [ {| type := CSTRUCT_TYPE_UINT16; endian := CSTRUCT_ENDIAN_LITTLE;
                size := 2; count := 1 |};
             {| type := CSTRUCT_TYPE_PADDING; endian := CSTRUCT_ENDIAN_LITTLE;
                size := 3; count := 1 |};
             {| type := CSTRUCT_TYPE_STRING; endian := CSTRUCT_ENDIAN_BIG;
                size := 5; count := 1 |};
             {| type := CSTRUCT_TYPE_UINT32; endian := CSTRUCT_ENDIAN_BIG;
                size := 4; count := 1 |} ] 3
           {| type := CSTRUCT_TYPE_UINT32; endian := CSTRUCT_ENDIAN_BIG;
              size := 4; count := 1 |});
    [reflexivity|reflexivity|repeat constructor|split; discriminate].
Defined.

Lemma get_ptr_from_bounds `{Platform} (srclen index : Z) :
  0 <= srclen <= SIZE_MAX ->
  forall (k : nat) (fmt : string) (e : cstruct_endian_t) (in_ cur p : Z),
    (String.length fmt <= k)%nat ->
    0 <= in_ <= srclen ->
    get_ptr_from srclen in_ e fmt index cur = Some p ->
    in_ <= p < srclen.
Proof.
  intros Hsrc. induction k as [|k IH]; intros fmt e in_ cur p Hk Hin Hget.
  - destruct fmt; [discriminate|simpl in Hk; lia].
  - destruct (parse_token fmt e) as [[[q tok] e']|] eqn:Hp.
    2:{ rewrite get_ptr_from_null in Hget by assumption. discriminate. }
    rewrite (get_ptr_from_step _ _ _ _ _ _ _ _ _ Hp) in Hget.
    apply parse_token_spec in Hp. destruct Hp as (Hok & _ & Hlen).
    pose proof (token_bytes_pos tok Hok) as [Hs _].
    rewrite size_t_small in Hget by lia.
    destruct (Z.ltb_spec (srclen - in_) (size tok)); [discriminate|].
    destruct (cur =? index).
    + inversion Hget; subst. lia.
    + apply IH in Hget; lia.
Qed.

(** X19.  A pointer [cstruct_get_ptr] returns lies inside the buffer:
    its offset is at least 0 and less than [srclen], so at least one byte
    can be read through it (and [NULL] is returned for an empty
    buffer). *)
Theorem get_ptr_in_bounds `{Platform} (srclen : Z) (fmt : string) (index p : Z) :
  0 <= srclen <= SIZE_MAX ->
  cstruct_get_ptr srclen fmt index = Some p ->
  0 <= p < srclen.
Proof.
  intros Hsrc Hget.
  apply (get_ptr_from_bounds srclen index Hsrc (String.length fmt) fmt
           CSTRUCT_ENDIAN_LITTLE 0 0 p); auto; lia.
Qed.

Lemma get_ptr_in_bounds_witness : 0 <= 2 < 8.
Proof.
  apply (@get_ptr_in_bounds arm32 8 "2HI" 1 2); [split; discriminate|reflexivity].
Defined.

(* ================================================================== *)
(** * Arrays *)

Lemma chunks_S (esize n : nat) (arr : list byte) :
  chunks esize (S n) arr = take esize arr :: chunks esize n (drop esize arr).
Proof.
  unfold chunks. rewrite <- cons_seq. cbn [map]. f_equal.
  rewrite <- fmap_S_seq. change (map ?f (S <$> ?l)) with (map f (map S l)).
  rewrite map_map. apply map_ext. intros i. rewrite drop_drop.
  reflexivity.
Qed.

Lemma length_chunks (esize n : nat) (arr : list byte) : length (chunks esize n arr) = n.
Proof. unfold chunks. now rewrite length_map, length_seq. Qed.

Lemma lookup_chunks (esize n : nat) (arr : list byte) (j : nat) (obj : list byte) :
  chunks esize n arr !! j = Some obj ->
  (j < n)%nat /\ obj = take esize (drop (j * esize) arr).
Proof.
  unfold chunks. intros Hj.
  change (map ?f ?l) with (f <$> l) in Hj.
  rewrite list_lookup_fmap in Hj.
  destruct (seq 0 n !! j) as [i|] eqn:Hi; [|discriminate].
  apply lookup_seq in Hi. destruct Hi as [-> Hlt]. simpl in Hj.
  inversion Hj. auto.
Qed.

Lemma chunks_length_each (esize n : nat) (arr : list byte) :
  (n * esize <= length arr)%nat ->
  Forall (fun obj => length obj = esize) (chunks esize n arr).
Proof.
  intros Hlen. apply Forall_lookup. intros j obj Hj.
  apply lookup_chunks in Hj. destruct Hj as [Hlt ->].
  rewrite length_take, length_drop. nia.
Qed.



Lemma length_concat_same (esize : nat) (ls : list (list byte)) :
  Forall (fun l => length l = esize) ls ->
  length (concat ls) = (length ls * esize)%nat.
Proof.
  induction 1 as [|l ls Hl _ IH]; [reflexivity|].
  cbn [concat length]. rewrite length_app, IH, Hl. lia.
Qed.

(* ================================================================== *)
(** * What pack writes for a token *)

Lemma nth_take_lt (n j : nat) (obj : list byte) (d : byte) :
  (j < n)%nat -> nth j (take n obj) d = nth j obj d.
Proof.
  revert n obj. induction j as [|j IH]; intros n obj Hj;
    (destruct n as [|n]; [lia|]); destruct obj as [|b obj]; simpl; auto.
  apply IH. lia.
Qed.

(** A store reads the first [size] bytes of its source only. *)
Lemma store_wire_take `{Platform} (e : cstruct_endian_t) (dst : Z) (obj : list byte)
    (size : Z) (m : mem) :
  0 <= size <= Z.of_nat (length obj) ->
  0 <= dst -> dst + size <= Z.of_nat (length m) ->
  match e with
  | CSTRUCT_ENDIAN_LITTLE => cstruct_store_le
  | CSTRUCT_ENDIAN_BIG => cstruct_store_be
  end dst obj size m
  = Some (tt, splice dst (host_to_wire e (take (Z.to_nat size) obj)) m).
Proof.
  intros Hsize Hlo Hhi.
  set (src := take (Z.to_nat size) obj).
  assert (Hsrc : Z.of_nat (length src) = size) by (unfold src; rewrite length_take; lia).
  assert (Hfw : cstruct_store_fw dst obj size m = cstruct_store_fw dst src size m).
  { unfold cstruct_store_fw.
    rewrite !(for_loop_poke dst (fun j => nth (Z.to_nat j) src Byte.x00)); try lia; auto.
    - intros j m' Hj. rewrite (peek_Some src j Byte.x00) by lia. reflexivity.
    - intros j m' Hj. rewrite (peek_Some obj j Byte.x00) by lia.
      unfold src. rewrite nth_take_lt by lia. reflexivity. }
  assert (Hrev : cstruct_store_rev dst obj size m = cstruct_store_rev dst src size m).
  { unfold cstruct_store_rev.
    rewrite !(for_loop_poke dst (fun j => nth (Z.to_nat (size - 1 - j)) src Byte.x00));
      try lia; auto.
    - intros j m' Hj. rewrite (peek_Some src (size - 1 - j) Byte.x00) by lia. reflexivity.
    - intros j m' Hj. rewrite (peek_Some obj (size - 1 - j) Byte.x00) by lia.
      unfold src. rewrite nth_take_lt by lia. reflexivity. }
  rewrite <- (store_wire e dst src size m) by lia.
  destruct e; unfold cstruct_store_le, cstruct_store_be;
    destruct CSTRUCT_IS_BIG_ENDIAN; assumption.
Qed.

Lemma pack_block_prim_take `{Platform} (t : cstruct_type_t) (e : cstruct_endian_t)
    (dst : Z) (blk : list byte) (m : mem) :
  is_block t = true -> (16 <= length blk)%nat ->
  0 <= dst -> dst + 16 <= Z.of_nat (length m) ->
  pack_block_prim t e dst blk m
  = Some (dst + 16, splice dst (host_to_wire e (take 16 blk)) m).
Proof.
  intros Ht Hblk Hlo Hhi.
  assert (Hstore :
    bind (match e with
          | CSTRUCT_ENDIAN_LITTLE => cstruct_store_le
          | CSTRUCT_ENDIAN_BIG => cstruct_store_be
          end dst blk 16)
         (fun _ => ret (dst + 16)) m
    = Some (dst + 16, splice dst (host_to_wire e (take 16 blk)) m)).
  { unfold bind. rewrite store_wire_take by lia. reflexivity. }
  destruct t; try discriminate Ht; destruct e; exact Hstore.
Qed.

(** The primitives take any value: they write its low bytes. *)
Lemma pack_prim_raw `{Platform} (t : cstruct_type_t) (e : cstruct_endian_t)
    (dst v : Z) (m : mem) :
  is_integer t || is_float t = true ->
  0 <= dst -> dst + Z.of_nat (elem_size t) <= Z.of_nat (length m) ->
  pack_prim t e dst v m
  = Some (dst + Z.of_nat (elem_size t), splice dst (encode t e v) m).
Proof.
  intros Ht Hlo Hhi.
  assert (Hstore : forall n w, n = elem_size t ->
    bind (match e with
          | CSTRUCT_ENDIAN_LITTLE => cstruct_store_le
          | CSTRUCT_ENDIAN_BIG => cstruct_store_be
          end dst (object n w) (Z.of_nat n))
         (fun _ => ret (dst + Z.of_nat n)) m
    = Some (dst + Z.of_nat n, splice dst (wire e n w) m)).
  { intros n w ->. unfold bind.
    rewrite store_wire by (rewrite ?length_object; lia).
    now rewrite host_to_wire_object. }
  destruct t; try discriminate Ht; simpl elem_size in *; unfold encode; simpl elem_size.
  - replace (pack_prim CSTRUCT_TYPE_INT8 e) with cstruct_pack_int8 by (destruct e; reflexivity).
    unfold cstruct_pack_int8, bind. rewrite poke_splice by lia.
    unfold to_unsigned. rewrite byte_of_Z_mod.
    destruct e; reflexivity.
  - replace (pack_prim CSTRUCT_TYPE_UINT8 e) with cstruct_pack_uint8 by (destruct e; reflexivity).
    unfold cstruct_pack_uint8, bind. rewrite poke_splice by lia.
    destruct e; reflexivity.
  - destruct e; apply (Hstore 2%nat); reflexivity.
  - destruct e; apply (Hstore 2%nat); reflexivity.
  - destruct e; apply (Hstore 4%nat); reflexivity.
  - destruct e; apply (Hstore 4%nat); reflexivity.
  - destruct e; apply (Hstore 8%nat); reflexivity.
  - destruct e; apply (Hstore 8%nat); reflexivity.
  - destruct e; apply (Hstore 2%nat); reflexivity.
  - destruct e; apply (Hstore 4%nat); reflexivity.
  - destruct e; apply (Hstore 8%nat); reflexivity.
Qed.

(** The array loop of pack writes the elements one after the other. *)
Lemma pack_array_spec {A} (k : nat) (P : A -> Prop) (enc : A -> list byte)
    (elem : Z -> option A) (pack1 : Z -> A -> M Z) :
  (forall v, P v -> length (enc v) = k) ->
  (forall out v m, P v -> 0 <= out -> out + Z.of_nat k <= Z.of_nat (length m) ->
     pack1 out v m = Some (out + Z.of_nat k, splice out (enc v) m)) ->
  forall (vs : list A) (i out : Z) (m : mem),
    Forall P vs ->
    (forall j v, vs !! j = Some v -> elem (i + Z.of_nat j) = Some v) ->
    0 <= out -> out + Z.of_nat (length vs * k) <= Z.of_nat (length m) ->
    pack_array (length vs) i elem pack1 out m
    = Some (out + Z.of_nat (length vs * k), splice out (concat (map enc vs)) m).
Proof.
  intros Hk Hpack. induction vs as [|v vs IH]; intros i out m HP Helem Hlo Hhi.
  - simpl. unfold ret. rewrite splice_nil. do 2 f_equal. lia.
  - cbn [length pack_array]. apply Forall_cons in HP. destruct HP as [Hv HP].
    pose proof (Helem 0%nat v eq_refl) as H0. rewrite Z.add_0_r in H0. rewrite H0.
    unfold bind. simpl length in Hhi. rewrite Hpack by (auto; lia).
    rewrite IH.
    + cbn [map concat]. do 2 f_equal; [lia|].
      rewrite <- (Hk v Hv) at 1. apply splice_splice; rewrite ?Hk; auto; lia.
    + assumption.
    + intros j w Hj. replace (i + 1 + Z.of_nat j) with (i + Z.of_nat (S j)) by lia.
      now apply Helem.
    + lia.
    + rewrite length_splice by (rewrite ?Hk; auto; lia). lia.
Qed.

Lemma element_chunk `{Platform} (arr : list byte) (esize n j : nat) (obj : list byte) :
  length arr = (n * esize)%nat ->
  chunks esize n arr !! j = Some obj ->
  element arr esize (0 + Z.of_nat j) = Some (object_value obj).
Proof.
  intros Hlen Hj. apply lookup_chunks in Hj. destruct Hj as [Hlt ->].
  unfold element. rewrite Z.add_0_l, Nat2Z.id.
  replace (0 <=? Z.of_nat j) with true by (symmetry; apply Z.leb_le; lia).
  replace (length (take esize (drop (j * esize) arr)) =? esize)%nat with true; [reflexivity|].
  symmetry. apply Nat.eqb_eq. rewrite length_take, length_drop. nia.
Qed.

Lemma encode_object_value `{Platform} (t : cstruct_type_t) (e : cstruct_endian_t)
    (obj : list byte) :
  is_integer t || is_float t = true -> length obj = var_size t ->
  encode t e (object_value obj) = encode_object t e obj.
Proof.
  intros Ht Hlen.
  assert (Hgen : t <> CSTRUCT_TYPE_FLOAT16 -> length obj = elem_size t ->
                 wire e (elem_size t) (object_value obj) = host_to_wire e obj).
  { intros _ Hl. rewrite <- host_to_wire_object, <- Hl. now rewrite object_object_value. }
  destruct t; try discriminate Ht; try reflexivity;
    unfold encode, encode_object; apply Hgen; try discriminate; exact Hlen.
Qed.

Lemma token_bytes_count `{Platform} (tok : cstruct_token_t) :
  token_ok tok -> is_integer (type tok) || is_float (type tok) || is_block (type tok) = true ->
  token_bytes tok = Z.of_nat (Z.to_nat (count tok) * elem_size (type tok)).
Proof.
  intros [Hc Hs] Ht. unfold token_bytes.
  destruct (type tok); try discriminate Ht; rewrite Hs; lia.
Qed.

Lemma pack_token_image_scalar `{Platform} (tok : cstruct_token_t) (out : Z) (a : arg)
    (args : list arg) (m : mem) :
  token_ok tok -> is_integer (type tok) || is_float (type tok) = true ->
  arg_ok tok a = true ->
  0 <= out -> out + token_bytes tok <= Z.of_nat (length m) ->
  pack_token tok out (a :: args) m
  = Some ((out + token_bytes tok, args), splice out (token_image tok a) m).
Proof.
  intros Hok Ht Harg Hlo Hhi. pose proof Hok as [Hc Hs].
  assert (Hnb : is_block (type tok) = false) by (destruct (type tok); try discriminate Ht; reflexivity).
  rewrite (token_bytes_count tok Hok) in * by (rewrite Ht; reflexivity).
  rewrite pack_token_scalar by assumption. unfold pack_scalar.
  rewrite (select_prim (fun e => pack_prim (type tok) e)).
  assert (Harg' : (if takes_pointer tok
                   then match a with
                        | arg_ptr arr =>
                            (length arr =? Z.to_nat (count tok) * var_size (type tok))%nat
                        | _ => false
                        end
                   else match by_value (type tok) a with Some _ => true | None => false end)
                  = true).
  { unfold arg_ok in Harg. destruct (type tok); try discriminate Ht; exact Harg. }
  unfold takes_pointer in Harg'. rewrite Hnb in Harg'. cbn [orb] in Harg'.
  destruct (count tok >? 1) eqn:Hcount.
  - destruct a as [v|v|arr]; try discriminate Harg'. apply Nat.eqb_eq in Harg'.
    unfold bind.
    pose proof (pack_array_spec (elem_size (type tok)) (fun _ => True)
                  (encode (type tok) (endian tok))
                  (element arr (var_size (type tok))) (pack_prim (type tok) (endian tok))
                  (fun v _ => length_encode (type tok) (endian tok) v)
                  (fun out v m _ Hlo' Hhi' =>
                     pack_prim_raw (type tok) (endian tok) out v m Ht Hlo' Hhi')
                  (map object_value (chunks (var_size (type tok)) (Z.to_nat (count tok)) arr))
                  0 out m) as Hpa.
    rewrite length_map, length_chunks in Hpa. rewrite Hpa; clear Hpa.
    + unfold ret. apply f_equal, f_equal2; [reflexivity|].
      apply (f_equal (fun bs => splice out bs m)).
      assert (Himg : token_image tok (arg_ptr arr)
                     = concat (map (encode_object (type tok) (endian tok))
                                 (chunks (var_size (type tok)) (Z.to_nat (count tok)) arr))).
      { unfold token_image. destruct (type tok); try discriminate Ht; reflexivity. }
      rewrite Himg, map_map. apply (f_equal (@concat byte)).
      apply map_ext_in. intros obj Hin.
      apply encode_object_value; [assumption|].
      pose proof (chunks_length_each (var_size (type tok)) (Z.to_nat (count tok)) arr
                    ltac:(lia)) as Hall.
      rewrite List.Forall_forall in Hall. now apply Hall.
    + apply Forall_forall. auto.
    + intros j v Hj. change (map ?f ?l) with (f <$> l) in Hj.
      rewrite list_lookup_fmap in Hj.
      destruct (chunks (var_size (type tok)) (Z.to_nat (count tok)) arr !! j) as [obj|] eqn:Ho;
        [|discriminate].
      simpl in Hj. inversion Hj; subst v.
      eapply element_chunk; eauto.
    + assumption.
    + assumption.
  - assert (Hone : count tok = 1) by (rewrite Z.gtb_ltb in Hcount; apply Z.ltb_ge in Hcount; lia).
    destruct (by_value (type tok) a) as [v|] eqn:Hv; [|discriminate].
    unfold bind. rewrite pack_prim_spec by (rewrite ?Hone in *; simpl in *; try assumption; lia).
    unfold ret. rewrite Hone. simpl Z.to_nat. rewrite Nat.mul_1_l.
    do 2 f_equal. unfold by_value in Hv. unfold token_image.
    destruct (type tok); try discriminate Ht; destruct a; try discriminate Hv;
      simpl in Hv; inversion Hv; reflexivity.
Qed.

Lemma block_chunk (arr : list byte) (n j : nat) (blk : list byte) :
  length arr = (n * 16)%nat ->
  map (fun i => drop (i * 16) arr) (seq 0 n) !! j = Some blk ->
  block arr (0 + Z.of_nat j) = Some blk /\ (16 <= length blk)%nat.
Proof.
  intros Hlen Hj. change (map ?f ?l) with (f <$> l) in Hj.
  rewrite list_lookup_fmap in Hj.
  destruct (seq 0 n !! j) as [i|] eqn:Hi; [|discriminate].
  apply lookup_seq in Hi. destruct Hi as [-> Hlt]. simpl in Hj. inversion Hj; subst blk.
  unfold block. rewrite Z.add_0_l.
  replace (0 <=? Z.of_nat j) with true by (symmetry; apply Z.leb_le; lia).
  replace (Z.to_nat (Z.of_nat j * 16)) with (j * 16)%nat by lia.
  split; [reflexivity|]. rewrite length_drop. nia.
Qed.

Lemma pack_token_image_block `{Platform} (tok : cstruct_token_t) (out : Z) (a : arg)
    (args : list arg) (m : mem) :
  token_ok tok -> is_block (type tok) = true ->
  arg_ok tok a = true ->
  0 <= out -> out + token_bytes tok <= Z.of_nat (length m) ->
  pack_token tok out (a :: args) m
  = Some ((out + token_bytes tok, args), splice out (token_image tok a) m).
Proof.
  intros Hok Ht Harg Hlo Hhi. pose proof Hok as [Hc Hs].
  rewrite (token_bytes_count tok Hok) in * by (rewrite Ht; apply orb_true_r).
  assert (He : elem_size (type tok) = 16%nat /\ var_size (type tok) = 16%nat)
    by (destruct (type tok); try discriminate Ht; split; reflexivity).
  destruct He as [He Hvs].
  rewrite pack_token_block by assumption. unfold pack_block.
  rewrite (select_prim (fun e => pack_block_prim (type tok) e)).
  assert (Harg' : match a with
                  | arg_ptr arr =>
                      (length arr =? Z.to_nat (count tok) * var_size (type tok))%nat
                  | _ => false
                  end = true).
  { unfold arg_ok, takes_pointer in Harg. rewrite Ht in Harg.
    destruct (type tok); try discriminate Ht; exact Harg. }
  destruct a as [v|v|arr]; try discriminate Harg'. apply Nat.eqb_eq in Harg'.
  rewrite Hvs in Harg'. rewrite He in *.
  assert (Himg : token_image tok (arg_ptr arr)
                 = concat (map (host_to_wire (endian tok))
                             (chunks 16 (Z.to_nat (count tok)) arr))).
  { unfold token_image. destruct (type tok); try discriminate Ht; reflexivity. }
  rewrite Himg.
  assert (Hchunks : map (fun blk => host_to_wire (endian tok) (take 16 blk))
                       (map (fun i => drop (i * 16) arr) (seq 0 (Z.to_nat (count tok))))
                     = map (host_to_wire (endian tok))
                         (chunks 16 (Z.to_nat (count tok)) arr)).
  { unfold chunks. rewrite !map_map. reflexivity. }
  destruct (count tok >? 1) eqn:Hcount.
  - unfold bind.
    pose proof (pack_array_spec 16 (fun blk => (16 <= length blk)%nat)
                  (fun blk => host_to_wire (endian tok) (take 16 blk))
                  (block arr) (pack_block_prim (type tok) (endian tok))) as Hpa.
    assert (Hk : forall blk : list byte, (16 <= length blk)%nat ->
                 length (host_to_wire (endian tok) (take 16 blk)) = 16%nat)
      by (intros blk Hb; rewrite length_host_to_wire, length_take; lia).
    specialize (Hpa Hk
                  (fun out blk m Hb Hlo' Hhi' =>
                     pack_block_prim_take (type tok) (endian tok) out blk m Ht Hb Hlo' Hhi')
                  (map (fun i => drop (i * 16) arr) (seq 0 (Z.to_nat (count tok))))
                  0 out m).
    rewrite length_map, length_seq in Hpa. rewrite Hpa; clear Hpa.
    + unfold ret. now rewrite Hchunks.
    + apply Forall_lookup. intros j blk Hj.
      now destruct (block_chunk arr _ j blk Harg' Hj).
    + intros j blk Hj. now destruct (block_chunk arr _ j blk Harg' Hj).
    + assumption.
    + assumption.
  - assert (Hone : count tok = 1)
      by (rewrite Z.gtb_ltb in Hcount; apply Z.ltb_ge in Hcount; lia).
    rewrite Hone in *. simpl Z.to_nat in *.
    unfold bind. rewrite pack_block_prim_take by (auto; lia).
    unfold ret. unfold chunks. simpl. rewrite app_nil_r. reflexivity.
Qed.

Lemma length_string_field (size : Z) (s : list byte) (len : Z) :
  strlen s = Some len -> 0 <= size -> length (string_field size s) = Z.to_nat size.
Proof.
  intros Hs Hsize. pose proof (strlen_bound _ _ Hs) as Hlen.
  unfold string_field. rewrite Hs, length_app, length_take, repeat_length. lia.
Qed.

Lemma pack_token_image `{Platform} (tok : cstruct_token_t) (out : Z) (a : arg)
    (args : list arg) (m : mem) :
  token_ok tok -> type tok <> CSTRUCT_TYPE_PADDING -> arg_ok tok a = true ->
  0 <= out -> out + token_bytes tok <= Z.of_nat (length m) ->
  pack_token tok out (a :: args) m
  = Some ((out + token_bytes tok, args), splice out (token_image tok a) m).
Proof.
  intros Hok Hnp Harg Hlo Hhi.
  destruct (is_integer (type tok) || is_float (type tok)) eqn:Hnum;
    [now apply pack_token_image_scalar|].
  destruct (is_block (type tok)) eqn:Hblk; [now apply pack_token_image_block|].
  destruct Hok as [Hc Hs]. unfold token_bytes in *.
  unfold pack_token, arg_ok, token_image in *.
  destruct (type tok); try discriminate Hnum; try discriminate Hblk; try congruence.
  destruct Hs as [Hone Hsize]. rewrite Hone, Z.mul_1_r in *.
  destruct a as [v|v|s]; try discriminate Harg.
  destruct (strlen s) as [len|] eqn:Hlen; [|discriminate].
  unfold bind. rewrite (cstruct_pack_string_spec out s (size tok) m len) by (auto; lia).
  unfold ret, string_field. now rewrite Hlen.
Qed.

(** The three kinds of argument. *)
Lemma arg_ok_inv `{Platform} (tok : cstruct_token_t) (a : arg) :
  token_ok tok -> type tok <> CSTRUCT_TYPE_PADDING -> arg_ok tok a = true ->
  (type tok = CSTRUCT_TYPE_STRING /\ count tok = 1
   /\ exists s len, a = arg_ptr s /\ strlen s = Some len)
  \/ (is_integer (type tok) || is_float (type tok) || is_block (type tok) = true
      /\ exists arr, a = arg_ptr arr
           /\ length arr = (Z.to_nat (count tok) * var_size (type tok))%nat)
  \/ (is_integer (type tok) || is_float (type tok) = true /\ count tok = 1
      /\ exists v, by_value (type tok) a = Some v /\ (a = arg_int v \/ a = arg_fp v)).
Proof.
  intros [Hc Hs] Hnp Harg. unfold arg_ok, takes_pointer in Harg.
  destruct (type tok) eqn:Hty; try congruence.
  all: try (right; destruct a as [v|v|arr]; simpl in Harg;
            destruct (count tok >? 1) eqn:Hcount; simpl in Harg;
            try discriminate Harg;
            first [ left; split; [reflexivity|];
                    apply Nat.eqb_eq in Harg;
                    eexists; split; [reflexivity|exact Harg]
                  | right; split; [reflexivity|];
                    split; [rewrite Z.gtb_ltb in Hcount; apply Z.ltb_ge in Hcount; lia|];
                    eexists; split; [reflexivity|auto] ]).
  left. destruct Hs as [Hone _]. split; [reflexivity|]. split; [assumption|].
  destruct a as [v|v|s]; try discriminate Harg.
  destruct (strlen s) as [len|] eqn:Hlen; [|discriminate].
  exists s, len. now split.
Qed.

Lemma length_encode_object `{Platform} (t : cstruct_type_t) (e : cstruct_endian_t)
    (obj : list byte) :
  is_integer t || is_float t || is_block t = true -> length obj = var_size t ->
  length (encode_object t e obj) = elem_size t.
Proof.
  intros Ht Hlen. unfold encode_object.
  destruct t; try discriminate Ht; rewrite ?length_wire, ?length_host_to_wire;
    first [reflexivity|exact Hlen].
Qed.

Lemma length_token_image `{Platform} (tok : cstruct_token_t) (a : arg) :
  token_ok tok -> type tok <> CSTRUCT_TYPE_PADDING -> arg_ok tok a = true ->
  Z.of_nat (length (token_image tok a)) = token_bytes tok.
Proof.
  intros Hok Hnp Harg.
  destruct (arg_ok_inv tok a Hok Hnp Harg)
    as [(Hty & Hone & s & len & -> & Hlen)
       |[(Ht & arr & -> & Hlen)|(Ht & Hone & v & Hv & Ha)]].
  - destruct Hok as [_ Hs]. unfold token_image, token_bytes. rewrite Hty in *.
    rewrite (length_string_field _ _ len) by (auto; lia). lia.
  - rewrite (token_bytes_count tok Hok Ht).
    assert (Himg : token_image tok (arg_ptr arr)
                   = concat (map (encode_object (type tok) (endian tok))
                               (chunks (var_size (type tok)) (Z.to_nat (count tok)) arr))).
    { unfold token_image. destruct (type tok); try discriminate Ht; reflexivity. }
    rewrite Himg, (length_concat_same (elem_size (type tok))).
    + now rewrite length_map, length_chunks.
    + apply Forall_map.
      eapply Forall_impl; [apply chunks_length_each; lia|].
      intros obj Hobj. now apply length_encode_object.
  - rewrite (token_bytes_count tok Hok) by (rewrite Ht; reflexivity).
    rewrite Hone. simpl Z.to_nat. rewrite Nat.mul_1_l.
    assert (Himg : token_image tok a = encode (type tok) (endian tok) v).
    { unfold token_image, by_value in *.
      destruct (type tok); try discriminate Ht; destruct Ha as [-> | ->];
        try discriminate Hv; simpl in Hv; reflexivity. }
    now rewrite Himg, length_encode.
Qed.

(* ================================================================== *)
(** * What unpack stores for a token *)

(** The array loop of unpack decodes the elements one after the other. *)
Lemma unpack_array_spec (k : nat) (dec : list byte -> list byte) (buf : mem)
    (unpack1 : Z -> option (list byte * Z)) :
  (forall p, 0 <= p -> p + Z.of_nat k <= Z.of_nat (length buf) ->
     unpack1 p = Some (dec (slice p k buf), p + Z.of_nat k)) ->
  forall (n : nat) (in_ : Z),
    0 <= in_ -> in_ + Z.of_nat (n * k) <= Z.of_nat (length buf) ->
    unpack_array n unpack1 in_
    = Some (concat (map dec (chunks k n (drop (Z.to_nat in_) buf))),
            in_ + Z.of_nat (n * k)).
Proof.
  intros Hun. induction n as [|n IH]; intros in_ Hlo Hhi.
  - simpl. do 2 f_equal. lia.
  - cbn [unpack_array]. rewrite Hun by lia. rewrite IH by lia.
    rewrite chunks_S. cbn [map concat]. do 2 f_equal; [|lia].
    rewrite drop_drop.
    replace (Z.to_nat (in_ + Z.of_nat k)) with (Z.to_nat in_ + k)%nat by lia.
    reflexivity.
Qed.

Lemma unpack_token_object `{Platform} (tok : cstruct_token_t) (buf : mem) (pos : Z) :
  token_ok tok -> 0 <= pos -> pos + token_bytes tok <= Z.of_nat (length buf) ->
  unpack_token tok buf pos
  = Some (pos + token_bytes tok,
          match type tok with
          | CSTRUCT_TYPE_PADDING => []
          | _ => [token_object tok buf pos]
          end).
Proof.
  intros Hok Hlo Hhi. pose proof Hok as [Hc Hs].
  destruct (is_integer (type tok) || is_float (type tok) || is_block (type tok)) eqn:Hnum.
  - rewrite (token_bytes_count tok Hok Hnum) in *.
    rewrite unpack_token_scalar by assumption. unfold unpack_scalar.
    rewrite (select_prim (fun e => unpack_prim (type tok) e buf)).
    assert (Hobj : token_object tok buf pos
                   = concat (map (decode (type tok) (endian tok))
                               (chunks (elem_size (type tok)) (Z.to_nat (count tok))
                                  (drop (Z.to_nat pos) buf)))).
    { unfold token_object. destruct (type tok); try discriminate Hnum; reflexivity. }
    assert (Hres : match type tok with
                   | CSTRUCT_TYPE_PADDING => []
                   | _ => [token_object tok buf pos]
                   end = [token_object tok buf pos])
      by (destruct (type tok); try discriminate Hnum; reflexivity).
    rewrite Hres, Hobj.
    destruct (count tok >? 1) eqn:Hcount.
    + rewrite (unpack_array_spec (elem_size (type tok)) (decode (type tok) (endian tok)) buf)
        by (auto; intros; now apply unpack_prim_spec).
      reflexivity.
    + assert (Hone : count tok = 1)
        by (rewrite Z.gtb_ltb in Hcount; apply Z.ltb_ge in Hcount; lia).
      rewrite Hone in *. simpl Z.to_nat in *. rewrite Nat.mul_1_l in *.
      rewrite unpack_prim_spec by (auto; lia).
      unfold chunks. simpl. rewrite app_nil_r. reflexivity.
  - unfold unpack_token, token_object, token_bytes in *.
    destruct (type tok); try discriminate Hnum;
      destruct Hs as [Hone Hsize]; rewrite Hone, Z.mul_1_r in *.
    + rewrite size_t_small by lia. reflexivity.
    + unfold cstruct_unpack_string. rewrite gather_slice by lia. reflexivity.
Qed.

(* ================================================================== *)
(** * The engines on a whole format *)

Lemma take_take_le {A} (l : list A) (n m : nat) :
  (n <= m)%nat -> take n (take m l) = take n l.
Proof. intros Hnm. rewrite take_take. f_equal. lia. Qed.

Lemma drop_splice_ge (p : Z) (bs : list byte) (m : mem) (n : nat) :
  0 <= p -> p + Z.of_nat (length bs) <= Z.of_nat (length m) ->
  (Z.to_nat p + length bs <= n)%nat ->
  drop n (splice p bs m) = drop n m.
Proof.
  intros Hp Hlen Hn.
  replace n with ((Z.to_nat p + length bs) + (n - (Z.to_nat p + length bs)))%nat by lia.
  rewrite <- (drop_drop (splice p bs m)), <- (drop_drop m).
  now rewrite drop_splice.
Qed.

Lemma take_splice_le (p : Z) (bs : list byte) (m : mem) (n : nat) :
  0 <= p -> p + Z.of_nat (length bs) <= Z.of_nat (length m) ->
  (n <= Z.to_nat p)%nat ->
  take n (splice p bs m) = take n m.
Proof.
  intros Hp Hlen Hn.
  rewrite <- (take_take_le (splice p bs m) n (Z.to_nat p)) by lia.
  rewrite take_splice by assumption. now rewrite take_take_le by lia.
Qed.

Lemma pack_token_padding `{Platform} (tok : cstruct_token_t) (out : Z)
    (args : list arg) (m : mem) :
  token_ok tok -> type tok = CSTRUCT_TYPE_PADDING ->
  pack_token tok out args m = Some ((out + token_bytes tok, args), m).
Proof.
  intros [Hc Hs] Hty. unfold pack_token, token_bytes. rewrite Hty in *.
  destruct Hs as [Hone Hsize]. rewrite Hone, Z.mul_1_r.
  unfold ret, cstruct_pack_padding. now rewrite size_t_small by lia.
Qed.

Lemma args_ok_padding (tok : cstruct_token_t) (toks : list cstruct_token_t)
    (args : list arg) :
  type tok = CSTRUCT_TYPE_PADDING ->
  args_ok (tok :: toks) args = args_ok toks args.
Proof. intros Hty. cbn [args_ok]. now rewrite Hty. Qed.

Lemma args_ok_cons (tok : cstruct_token_t) (toks : list cstruct_token_t)
    (args : list arg) :
  type tok <> CSTRUCT_TYPE_PADDING -> args_ok (tok :: toks) args = true ->
  exists a args', args = a :: args' /\ arg_ok tok a = true /\ args_ok toks args' = true.
Proof.
  intros Hnp Hargs. cbn [args_ok] in Hargs.
  destruct (type tok); try congruence;
    (destruct args as [|a args']; [discriminate|]);
    apply andb_true_iff in Hargs; destruct Hargs; eauto.
Qed.

Lemma image_padding `{Platform} (tok : cstruct_token_t) (toks : list cstruct_token_t)
    (args : list arg) (pos : Z) (m : mem) :
  type tok = CSTRUCT_TYPE_PADDING ->
  image (tok :: toks) args pos m = image toks args (pos + token_bytes tok) m.
Proof. intros Hty. cbn [image]. now rewrite Hty. Qed.

Lemma image_cons `{Platform} (tok : cstruct_token_t) (toks : list cstruct_token_t)
    (a : arg) (args : list arg) (pos : Z) (m : mem) :
  type tok <> CSTRUCT_TYPE_PADDING ->
  image (tok :: toks) (a :: args) pos m
  = image toks args (pos + token_bytes tok) (splice pos (token_image tok a) m).
Proof. intros Hnp. cbn [image]. destruct (type tok); congruence. Qed.

Lemma objects_padding `{Platform} (tok : cstruct_token_t) (toks : list cstruct_token_t)
    (buf : mem) (pos : Z) :
  type tok = CSTRUCT_TYPE_PADDING ->
  objects (tok :: toks) buf pos = objects toks buf (pos + token_bytes tok).
Proof. intros Hty. cbn [objects]. now rewrite Hty. Qed.

Lemma objects_cons `{Platform} (tok : cstruct_token_t) (toks : list cstruct_token_t)
    (buf : mem) (pos : Z) :
  type tok <> CSTRUCT_TYPE_PADDING ->
  objects (tok :: toks) buf pos
  = token_object tok buf pos :: objects toks buf (pos + token_bytes tok).
Proof. intros Hnp. cbn [objects]. destruct (type tok); congruence. Qed.



Lemma type_padding_dec (tok : cstruct_token_t) :
  {type tok = CSTRUCT_TYPE_PADDING} + {type tok <> CSTRUCT_TYPE_PADDING}.
Proof. destruct (type tok); first [left; reflexivity|right; discriminate]. Qed.

(** With arguments that fit the tokens, pack has a defined result for
    every capacity: it fails at the first token that does not fit what is
    left, having written the tokens before it, and else writes the image
    of the arguments; it never writes at or after the capacity, nor
    before the position it starts from. *)
Lemma pack_from_result `{Platform} (dstlen : Z) :
  dstlen <= SIZE_MAX ->
  forall (toks : list cstruct_token_t) (fmt : string) (e : cstruct_endian_t)
         (out : Z) (args : list arg) (m : mem),
    tokens_from e fmt = Some toks -> args_ok toks args = true ->
    Forall (fun tok => token_bytes tok <= SIZE_MAX) toks ->
    0 <= out <= dstlen -> dstlen <= Z.of_nat (length m) ->
    exists r m' k,
      pack_from dstlen out e fmt args m = Some (r, m')
      /\ length m' = length m
      /\ take (Z.to_nat out) m' = take (Z.to_nat out) m
      /\ drop (Z.to_nat dstlen) m' = drop (Z.to_nat dstlen) m
      /\ m' = image (take k toks) args out m
      /\ (if out + total_bytes toks <=? dstlen
          then r = Some (out + total_bytes toks) /\ k = length toks
          else r = None /\ k = fitting toks out dstlen).
Proof.
  intros Hmax. induction toks as [|tok toks IH];
    intros fmt e out args m Htoks Hargs Hfit Hout Hlen.
  - apply tokens_from_empty in Htoks. subst fmt.
    exists (Some out), m, 0%nat. rewrite pack_from_nil. simpl total_bytes.
    replace (out + 0 <=? dstlen) with true by (symmetry; apply Z.leb_le; lia).
    rewrite Z.add_0_r. repeat split; reflexivity.
  - pose proof (tokens_from_ok _ _ _ Htoks) as Hoks.
    apply Forall_cons in Hoks. destruct Hoks as [Hok Hoks].
    apply Forall_cons in Hfit. destruct Hfit as [Hfit0 Hfit].
    destruct (tokens_from_cons _ _ _ _ Htoks) as (q & e' & Hp & Hq).
    pose proof (token_bytes_pos tok Hok) as [_ Hb].
    pose proof (total_bytes_nonneg toks Hoks) as Hnn.
    rewrite (pack_from_step _ _ _ _ _ _ _ _ _ Hp).
    fold (token_bytes tok). rewrite !size_t_small by lia.
    cbn [total_bytes fold_right]. fold (total_bytes toks).
    destruct (Z.ltb_spec (dstlen - out) (token_bytes tok)) as [Hshort|Hroom].
    + exists None, m, 0%nat.
      replace (out + (token_bytes tok + total_bytes toks) <=? dstlen) with false
        by (symmetry; apply Z.leb_gt; lia).
      cbn [fitting].
      replace (out + token_bytes tok <=? dstlen) with false
        by (symmetry; apply Z.leb_gt; lia).
      repeat split; reflexivity.
    + assert (Hpos : 0 <= out + token_bytes tok <= dstlen) by lia.
      assert (Hfits : fitting (tok :: toks) out dstlen
                      = S (fitting toks (out + token_bytes tok) dstlen)).
      { cbn [fitting].
        now replace (out + token_bytes tok <=? dstlen) with true
          by (symmetry; apply Z.leb_le; lia). }
      replace (out + (token_bytes tok + total_bytes toks))
        with (out + token_bytes tok + total_bytes toks) by lia.
      destruct (type_padding_dec tok) as [Hty|Hnp].
      * rewrite pack_token_padding by assumption.
        rewrite args_ok_padding in Hargs by assumption.
        destruct (IH q e' (out + token_bytes tok) args m Hq Hargs Hfit Hpos Hlen)
          as (r & m' & k & Hrun & Hl & Ht & Hd & Hm & Hres).
        exists r, m', (S k). split; [assumption|]. split; [assumption|].
        split; [|split; [assumption|split]].
        -- rewrite <- (take_take_le m' (Z.to_nat out) (Z.to_nat (out + token_bytes tok)))
             by lia.
           rewrite Ht. now rewrite take_take_le by lia.
        -- cbn [take]. now rewrite image_padding.
        -- destruct (out + token_bytes tok + total_bytes toks <=? dstlen);
             destruct Hres as [Hr Hk]; (split; [assumption|]);
             [simpl; lia | rewrite Hfits; congruence].
      * destruct (args_ok_cons _ _ _ Hnp Hargs) as (a & args' & -> & Harg & Hargs').
        pose proof (length_token_image tok a Hok Hnp Harg) as Himg.
        rewrite (pack_token_image tok out a args' m Hok Hnp Harg) by lia.
        assert (Hl1 : length (splice out (token_image tok a) m) = length m)
          by (apply length_splice; lia).
        assert (Hlen1 : dstlen <= Z.of_nat (length (splice out (token_image tok a) m)))
          by lia.
        destruct (IH q e' (out + token_bytes tok) args'
                    (splice out (token_image tok a) m) Hq Hargs' Hfit Hpos Hlen1)
          as (r & m' & k & Hrun & Hl & Ht & Hd & Hm & Hres).
        exists r, m', (S k). split; [assumption|]. split; [congruence|].
        split; [|split; [|split]].
        -- rewrite <- (take_take_le m' (Z.to_nat out) (Z.to_nat (out + token_bytes tok)))
             by lia.
           rewrite Ht, take_take_le by lia. apply take_splice; lia.
        -- rewrite Hd. apply drop_splice_ge; lia.
        -- cbn [take]. now rewrite image_cons.
        -- destruct (out + token_bytes tok + total_bytes toks <=? dstlen);
             destruct Hres as [Hr Hk]; (split; [assumption|]);
             [simpl; lia | rewrite Hfits; congruence].
Qed.

(** Unpack has a defined result on every buffer: it fails at the first
    token that does not fit what is left, having stored the objects of the
    tokens before it, and else stores the objects of all the tokens. *)
Lemma unpack_from_result `{Platform} (src : mem) (srclen : Z) :
  srclen <= SIZE_MAX -> srclen <= Z.of_nat (length src) ->
  forall (toks : list cstruct_token_t) (fmt : string) (e : cstruct_endian_t)
         (in_ : Z) (written : list (list byte)),
    tokens_from e fmt = Some toks ->
    Forall (fun tok => token_bytes tok <= SIZE_MAX) toks ->
    0 <= in_ <= srclen ->
    exists r outs,
      unpack_from src srclen in_ e fmt written = Some (r, outs)
      /\ (if in_ + total_bytes toks <=? srclen
          then r = Some (in_ + total_bytes toks)
               /\ outs = written ++ objects toks src in_
          else r = None
               /\ outs = written
                         ++ objects (take (fitting toks in_ srclen) toks) src in_).
Proof.
  intros Hmax Hlen. induction toks as [|tok toks IH];
    intros fmt e in_ written Htoks Hfit Hin.
  - apply tokens_from_empty in Htoks. subst fmt.
    exists (Some in_), written. rewrite unpack_from_nil. simpl total_bytes.
    replace (in_ + 0 <=? srclen) with true by (symmetry; apply Z.leb_le; lia).
    rewrite Z.add_0_r, app_nil_r. repeat split; reflexivity.
  - pose proof (tokens_from_ok _ _ _ Htoks) as Hoks.
    apply Forall_cons in Hoks. destruct Hoks as [Hok Hoks].
    apply Forall_cons in Hfit. destruct Hfit as [Hfit0 Hfit].
    destruct (tokens_from_cons _ _ _ _ Htoks) as (q & e' & Hp & Hq).
    pose proof (token_bytes_pos tok Hok) as [_ Hb].
    pose proof (total_bytes_nonneg toks Hoks) as Hnn.
    rewrite (unpack_from_step _ _ _ _ _ _ _ _ _ Hp).
    fold (token_bytes tok). rewrite !size_t_small by lia.
    cbn [total_bytes fold_right]. fold (total_bytes toks).
    destruct (Z.ltb_spec (srclen - in_) (token_bytes tok)) as [Hshort|Hroom].
    + exists None, written.
      replace (in_ + (token_bytes tok + total_bytes toks) <=? srclen) with false
        by (symmetry; apply Z.leb_gt; lia).
      split; [reflexivity|]. split; [reflexivity|].
      cbn [fitting].
      replace (in_ + token_bytes tok <=? srclen) with false
        by (symmetry; apply Z.leb_gt; lia).
      simpl. now rewrite app_nil_r.
    + assert (Hpos : 0 <= in_ + token_bytes tok <= srclen) by lia.
      assert (Hfits : fitting (tok :: toks) in_ srclen
                      = S (fitting toks (in_ + token_bytes tok) srclen)).
      { cbn [fitting].
        now replace (in_ + token_bytes tok <=? srclen) with true
          by (symmetry; apply Z.leb_le; lia). }
      replace (in_ + (token_bytes tok + total_bytes toks))
        with (in_ + token_bytes tok + total_bytes toks) by lia.
      rewrite unpack_token_object by (auto; lia).
      destruct (type_padding_dec tok) as [Hty|Hnp].
      * rewrite Hty. rewrite app_nil_r.
        destruct (IH q e' (in_ + token_bytes tok) written Hq Hfit Hpos)
          as (r & outs & Hrun & Hres).
        exists r, outs. split; [assumption|].
        destruct (in_ + token_bytes tok + total_bytes toks <=? srclen).
        -- now rewrite objects_padding.
        -- destruct Hres as [Hr Hk]. split; [assumption|].
           rewrite Hfits. cbn [take]. now rewrite objects_padding.
      * assert (Hone : match type tok with
                       | CSTRUCT_TYPE_PADDING => []
                       | _ => [token_object tok src in_]
                       end = [token_object tok src in_])
          by (destruct (type tok); congruence).
        rewrite Hone.
        destruct (IH q e' (in_ + token_bytes tok) (written ++ [token_object tok src in_])
                    Hq Hfit Hpos) as (r & outs & Hrun & Hres).
        exists r, outs. split; [assumption|].
        destruct (in_ + token_bytes tok + total_bytes toks <=? srclen).
        -- rewrite objects_cons by assumption.
           destruct Hres as [Hr Ho]. split; [assumption|].
           now rewrite Ho, <- app_assoc.
        -- destruct Hres as [Hr Hk]. split; [assumption|].
           rewrite Hfits. cbn [take]. rewrite objects_cons by assumption.
           now rewrite Hk, <- app_assoc.
Qed.

(* ================================================================== *)
(** * What unpack reads back from what pack wrote *)






Lemma image_frame `{Platform} (toks : list cstruct_token_t) :
  Forall token_ok toks ->
  forall (args : list arg) (pos : Z) (m : mem),
    args_ok toks args = true ->
    0 <= pos -> pos + total_bytes toks <= Z.of_nat (length m) ->
    length (image toks args pos m) = length m
    /\ take (Z.to_nat pos) (image toks args pos m) = take (Z.to_nat pos) m.
Proof.
  induction 1 as [|tok toks Hok Hoks IH]; intros args pos m Hargs Hpos Hfit;
    [split; reflexivity|].
  pose proof (token_bytes_pos tok Hok) as [_ Hb].
  pose proof (total_bytes_nonneg toks Hoks) as Hnn.
  cbn [total_bytes fold_right] in Hfit. fold (total_bytes toks) in Hfit.
  destruct (type_padding_dec tok) as [Hty|Hnp].
  - rewrite image_padding by assumption. rewrite args_ok_padding in Hargs by assumption.
    assert (Hpos' : 0 <= pos + token_bytes tok) by lia.
    assert (Hfit' : pos + token_bytes tok + total_bytes toks <= Z.of_nat (length m)) by lia.
    destruct (IH args (pos + token_bytes tok) m Hargs Hpos' Hfit') as [Hl Ht].
    split; [assumption|].
    rewrite <- (take_take_le _ (Z.to_nat pos) (Z.to_nat (pos + token_bytes tok))) by lia.
    rewrite Ht. now rewrite take_take_le by lia.
  - destruct (args_ok_cons _ _ _ Hnp Hargs) as (a & args' & -> & Harg & Hargs').
    pose proof (length_token_image tok a Hok Hnp Harg) as Himg.
    rewrite image_cons by assumption.
    assert (Hl1 : length (splice pos (token_image tok a) m) = length m)
      by (apply length_splice; lia).
    assert (Hpos' : 0 <= pos + token_bytes tok) by lia.
    assert (Hfit' : pos + token_bytes tok + total_bytes toks
                    <= Z.of_nat (length (splice pos (token_image tok a) m))) by lia.
    destruct (IH args' (pos + token_bytes tok) (splice pos (token_image tok a) m)
                Hargs' Hpos' Hfit') as [Hl Ht].
    split; [congruence|].
    rewrite <- (take_take_le _ (Z.to_nat pos) (Z.to_nat (pos + token_bytes tok))) by lia.
    rewrite Ht, take_take_le by lia. apply take_splice; lia.
Qed.


Lemma token_bytes_bounded `{Platform} (toks : list cstruct_token_t) (bound : Z) :
  Forall token_ok toks -> total_bytes toks <= bound ->
  Forall (fun tok => token_bytes tok <= bound) toks.
Proof.
  induction 1 as [|tok toks Hok Hoks IH]; intros Htotal; [constructor|].
  cbn [total_bytes fold_right] in Htotal. fold (total_bytes toks) in Htotal.
  pose proof (token_bytes_pos tok Hok) as [_ Hb].
  pose proof (total_bytes_nonneg toks Hoks) as Hnn.
  constructor; [lia|apply IH; lia].
Qed.

Lemma pack_image_result `{Platform} (dstlen : Z) (fmt : string)
    (toks : list cstruct_token_t) (args : list arg) (m : mem) :
  tokens fmt = Some toks -> args_ok toks args = true ->
  total_bytes toks <= dstlen <= SIZE_MAX -> dstlen <= Z.of_nat (length m) ->
  cstruct_pack dstlen fmt args m
  = Some (Some (total_bytes toks), image toks args 0 m).
Proof.
  intros Htoks Hargs Hcap Hlen.
  pose proof (tokens_from_ok _ _ _ Htoks) as Hoks.
  pose proof (total_bytes_nonneg toks Hoks) as Hnn.
  assert (Hfit : Forall (fun tok => token_bytes tok <= SIZE_MAX) toks)
    by (apply token_bytes_bounded; [assumption|lia]).
  assert (Hout : 0 <= 0 <= dstlen) by lia.
  destruct (pack_from_result dstlen (proj2 Hcap) toks fmt CSTRUCT_ENDIAN_LITTLE 0 args m
              Htoks Hargs Hfit Hout Hlen)
    as (r & m' & k & Hrun & _ & _ & _ & Hm & Hres).
  rewrite Z.add_0_l in Hres.
  replace (total_bytes toks <=? dstlen) with true in Hres
    by (symmetry; apply Z.leb_le; lia).
  destruct Hres as [-> ->]. rewrite firstn_all in Hm. subst m'. exact Hrun.
Qed.

(** All the tokens are processed exactly when the buffer holds them
    all. *)
Lemma fitting_all `{Platform} (toks : list cstruct_token_t) (len : Z) :
  Forall token_ok toks ->
  forall (pos : Z), pos <= len ->
    (fitting toks pos len = length toks <-> pos + total_bytes toks <= len).
Proof.
  induction 1 as [|tok toks Hok Hoks IH]; intros pos Hpos.
  - simpl. lia.
  - pose proof (token_bytes_pos tok Hok) as [_ Hb].
    pose proof (total_bytes_nonneg toks Hoks) as Hnn.
    cbn [fitting total_bytes fold_right length]. fold (total_bytes toks).
    destruct (Z.leb_spec (pos + token_bytes tok) len) as [Hle|Hgt].
    + specialize (IH (pos + token_bytes tok) Hle). simpl in *. lia.
    + lia.
Qed.

(** X20.  Pack is safe on every capacity.  For a well-formed format,
    arguments that fit its tokens (a terminated string for [s], an array
    of [count] elements for a token that takes a pointer, a value else)
    and no token whose [size * count] exceeds [SIZE_MAX], [cstruct_pack_v]
    has a defined result whatever the capacity: the end position, the sum
    of the bytes of the tokens, when the capacity holds them all, and
    [NULL] otherwise.  In both cases the buffer holds what the tokens
    before the first one that does not fit write ([fitting] counts them;
    they are all the tokens exactly when the capacity holds them all), it
    keeps its length and no byte at or after the capacity is modified. *)
Theorem pack_within_capacity `{Platform} (dstlen : Z) (fmt : string)
    (toks : list cstruct_token_t) (args : list arg) (m : mem) :
  tokens fmt = Some toks -> args_ok toks args = true ->
  Forall (fun tok => token_bytes tok <= SIZE_MAX) toks ->
  0 <= dstlen <= SIZE_MAX -> dstlen <= Z.of_nat (length m) ->
  exists r m',
    cstruct_pack_v dstlen fmt args m = Some (r, m')
    /\ r = (if total_bytes toks <=? dstlen then Some (total_bytes toks) else None)
    /\ m' = image (take (fitting toks 0 dstlen) toks) args 0 m
    /\ (fitting toks 0 dstlen = length toks <-> total_bytes toks <= dstlen)
    /\ length m' = length m
    /\ drop (Z.to_nat dstlen) m' = drop (Z.to_nat dstlen) m.
Proof.
  intros Htoks Hargs Hfit Hcap Hlen.
  pose proof (tokens_from_ok _ _ _ Htoks) as Hoks.
  pose proof (fitting_all toks dstlen Hoks 0 (proj1 Hcap)) as Hall. rewrite Z.add_0_l in Hall.
  destruct (pack_from_result dstlen (proj2 Hcap) toks fmt CSTRUCT_ENDIAN_LITTLE 0 args m
              Htoks Hargs Hfit (conj (Z.le_refl 0) (proj1 Hcap)) Hlen)
    as (r & m' & k & Hrun & Hl & _ & Hd & Hm & Hres).
  exists r, m'. split; [exact Hrun|].
  rewrite Z.add_0_l in Hres.
  assert (Hk : k = fitting toks 0 dstlen /\
               r = (if total_bytes toks <=? dstlen
                    then Some (total_bytes toks) else None)).
  { destruct (Z.leb_spec (total_bytes toks) dstlen) as [Hle|Hgt];
      destruct Hres as [Hr Hk]; split; auto.
    rewrite Hk. symmetry. now apply Hall. }
  destruct Hk as [Hk Hr]. rewrite <- Hk.
  split; [exact Hr|]. split; [exact Hm|]. split; [|split; assumption].
  rewrite Hk. exact Hall.
Qed.

Lemma pack_within_capacity_witness :
  exists r m',
    @cstruct_pack_v arm32 5 "H2Ib" [arg_int 1; arg_ptr (repeat Byte.x11 8); arg_int 2]
       (repeat Byte.xaa 8)
    = Some (r, m')
    /\ r = None
    /\ m' = [Byte.x01; Byte.x00; Byte.xaa; Byte.xaa;
              Byte.xaa; Byte.xaa; Byte.xaa; Byte.xaa]
    /\ (1%nat = 3%nat <-> 11 <= 5)
    /\ length m' = 8%nat
    /\ drop (Z.to_nat 5) m' = drop (Z.to_nat 5) (repeat Byte.xaa 8).
Proof.
  apply (@pack_within_capacity arm32 5 "H2Ib"
           [ {| type := CSTRUCT_TYPE_UINT16; endian := CSTRUCT_ENDIAN_LITTLE;
                size := 2; count := 1 |};
             {| type := CSTRUCT_TYPE_UINT32; endian := CSTRUCT_ENDIAN_LITTLE;
                size := 4; count := 2 |};
             {| type := CSTRUCT_TYPE_INT8; endian := CSTRUCT_ENDIAN_LITTLE;
                size := 1; count := 1 |} ]
           [arg_int 1; arg_ptr (repeat Byte.x11 8); arg_int 2] (repeat Byte.xaa 8));
    first [ reflexivity
          | (repeat constructor; discriminate)
          | (split; discriminate)
          | (simpl; lia) ].
Defined.







(* ================================================================== *)
(** * Locating a field in what pack wrote *)

Lemma args_before_padding (tok : cstruct_token_t) (toks : list cstruct_token_t) (i : nat) :
  type tok = CSTRUCT_TYPE_PADDING ->
  args_before (tok :: toks) (S i) = args_before toks i.
Proof. intros Hty. cbn [args_before]. now rewrite Hty. Qed.

Lemma args_before_cons (tok : cstruct_token_t) (toks : list cstruct_token_t) (i : nat) :
  type tok <> CSTRUCT_TYPE_PADDING ->
  args_before (tok :: toks) (S i) = S (args_before toks i).
Proof. intros Hnp. cbn [args_before]. destruct (type tok); congruence. Qed.

Lemma total_bytes_app (l1 l2 : list cstruct_token_t) :
  total_bytes (l1 ++ l2) = total_bytes l1 + total_bytes l2.
Proof.
  induction l1 as [|t l1 IH]; [reflexivity|].
  cbn [app total_bytes fold_right]. fold (total_bytes (l1 ++ l2)). fold (total_bytes l1).
  rewrite IH. lia.
Qed.




(* ================================================================== *)
(** * Formats put one after the other *)

Lemma tokens_from_app `{Platform} (fmt2 : string) (toks1 : list cstruct_token_t) :
  forall (fmt1 : string) (e : cstruct_endian_t),
    tokens_from e fmt1 = Some toks1 ->
    tokens_from e (fmt1 ++ fmt2)
    = option_map (app toks1) (tokens_from (last_endian e toks1) fmt2).
Proof.
  induction toks1 as [|tok toks1 IH]; intros fmt1 e Htoks.
  - apply tokens_from_empty in Htoks. subst fmt1. simpl.
    now destruct (tokens_from e fmt2).
  - destruct (tokens_from_cons _ _ _ _ Htoks) as (q & e' & Hp & Hq).
    rewrite (tokens_from_step _ _ _ _ _ (parse_token_app _ fmt2 _ _ _ _ Hp)).
    rewrite (IH q e' Hq).
    apply parse_token_spec in Hp. destruct Hp as (_ & He & _).
    cbn [last_endian]. rewrite He.
    now destruct (tokens_from (last_endian e' toks1) fmt2).
Qed.

Lemma args_ok_app (toks1 toks2 : list cstruct_token_t) (args2 : list arg) :
  forall (args1 : list arg),
    args_ok toks1 args1 = true -> length args1 = args_before toks1 (length toks1) ->
    args_ok toks2 args2 = true ->
    args_ok (toks1 ++ toks2) (args1 ++ args2) = true.
Proof.
  induction toks1 as [|tok toks1 IH]; intros args1 Hargs1 Hlen Hargs2.
  - destruct args1; [assumption|discriminate].
  - cbn [app length] in *. destruct (type_padding_dec tok) as [Hty|Hnp].
    + rewrite args_before_padding in Hlen by assumption.
      rewrite args_ok_padding in Hargs1 |- * by assumption. auto.
    + rewrite args_before_cons in Hlen by assumption.
      destruct (args_ok_cons _ _ _ Hnp Hargs1) as (a & args' & -> & Harg & Hargs').
      simpl in Hlen. cbn [app args_ok].
      rewrite Harg, (IH args') by (auto; lia).
      destruct (type tok); try congruence; reflexivity.
Qed.

Lemma image_app `{Platform} (toks1 toks2 : list cstruct_token_t) (args2 : list arg) :
  forall (args1 : list arg) (pos : Z) (m : mem),
    args_ok toks1 args1 = true -> length args1 = args_before toks1 (length toks1) ->
    image (toks1 ++ toks2) (args1 ++ args2) pos m
    = image toks2 args2 (pos + total_bytes toks1) (image toks1 args1 pos m).
Proof.
  induction toks1 as [|tok toks1 IH]; intros args1 pos m Hargs1 Hlen.
  - destruct args1; [|discriminate]. simpl. now rewrite Z.add_0_r.
  - cbn [app length total_bytes fold_right] in *. fold (total_bytes toks1).
    replace (pos + (token_bytes tok + total_bytes toks1))
      with (pos + token_bytes tok + total_bytes toks1) by lia.
    destruct (type_padding_dec tok) as [Hty|Hnp].
    + rewrite args_before_padding in Hlen by assumption.
      rewrite args_ok_padding in Hargs1 by assumption.
      rewrite !image_padding by assumption. auto.
    + rewrite args_before_cons in Hlen by assumption.
      destruct (args_ok_cons _ _ _ Hnp Hargs1) as (a & args' & -> & Harg & Hargs').
      simpl in Hlen. cbn [app]. rewrite !image_cons by assumption.
      apply IH; auto; lia.
Qed.

Lemma splice_shift (pos p : Z) (bs : list byte) (m : mem) :
  0 <= pos -> 0 <= p -> pos + p + Z.of_nat (length bs) <= Z.of_nat (length m) ->
  drop (Z.to_nat pos) (splice (pos + p) bs m) = splice p bs (drop (Z.to_nat pos) m).
Proof.
  intros Hpos Hp Hlen. unfold splice.
  rewrite drop_app_le by (rewrite length_take; lia).
  rewrite skipn_firstn_comm, drop_drop.
  f_equal; [f_equal; lia|]. f_equal. f_equal. lia.
Qed.

(** Writing from position [pos] on is writing from the start of the
    buffer [pos] points to. *)
Lemma image_shift `{Platform} (toks : list cstruct_token_t) :
  Forall token_ok toks ->
  forall (args : list arg) (pos p : Z) (m : mem),
    args_ok toks args = true ->
    0 <= pos -> 0 <= p -> pos + p + total_bytes toks <= Z.of_nat (length m) ->
    image toks args (pos + p) m
    = take (Z.to_nat pos) m ++ image toks args p (drop (Z.to_nat pos) m).
Proof.
  induction 1 as [|tok toks Hok Hoks IH]; intros args pos p m Hargs Hpos Hp Hfit.
  - simpl. now rewrite take_drop.
  - pose proof (token_bytes_pos tok Hok) as [_ Hb].
    pose proof (total_bytes_nonneg toks Hoks) as Hnn.
    cbn [total_bytes fold_right] in Hfit. fold (total_bytes toks) in Hfit.
    destruct (type_padding_dec tok) as [Hty|Hnp].
    + rewrite args_ok_padding in Hargs by assumption.
      rewrite !image_padding by assumption.
      replace (pos + p + token_bytes tok) with (pos + (p + token_bytes tok)) by lia.
      apply IH; auto; lia.
    + destruct (args_ok_cons _ _ _ Hnp Hargs) as (a & args' & -> & Harg & Hargs').
      pose proof (length_token_image tok a Hok Hnp Harg) as Himg.
      rewrite !image_cons by assumption.
      replace (pos + p + token_bytes tok) with (pos + (p + token_bytes tok)) by lia.
      rewrite IH by (auto; rewrite ?length_splice; lia).
      rewrite take_splice_le by lia.
      rewrite splice_shift by lia. reflexivity.
Qed.

(** X25.  One call of [cstruct_pack] with two formats put one after the
    other writes what two calls write, the second on the pointer the
    first returned with the capacity left, when the first format leaves
    the endianness little-endian (the second call starts little-endian
    again): the end position is the sum of the two and the bytes are the
    same. *)
Theorem pack_concat `{Platform} (dstlen : Z) (fmt1 fmt2 : string)
    (toks1 toks2 : list cstruct_token_t) (args1 args2 : list arg) (m : mem) :
  tokens fmt1 = Some toks1 -> tokens fmt2 = Some toks2 ->
  last_endian CSTRUCT_ENDIAN_LITTLE toks1 = CSTRUCT_ENDIAN_LITTLE ->
  args_ok toks1 args1 = true -> length args1 = args_before toks1 (length toks1) ->
  args_ok toks2 args2 = true ->
  total_bytes toks1 + total_bytes toks2 <= dstlen <= SIZE_MAX ->
  dstlen <= Z.of_nat (length m) ->
  exists m1 m2,
    cstruct_pack dstlen fmt1 args1 m = Some (Some (total_bytes toks1), m1)
    /\ cstruct_pack (dstlen - total_bytes toks1) fmt2 args2
         (drop (Z.to_nat (total_bytes toks1)) m1)
       = Some (Some (total_bytes toks2), m2)
    /\ cstruct_pack dstlen (fmt1 ++ fmt2) (args1 ++ args2) m
       = Some (Some (total_bytes toks1 + total_bytes toks2),
               take (Z.to_nat (total_bytes toks1)) m1 ++ m2).
Proof.
  intros Htoks1 Htoks2 Hlast Hargs1 Hlen1 Hargs2 Hcap Hlen.
  pose proof (tokens_from_ok _ _ _ Htoks1) as Hoks1.
  pose proof (tokens_from_ok _ _ _ Htoks2) as Hoks2.
  pose proof (total_bytes_nonneg toks1 Hoks1) as Hnn1.
  pose proof (total_bytes_nonneg toks2 Hoks2) as Hnn2.
  assert (Htoks : tokens (fmt1 ++ fmt2) = Some (toks1 ++ toks2)).
  { unfold tokens. fold (tokens_from CSTRUCT_ENDIAN_LITTLE (fmt1 ++ fmt2)).
    rewrite (tokens_from_app fmt2 toks1 fmt1 CSTRUCT_ENDIAN_LITTLE Htoks1), Hlast.
    change (tokens_from CSTRUCT_ENDIAN_LITTLE fmt2) with (tokens fmt2).
    now rewrite Htoks2. }
  assert (Himg1 : 0 + total_bytes toks1 <= Z.of_nat (length m)) by lia.
  destruct (image_frame toks1 Hoks1 args1 0 m Hargs1 (Z.le_refl 0) Himg1) as [Hl1 _].
  exists (image toks1 args1 0 m),
         (image toks2 args2 0 (drop (Z.to_nat (total_bytes toks1)) (image toks1 args1 0 m))).
  split; [|split].
  - apply pack_image_result; auto; lia.
  - apply pack_image_result; auto; rewrite ?length_drop; lia.
  - rewrite (pack_image_result dstlen (fmt1 ++ fmt2) (toks1 ++ toks2) (args1 ++ args2) m
               Htoks (args_ok_app _ _ _ _ Hargs1 Hlen1 Hargs2))
      by (rewrite ?total_bytes_app; lia).
    rewrite total_bytes_app, image_app by assumption.
    rewrite Z.add_0_l.
    rewrite <- (Z.add_0_r (total_bytes toks1)) at 2.
    rewrite image_shift by (auto; lia). reflexivity.
Qed.

Lemma pack_concat_witness :
  exists m1 m2,
    @cstruct_pack arm32 9 "B2x" [arg_int 7] (repeat Byte.xaa 9) = Some (Some 3, m1)
    /\ @cstruct_pack arm32 (9 - 3) ">hI" [arg_int (-2); arg_int 9] (drop (Z.to_nat 3) m1)
       = Some (Some 6, m2)
    /\ @cstruct_pack arm32 9 ("B2x" ++ ">hI") ([arg_int 7] ++ [arg_int (-2); arg_int 9])
         (repeat Byte.xaa 9)
       = Some (Some (3 + 6), take (Z.to_nat 3) m1 ++ m2).
Proof.
  apply (@pack_concat arm32 9 "B2x" ">hI"
           [ {| type := CSTRUCT_TYPE_UINT8; endian := CSTRUCT_ENDIAN_LITTLE;
                size := 1; count := 1 |};
             {| type := CSTRUCT_TYPE_PADDING; endian := CSTRUCT_ENDIAN_LITTLE;
                size := 2; count := 1 |} ]
           [ {| type := CSTRUCT_TYPE_INT16; endian := CSTRUCT_ENDIAN_BIG;
                size := 2; count := 1 |};
             {| type := CSTRUCT_TYPE_UINT32; endian := CSTRUCT_ENDIAN_BIG;
                size := 4; count := 1 |} ]
           [arg_int 7] [arg_int (-2); arg_int 9] (repeat Byte.xaa 9));
    first [ reflexivity | (split; discriminate) | (simpl; lia) ].
Defined.

Lemma objects_app `{Platform} (toks1 toks2 : list cstruct_token_t) (buf : mem) :
  forall (pos : Z),
    objects (toks1 ++ toks2) buf pos
    = objects toks1 buf pos ++ objects toks2 buf (pos + total_bytes toks1).
Proof.
  induction toks1 as [|tok toks1 IH]; intros pos.
  - simpl. now rewrite Z.add_0_r.
  - cbn [app objects total_bytes fold_right]. fold (total_bytes toks1).
    rewrite IH.
    replace (pos + token_bytes tok + total_bytes toks1)
      with (pos + (token_bytes tok + total_bytes toks1)) by lia.
    destruct (type tok); reflexivity.
Qed.

(** Reading from position [pos] on is reading from the start of the
    buffer [pos] points to. *)
Lemma objects_shift `{Platform} (toks : list cstruct_token_t) (buf : mem) (pos : Z) :
  Forall token_ok toks -> 0 <= pos ->
  forall (p : Z), 0 <= p ->
    objects toks buf (pos + p) = objects toks (drop (Z.to_nat pos) buf) p.
Proof.
  intros Hoks Hpos. induction Hoks as [|tok toks Hok Hoks IH]; intros p Hp;
    [reflexivity|].
  pose proof (token_bytes_pos tok Hok) as [_ Hb].
  cbn [objects].
  replace (pos + p + token_bytes tok) with (pos + (p + token_bytes tok)) by lia.
  rewrite IH by lia.
  assert (Hobj : token_object tok buf (pos + p)
                 = token_object tok (drop (Z.to_nat pos) buf) p).
  { unfold token_object, slice. rewrite !drop_drop.
    replace (Z.to_nat pos + Z.to_nat p)%nat with (Z.to_nat (pos + p)) by lia.
    reflexivity. }
  rewrite Hobj. reflexivity.
Qed.

Lemma unpack_objects_result `{Platform} (src : mem) (srclen : Z) (fmt : string)
    (toks : list cstruct_token_t) :
  tokens fmt = Some toks ->
  total_bytes toks <= srclen <= SIZE_MAX -> srclen <= Z.of_nat (length src) ->
  cstruct_unpack src srclen fmt = Some (Some (total_bytes toks), objects toks src 0).
Proof.
  intros Htoks Hcap Hlen.
  pose proof (tokens_from_ok _ _ _ Htoks) as Hoks.
  pose proof (total_bytes_nonneg toks Hoks) as Hnn.
  assert (Hfit : Forall (fun tok => token_bytes tok <= SIZE_MAX) toks)
    by (apply token_bytes_bounded; [assumption|lia]).
  assert (Hin : 0 <= 0 <= srclen) by lia.
  destruct (unpack_from_result src srclen (proj2 Hcap) Hlen toks fmt
              CSTRUCT_ENDIAN_LITTLE 0 [] Htoks Hfit Hin)
    as (r & outs & Hrun & Hres).
  rewrite Z.add_0_l in Hres.
  replace (total_bytes toks <=? srclen) with true in Hres
    by (symmetry; apply Z.leb_le; lia).
  destruct Hres as [-> ->]. exact Hrun.
Qed.

(** X26.  One call of [cstruct_unpack] with two formats put one after
    the other stores what two calls store, the second on the pointer the
    first returned with the length left, when the first format leaves
    the endianness little-endian: the end position is the sum of the two
    and the objects are those of the first call followed by those of the
    second. *)
Theorem unpack_concat `{Platform} (src : mem) (srclen : Z) (fmt1 fmt2 : string)
    (toks1 toks2 : list cstruct_token_t) :
  tokens fmt1 = Some toks1 -> tokens fmt2 = Some toks2 ->
  last_endian CSTRUCT_ENDIAN_LITTLE toks1 = CSTRUCT_ENDIAN_LITTLE ->
  total_bytes toks1 + total_bytes toks2 <= srclen <= SIZE_MAX ->
  srclen <= Z.of_nat (length src) ->
  exists objs1 objs2,
    cstruct_unpack src srclen fmt1 = Some (Some (total_bytes toks1), objs1)
    /\ cstruct_unpack (drop (Z.to_nat (total_bytes toks1)) src)
         (srclen - total_bytes toks1) fmt2
       = Some (Some (total_bytes toks2), objs2)
    /\ cstruct_unpack src srclen (fmt1 ++ fmt2)
       = Some (Some (total_bytes toks1 + total_bytes toks2), objs1 ++ objs2).
Proof.
  intros Htoks1 Htoks2 Hlast Hcap Hlen.
  pose proof (tokens_from_ok _ _ _ Htoks1) as Hoks1.
  pose proof (tokens_from_ok _ _ _ Htoks2) as Hoks2.
  pose proof (total_bytes_nonneg toks1 Hoks1) as Hnn1.
  pose proof (total_bytes_nonneg toks2 Hoks2) as Hnn2.
  assert (Htoks : tokens (fmt1 ++ fmt2) = Some (toks1 ++ toks2)).
  { unfold tokens. fold (tokens_from CSTRUCT_ENDIAN_LITTLE (fmt1 ++ fmt2)).
    rewrite (tokens_from_app fmt2 toks1 fmt1 CSTRUCT_ENDIAN_LITTLE Htoks1), Hlast.
    change (tokens_from CSTRUCT_ENDIAN_LITTLE fmt2) with (tokens fmt2).
    now rewrite Htoks2. }
  exists (objects toks1 src 0),
         (objects toks2 (drop (Z.to_nat (total_bytes toks1)) src) 0).
  split; [|split].
  - apply unpack_objects_result; auto; lia.
  - apply unpack_objects_result; auto; rewrite ?length_drop; lia.
  - rewrite (unpack_objects_result src srclen (fmt1 ++ fmt2) (toks1 ++ toks2) Htoks)
      by (rewrite ?total_bytes_app; lia).
    rewrite total_bytes_app, objects_app, Z.add_0_l.
    rewrite <- (Z.add_0_r (total_bytes toks1)) at 2.
    rewrite objects_shift by (auto; lia). reflexivity.
Qed.

Lemma unpack_concat_witness :
  exists objs1 objs2,
    @cstruct_unpack arm32 (repeat Byte.x01 9) 9 "B2x" = Some (Some 3, objs1)
    /\ @cstruct_unpack arm32 (drop (Z.to_nat 3) (repeat Byte.x01 9)) (9 - 3) ">hI"
       = Some (Some 6, objs2)
    /\ @cstruct_unpack arm32 (repeat Byte.x01 9) 9 ("B2x" ++ ">hI")
       = Some (Some (3 + 6), objs1 ++ objs2).
Proof.
  apply (@unpack_concat arm32 (repeat Byte.x01 9) 9 "B2x" ">hI"
           [ {| type := CSTRUCT_TYPE_UINT8; endian := CSTRUCT_ENDIAN_LITTLE;
                size := 1; count := 1 |};
             {| type := CSTRUCT_TYPE_PADDING; endian := CSTRUCT_ENDIAN_LITTLE;
                size := 2; count := 1 |} ]
           [ {| type := CSTRUCT_TYPE_INT16; endian := CSTRUCT_ENDIAN_BIG;
                size := 2; count := 1 |};
             {| type := CSTRUCT_TYPE_UINT32; endian := CSTRUCT_ENDIAN_BIG;
                size := 4; count := 1 |} ]);
    first [ reflexivity | (split; discriminate) | (simpl; lia) ].
Defined.
